(** * mace/tools/utils.py: statistics helpers, atomic number tables and the
      weight transplant [load_foundations]

    A shallow embedding of [src/mace/tools/utils.py].

    - Floating point numbers are kept behind the interface [Arith]: every
      numeric function of the source is written once, over any carrier, and
      read at two instances: the real numbers (exact arithmetic, where the
      algebraic properties are proved) and IEEE binary64 (Rocq's primitive
      floats, where the functions evaluate as numpy evaluates them on short
      arrays).
    - Python exceptions are values of [exn]; a computation that can raise
      returns an [outcome].
    - The two models handed to [load_foundations] are objects of a store;
      assignments to attributes of the target update the store in place. *)

From Stdlib Require Import Reals Lra Lia ZArith List Floats Uint63 Ascii String.
From stdpp Require Import functions base list strings pretty sorting gmap.

(** ** Numbers *)

(** The operations the source applies to floating point values. [a_eps] is
    the literal [1e-9]. *)
Class Arith (num : Type) := {
  a_zero : num;
  a_one : num;
  a_add : num -> num -> num;
  a_mul : num -> num -> num;
  a_div : num -> num -> num;
  a_abs : num -> num;
  a_sqrt : num -> num;
  a_ltb : num -> num -> bool;
  a_eqb : num -> num -> bool;
  a_of_nat : nat -> num;
  a_eps : num
}.

(** Exact arithmetic. *)
#[export] Instance R_arith : Arith R := {|
  a_zero := 0%R;
  a_one := 1%R;
  a_add := Rplus;
  a_mul := Rmult;
  a_div := Rdiv;
  a_abs := Rabs;
  a_sqrt := R_sqrt.sqrt;
  a_ltb := fun x y => if Rlt_dec x y then true else false;
  a_eqb := fun x y => if Req_dec_T x y then true else false;
  a_of_nat := INR;
  a_eps := (1 / 10 ^ 9)%R
|}.

(** IEEE 754 binary64, round to nearest even: numpy's [float64] and Python's
    [float]. [a_of_nat] is exact for the lengths that occur (below 2^53). *)
#[export] Instance float_arith : Arith float := {|
  a_zero := 0%float;
  a_one := 1%float;
  a_add := PrimFloat.add;
  a_mul := PrimFloat.mul;
  a_div := PrimFloat.div;
  a_abs := PrimFloat.abs;
  a_sqrt := PrimFloat.sqrt;
  a_ltb := PrimFloat.ltb;
  a_eqb := PrimFloat.eqb;
  a_of_nat := fun n => PrimFloat.of_uint63 (Uint63.of_Z (Z.of_nat n));
  a_eps := 0x1.12e0be826d695p-30%float
|}.

Section Statistics.
Context {num : Type} `{Arith num}.

(** [np.mean] over all the entries of an array: their sum over their
    number. The entries are added from the left; in exact arithmetic the
    order is immaterial, and on arrays of at most two entries that are not
    negative zero there is one order only. *)
Definition np_sum (a : list num) : num := fold_left a_add a a_zero.

Definition np_mean (a : list num) : num :=
  a_div (np_sum a) (a_of_nat (length a)).

Definition np_abs (a : list num) : list num := map a_abs a.

Definition np_square (a : list num) : list num := map (fun x => a_mul x x) a.

(** A boolean array read as numbers, as [np.mean] does. *)
Definition of_bool (b : bool) : num := if b then a_one else a_zero.

Definition compute_mae (delta : list num) : num :=
  np_mean (np_abs delta).

Definition compute_rel_mae (delta target_val : list num) : num :=
  let target_norm := np_mean (np_abs target_val) in
  a_mul (a_div (np_mean (np_abs delta)) (a_add target_norm a_eps))
        (a_of_nat 100).

Definition compute_rmse (delta : list num) : num :=
  a_sqrt (np_mean (np_square delta)).

Definition compute_rel_rmse (delta target_val : list num) : num :=
  let target_norm := a_sqrt (np_mean (np_square target_val)) in
  a_mul (a_div (a_sqrt (np_mean (np_square delta))) (a_add target_norm a_eps))
        (a_of_nat 100).

Definition compute_c (delta : list num) (eta : num) : num :=
  np_mean (map (fun x => of_bool (a_ltb (a_abs x) eta)) delta).

(** [c * a] for a scalar [c] and an array [a]. *)
Definition np_scale (c : num) (a : list num) : list num := map (a_mul c) a.
End Statistics.

(** The sum of a list of reals, by recursion on the list. *)
Fixpoint Rsum (a : list R) : R :=
  match a with
  | [] => 0%R
  | x :: a' => (x + Rsum a')%R
  end.

#[export] Instance Rlt_decision : RelDecision Rlt := Rlt_dec.

(** The number of entries of [delta] whose absolute value is strictly below
    [eta]. *)
Definition count_below (eta : R) (delta : list R) : nat :=
  length (filter (fun x => (Rabs x < eta)%R) delta).

(** ** Exceptions *)

(** The exceptions the modelled code raises. *)
Inductive exn : Set :=
  | AssertionError
  | ZeroDivisionError
  | ValueError
  | IndexError
  | RuntimeError
  | AttributeError.

(** The result of a call: a value, or an exception. *)
Inductive outcome (A : Type) : Type :=
  | Ret (a : A)
  | Raise (e : exn).
Arguments Ret {A} a.
Arguments Raise {A} e.

#[export] Instance outcome_ret : MRet outcome := fun A a => Ret a.

#[export] Instance outcome_bind : MBind outcome := fun A B k r =>
  match r with
  | Ret a => k a
  | Raise e => Raise e
  end.

(** A list comprehension [[f(x) for x in xs]] whose body can raise: the
    first exception, in order, ends it. *)
Fixpoint comprehension {A B} (f : A -> outcome B) (xs : list A)
  : outcome (list B) :=
  match xs with
  | [] => Ret []
  | x :: xs' =>
      y ← f x; ys ← comprehension f xs'; Ret (y :: ys)
  end.

(** ** AtomicNumberTable *)

(** [AtomicNumberTable(zs)]: the constructor stores the sequence it is given. *)
Record AtomicNumberTable : Set := AtomicNumberTable_init { zs : list Z }.

(** [__len__] *)
Definition AtomicNumberTable_len (self : AtomicNumberTable) : nat :=
  length (zs self).

(** [list.__getitem__] with an integer: a negative index counts from the
    end; outside [-len, len) it raises [IndexError]. *)
Definition list_getitem {A} (l : list A) (index : Z) : outcome A :=
  let n := Z.of_nat (length l) in
  let i := if (index <? 0)%Z then (index + n)%Z else index in
  if ((0 <=? i)%Z && (i <? n)%Z)%bool then
    match l !! Z.to_nat i with
    | Some x => Ret x
    | None => Raise IndexError
    end
  else Raise IndexError.

(** [list.index]: the position of the first entry equal to [x]. *)
Fixpoint list_index (x : Z) (l : list Z) : option nat :=
  match l with
  | [] => None
  | y :: l' => if decide (y = x) then Some 0 else S <$> list_index x l'
  end.

Definition index_to_z (self : AtomicNumberTable) (index : Z) : outcome Z :=
  list_getitem (zs self) index.

(** [self.zs.index(atomic_number)] raises [ValueError] when the number is
    not in the list. *)
Definition z_to_index (self : AtomicNumberTable) (atomic_number : Z)
  : outcome nat :=
  match list_index atomic_number (zs self) with
  | Some i => Ret i
  | None => Raise ValueError
  end.

(** [sorted] on a list of integers. *)
Definition sorted (l : list Z) : list Z := merge_sort Z.le l.

Definition get_atomic_number_table_from_zs (zs : list Z) : AtomicNumberTable :=
  let z_set := fold_left (fun (s : gset Z) z => s ∪ {[ z ]}) zs ∅ in
  AtomicNumberTable_init (sorted (elements z_set)).

(** The invariant the data model states for a table: entries in ascending
    order, and the two lookups inverse to each other. *)
Definition table_invariant (t : AtomicNumberTable) : Prop :=
  Sorted Z.le (zs t) /\
  (forall i : nat, i < length (zs t) ->
     exists z, index_to_z t (Z.of_nat i) = Ret z /\ z_to_index t z = Ret i) /\
  (forall z : Z, z ∈ zs t ->
     exists i, z_to_index t z = Ret i /\ index_to_z t (Z.of_nat i) = Ret z).

(** ** Tensors *)

(** The weights the transplant handles are kept by rank: a flat weight (every
    [e3nn] linear and tensor product weight, and the Bessel frequencies) is a
    list of numbers; the weight of a radial network layer is a list of rows;
    the per-element weights of a contraction are a list of blocks, one per
    chemical element, each a list of rows. *)

Section Tensors.
Context {A : Type}.

(** Entries [i*c .. i*c + c) of a flat tensor: row [i] when it is viewed
    with rows of [c] entries. *)
Definition species_block (c : nat) (t : list A) (i : nat) : list A :=
  take c (drop (i * c) t).

(** [t.view(n, -1)]: [n] rows of equal length; [RuntimeError] when [n] does
    not divide the number of entries. *)
Definition view_rows (n : nat) (t : list A) : outcome (list (list A)) :=
  if decide (n <> 0 /\ length t `mod` n = 0)
  then Ret (species_block (length t `div` n) t <$> seq 0 n)
  else Raise RuntimeError.

(** [t[indices, ...]]: the entries of the first dimension at the listed
    positions, in the order listed; [IndexError] out of range. *)
Definition index_select (indices : list nat) (t : list A)
  : outcome (list A) :=
  comprehension (fun i => match t !! i with
                          | Some b => Ret b
                          | None => Raise IndexError
                          end) indices.

(** [t.reshape(outer, n, inner)[:, indices, :].flatten()] on a flat tensor
    ([outer] stands for all the leading dimensions together):
    [RuntimeError] when the tensor does not have [outer * n * inner]
    entries, [IndexError] when an index is not below [n]. *)
Definition reshape_select (outer n inner : nat) (indices : list nat)
    (t : list A) : outcome (list A) :=
  if decide (length t = outer * n * inner) then
    if forallb (fun i => i <? n) indices then
      Ret (concat ((fun o =>
             concat ((fun i => species_block inner t (o * n + i)) <$> indices))
           <$> seq 0 outer))
    else Raise IndexError
  else Raise RuntimeError.

(** [l[i]] for an index that is not negative. *)
Definition getitem (l : list A) (i : nat) : outcome A :=
  match l !! i with
  | Some x => Ret x
  | None => Raise IndexError
  end.
End Tensors.

(** [a // b] on integers that are not negative. *)
Definition floordiv (a b : nat) : outcome nat :=
  if decide (b = 0) then Raise ZeroDivisionError else Ret (a `div` b).

(** ** The model objects *)

Section Model.
Context {num : Type} `{Arith num}.

(** [t / f] for a tensor and a Python float. *)
Definition tensor_div (t : list num) (f : num) : list num :=
  map (fun x => a_div x f) t.

(** [(num_species_foundations / num_species) ** 0.5]: the division of two
    Python integers raises on a zero divisor. *)
Definition species_ratio_sqrt (num_species_foundations num_species : nat)
  : outcome num :=
  if decide (num_species = 0) then Raise ZeroDivisionError
  else Ret (a_sqrt (a_div (a_of_nat num_species_foundations)
                          (a_of_nat num_species))).

(** [radial_embedding.bessel_fn]: its class name and, for the Bessel
    basis, its learnable frequencies. *)
Record BesselFn : Type := {
  bessel_class : string;
  bessel_weights : list num
}.

Record RadialEmbedding : Type := {
  out_dim : nat;
  bessel_fn : BesselFn
}.

(** An interaction block. [conv_tp_weights] lists the weights of the
    attributes [layer0], [layer1], ... of the radial network. *)
Record InteractionBlock : Type := {
  interaction_class : string;
  linear_up_weight : list num;
  avg_num_neighbors : num;
  conv_tp_weights : list (list (list num));
  linear_weight : list num;
  skip_tp_weight : list num
}.

Record Contraction : Type := {
  weights_max : list (list (list num));
  weights : list (list (list (list num)))
}.

(** A product block: [symmetric_contractions.contractions] and [linear]. *)
Record ProductBlock : Type := {
  contractions : list Contraction;
  product_linear_weight : list num
}.

(** The two kinds of readout: one with the attribute [linear], one with
    [linear_1] and [linear_2]. *)
Inductive ReadoutBlock : Type :=
  | LinearReadoutBlock (linear : list num)
  | NonLinearReadoutBlock (linear_1 linear_2 : list num).

Record ScaleShift : Type := {
  scale : num;
  shift : num
}.

Record Model : Type := {
  r_max : num;
  atomic_numbers : list Z;
  node_embedding_weight : list num;
  radial_embedding : RadialEmbedding;
  spherical_harmonics_lmax : nat;
  num_interactions : Z;
  interactions : list InteractionBlock;
  products : list ProductBlock;
  readouts : list ReadoutBlock;
  scale_shift : option ScaleShift
}.

(** *** Attribute assignment *)

Definition set_node_embedding_weight (w : list num) (m : Model) : Model :=
  {| r_max := r_max m; atomic_numbers := atomic_numbers m;
     node_embedding_weight := w;
     radial_embedding := radial_embedding m;
     spherical_harmonics_lmax := spherical_harmonics_lmax m;
     num_interactions := num_interactions m;
     interactions := interactions m; products := products m;
     readouts := readouts m; scale_shift := scale_shift m |}.

Definition set_bessel_weights (w : list num) (m : Model) : Model :=
  {| r_max := r_max m; atomic_numbers := atomic_numbers m;
     node_embedding_weight := node_embedding_weight m;
     radial_embedding :=
       {| out_dim := out_dim (radial_embedding m);
          bessel_fn :=
            {| bessel_class := bessel_class (bessel_fn (radial_embedding m));
               bessel_weights := w |} |};
     spherical_harmonics_lmax := spherical_harmonics_lmax m;
     num_interactions := num_interactions m;
     interactions := interactions m; products := products m;
     readouts := readouts m; scale_shift := scale_shift m |}.

Definition set_interactions (l : list InteractionBlock) (m : Model) : Model :=
  {| r_max := r_max m; atomic_numbers := atomic_numbers m;
     node_embedding_weight := node_embedding_weight m;
     radial_embedding := radial_embedding m;
     spherical_harmonics_lmax := spherical_harmonics_lmax m;
     num_interactions := num_interactions m;
     interactions := l; products := products m;
     readouts := readouts m; scale_shift := scale_shift m |}.

Definition set_products (l : list ProductBlock) (m : Model) : Model :=
  {| r_max := r_max m; atomic_numbers := atomic_numbers m;
     node_embedding_weight := node_embedding_weight m;
     radial_embedding := radial_embedding m;
     spherical_harmonics_lmax := spherical_harmonics_lmax m;
     num_interactions := num_interactions m;
     interactions := interactions m; products := l;
     readouts := readouts m; scale_shift := scale_shift m |}.

Definition set_readouts (l : list ReadoutBlock) (m : Model) : Model :=
  {| r_max := r_max m; atomic_numbers := atomic_numbers m;
     node_embedding_weight := node_embedding_weight m;
     radial_embedding := radial_embedding m;
     spherical_harmonics_lmax := spherical_harmonics_lmax m;
     num_interactions := num_interactions m;
     interactions := interactions m; products := products m;
     readouts := l; scale_shift := scale_shift m |}.

Definition set_scale_shift (o : option ScaleShift) (m : Model) : Model :=
  {| r_max := r_max m; atomic_numbers := atomic_numbers m;
     node_embedding_weight := node_embedding_weight m;
     radial_embedding := radial_embedding m;
     spherical_harmonics_lmax := spherical_harmonics_lmax m;
     num_interactions := num_interactions m;
     interactions := interactions m; products := products m;
     readouts := readouts m; scale_shift := o |}.

Definition set_linear_up_weight (w : list num) (b : InteractionBlock)
  : InteractionBlock :=
  {| interaction_class := interaction_class b; linear_up_weight := w;
     avg_num_neighbors := avg_num_neighbors b;
     conv_tp_weights := conv_tp_weights b;
     linear_weight := linear_weight b; skip_tp_weight := skip_tp_weight b |}.

Definition set_avg_num_neighbors (a : num) (b : InteractionBlock)
  : InteractionBlock :=
  {| interaction_class := interaction_class b;
     linear_up_weight := linear_up_weight b; avg_num_neighbors := a;
     conv_tp_weights := conv_tp_weights b;
     linear_weight := linear_weight b; skip_tp_weight := skip_tp_weight b |}.

Definition set_conv_tp_weights (l : list (list (list num)))
    (b : InteractionBlock) : InteractionBlock :=
  {| interaction_class := interaction_class b;
     linear_up_weight := linear_up_weight b;
     avg_num_neighbors := avg_num_neighbors b; conv_tp_weights := l;
     linear_weight := linear_weight b; skip_tp_weight := skip_tp_weight b |}.

Definition set_linear_weight (w : list num) (b : InteractionBlock)
  : InteractionBlock :=
  {| interaction_class := interaction_class b;
     linear_up_weight := linear_up_weight b;
     avg_num_neighbors := avg_num_neighbors b;
     conv_tp_weights := conv_tp_weights b;
     linear_weight := w; skip_tp_weight := skip_tp_weight b |}.

Definition set_skip_tp_weight (w : list num) (b : InteractionBlock)
  : InteractionBlock :=
  {| interaction_class := interaction_class b;
     linear_up_weight := linear_up_weight b;
     avg_num_neighbors := avg_num_neighbors b;
     conv_tp_weights := conv_tp_weights b;
     linear_weight := linear_weight b; skip_tp_weight := w |}.

Definition set_weights_max (w : list (list (list num))) (c : Contraction)
  : Contraction :=
  {| weights_max := w; weights := weights c |}.

Definition set_weights (l : list (list (list (list num)))) (c : Contraction)
  : Contraction :=
  {| weights_max := weights_max c; weights := l |}.

Definition set_contractions (l : list Contraction) (p : ProductBlock)
  : ProductBlock :=
  {| contractions := l; product_linear_weight := product_linear_weight p |}.

Definition set_product_linear_weight (w : list num) (p : ProductBlock)
  : ProductBlock :=
  {| contractions := contractions p; product_linear_weight := w |}.

Definition set_scale (x : num) (ss : ScaleShift) : ScaleShift :=
  {| scale := x; shift := shift ss |}.

Definition set_shift (x : num) (ss : ScaleShift) : ScaleShift :=
  {| scale := scale ss; shift := x |}.

(** [l[i] = f(l[i])] on a list held by an object; [IndexError] when there
    is no position [i]. *)
Definition at_index {B} (i : nat) (f : B -> outcome B) (l : list B)
  : outcome (list B) :=
  match l !! i with
  | Some x => x' ← f x; Ret (<[i := x']> l)
  | None => Raise IndexError
  end.

(** [model.interactions[i]. ... = ...] *)
Definition at_interaction (i : nat)
    (f : InteractionBlock -> outcome InteractionBlock) (m : Model)
  : outcome Model :=
  l ← at_index i f (interactions m); Ret (set_interactions l m).

(** [getattr(conv_tp_weights, f"layer{j}")]; the attribute is missing
    beyond the layers the network has. *)
Definition getattr_layer (layers : list (list (list num))) (j : nat)
  : outcome (list (list num)) :=
  match layers !! j with
  | Some w => Ret w
  | None => Raise AttributeError
  end.

(** [getattr(block.conv_tp_weights, f"layer{j}").weight = w] *)
Definition setattr_layer (j : nat) (w : list (list num))
    (b : InteractionBlock) : outcome InteractionBlock :=
  match conv_tp_weights b !! j with
  | Some _ => Ret (set_conv_tp_weights (<[j := w]> (conv_tp_weights b)) b)
  | None => Raise AttributeError
  end.

(** [model.products[i]. ... = ...] *)
Definition at_product (i : nat) (f : ProductBlock -> outcome ProductBlock)
    (m : Model) : outcome Model :=
  l ← at_index i f (products m); Ret (set_products l m).

(** [product.symmetric_contractions.contractions[j]. ... = ...] *)
Definition at_contraction (j : nat) (f : Contraction -> outcome Contraction)
    (p : ProductBlock) : outcome ProductBlock :=
  l ← at_index j f (contractions p); Ret (set_contractions l p).

(** [contraction.weights[k] = w] *)
Definition setitem_weight (k : nat) (w : list (list (list num)))
    (c : Contraction) : outcome Contraction :=
  l ← at_index k (fun _ => Ret w) (weights c); Ret (set_weights l c).

(** [model.readouts[i]. ... = ...] *)
Definition at_readout (i : nat) (f : ReadoutBlock -> outcome ReadoutBlock)
    (m : Model) : outcome Model :=
  l ← at_index i f (readouts m); Ret (set_readouts l m).

Definition getattr_linear (r : ReadoutBlock) : outcome (list num) :=
  match r with
  | LinearReadoutBlock w => Ret w
  | NonLinearReadoutBlock _ _ => Raise AttributeError
  end.

Definition getattr_linear_1 (r : ReadoutBlock) : outcome (list num) :=
  match r with
  | LinearReadoutBlock _ => Raise AttributeError
  | NonLinearReadoutBlock w _ => Ret w
  end.

Definition getattr_linear_2 (r : ReadoutBlock) : outcome (list num) :=
  match r with
  | LinearReadoutBlock _ => Raise AttributeError
  | NonLinearReadoutBlock _ w => Ret w
  end.

Definition setattr_linear (w : list num) (r : ReadoutBlock)
  : outcome ReadoutBlock :=
  match r with
  | LinearReadoutBlock _ => Ret (LinearReadoutBlock w)
  | NonLinearReadoutBlock _ _ => Raise AttributeError
  end.

Definition setattr_linear_1 (w : list num) (r : ReadoutBlock)
  : outcome ReadoutBlock :=
  match r with
  | LinearReadoutBlock _ => Raise AttributeError
  | NonLinearReadoutBlock _ w2 => Ret (NonLinearReadoutBlock w w2)
  end.

Definition setattr_linear_2 (w : list num) (r : ReadoutBlock)
  : outcome ReadoutBlock :=
  match r with
  | LinearReadoutBlock _ => Raise AttributeError
  | NonLinearReadoutBlock w1 _ => Ret (NonLinearReadoutBlock w1 w)
  end.

(** [model.scale_shift.<attribute> = ...]; there is no attribute to set on
    [None]. *)
Definition at_scale_shift (f : ScaleShift -> ScaleShift) (m : Model)
  : outcome Model :=
  match scale_shift m with
  | Some ss => Ret (set_scale_shift (Some (f ss)) m)
  | None => Raise AttributeError
  end.

(** [model.products[i].symmetric_contractions.contractions[j]], when
    there is one. *)
Definition contraction_at (m : Model) (i j : nat) : option Contraction :=
  p ← products m !! i; contractions p !! j.

(** The leading dimensions of the layout [skip_tp] is reshaped to, by the
    class name of the target's interaction block. *)
Definition skip_tp_outer (num_channels_foundation max_ell : nat)
    (cls : string) : nat :=
  if String.eqb cls "RealAgnosticResidualInteractionBlock"
  then num_channels_foundation
  else num_channels_foundation * (max_ell + 1).

(** *** The store *)

(** Model objects live in a store; a variable of the source holds the
    location of its object, so two variables may name one object. *)
Definition loc : Set := positive.
Definition store : Type := loc -> Model.

(** A statement: it runs in a store, returns or raises, and leaves a
    store; what it changed before raising stays changed. *)
Definition M (X : Type) : Type := store -> outcome X * store.

#[export] Instance M_ret : MRet M := fun X x s => (Ret x, s).

#[export] Instance M_bind : MBind M := fun X Y k c s =>
  match c s with
  | (Ret x, s') => k x s'
  | (Raise e, s') => (Raise e, s')
  end.

Definition raise {X} (e : exn) : M X := fun s => (Raise e, s).

(** An expression that reads no object. *)
Definition lift {X} (r : outcome X) : M X := fun s => (r, s).

Definition read (l : loc) : M Model := fun s => (Ret (s l), s).

Definition write (l : loc) (m : Model) : M unit :=
  fun s => (Ret tt, <[l := m]> s).

(** An assignment to an attribute reached from the object at [l]: the
    path to the attribute is followed, which can raise, and then the
    object is updated. *)
Definition assign (l : loc) (upd : Model -> outcome Model) : M unit :=
  m ← read l; m' ← lift (upd m); write l m'.

Fixpoint for_each {X} (body : X -> M unit) (xs : list X) : M unit :=
  match xs with
  | [] => mret tt
  | x :: xs' => _ ← body x; for_each body xs'
  end.

(** [for i in range(n): body] *)
Definition for_range (n : nat) (body : nat -> M unit) : M unit :=
  for_each body (seq 0 n).

(** *** Relations between the store before and after a statement *)

(** [stable R c]: whatever [c] does, returning or raising, the store it
    leaves is related by [R] to the store it started in. *)
Definition stable (R : relation store) {X} (c : M X) : Prop :=
  forall s, R s (c s).2.

(** Every object but the one at [l] is as it was. *)
Definition frame_rel (l : loc) : relation store :=
  fun s s' => forall l', l' <> l -> s' l' = s l'.

(** The observation [obs] of the object at [l] is as it was. *)
Definition obs_rel {Y} (l : loc) (obs : Model -> Y) : relation store :=
  fun s s' => obs (s' l) = obs (s l).

(** ** load_foundations *)

Section LoadFoundations.
Variables model model_foundations : loc.

(** [model_foundations.interactions[i]] *)
Definition foundation_interaction (i : nat) : M InteractionBlock :=
  f ← read model_foundations; lift (getitem (interactions f) i).

(** [model_foundations.products[i].symmetric_contractions.contractions[j]] *)
Definition foundation_contraction (i j : nat) : M Contraction :=
  f ← read model_foundations;
  p ← lift (getitem (products f) i);
  lift (getitem (contractions p) j).

(** [model_foundations.readouts[i]] *)
Definition foundation_readout (i : nat) : M ReadoutBlock :=
  f ← read model_foundations; lift (getitem (readouts f) i).

(** Lines 236-243: the node embedding. *)
Definition transfer_node_embedding (num_species_foundations : nat)
    (indices_weights : list nat) (num_species : nat) : M unit :=
  f ← read model_foundations;
  rows ← lift (view_rows num_species_foundations (node_embedding_weight f));
  selected ← lift (index_select indices_weights rows);
  factor ← lift (species_ratio_sqrt num_species_foundations num_species);
  assign model (fun m =>
    Ret (set_node_embedding_weight
           (tensor_div (concat selected) factor) m)).

(** Lines 244-247: the Bessel frequencies, for a target whose basis is
    of the class [BesselBasis]. *)
Definition transfer_bessel_weights : M unit :=
  m ← read model;
  if String.eqb (bessel_class (bessel_fn (radial_embedding m))) "BesselBasis"
  then
    f ← read model_foundations;
    assign model (fun m =>
      Ret (set_bessel_weights
             (bessel_weights (bessel_fn (radial_embedding f))) m))
  else mret tt.

(** Lines 286-309: the weight of [skip_tp], in the layout
    [outer x species x channels]. *)
Definition transfer_skip_tp (outer num_species_foundations
    num_channels_foundation : nat) (indices_weights : list nat)
    (num_species i : nat) : M unit :=
  bf ← foundation_interaction i;
  selected ← lift (reshape_select outer num_species_foundations
                     num_channels_foundation indices_weights
                     (skip_tp_weight bf));
  factor ← lift (species_ratio_sqrt num_species_foundations num_species);
  assign model (at_interaction i (fun b =>
    Ret (set_skip_tp_weight (tensor_div selected factor) b))).

(** Lines 250-309: the body of the loop over the interactions. *)
Definition transfer_interaction (num_species_foundations
    num_channels_foundation : nat) (indices_weights : list nat)
    (num_radial num_species max_ell : nat) (i : nat) : M unit :=
  bf ← foundation_interaction i;
  _ ← assign model (at_interaction i (fun b =>
        Ret (set_linear_up_weight (linear_up_weight bf) b)));
  bf ← foundation_interaction i;
  _ ← assign model (at_interaction i (fun b =>
        Ret (set_avg_num_neighbors (avg_num_neighbors bf) b)));
  _ ← for_range 4 (fun j =>
        bf ← foundation_interaction i;
        w ← lift (getattr_layer (conv_tp_weights bf) j);
        if decide (j = 0) then
          assign model (at_interaction i (setattr_layer j (take num_radial w)))
        else
          assign model (at_interaction i (setattr_layer j w)));
  bf ← foundation_interaction i;
  _ ← assign model (at_interaction i (fun b =>
        Ret (set_linear_weight (linear_weight bf) b)));
  m ← read model;
  b ← lift (getitem (interactions m) i);
  if String.eqb (interaction_class b) "RealAgnosticResidualInteractionBlock"
  then
    transfer_skip_tp num_channels_foundation num_species_foundations
      num_channels_foundation indices_weights num_species i
  else
    transfer_skip_tp (num_channels_foundation * (max_ell + 1))
      num_species_foundations num_channels_foundation indices_weights
      num_species i.

(** Lines 314-331: the body of the loop over the contractions of
    product block [i]. *)
Definition transfer_contraction (indices_weights : list nat) (i j : nat)
  : M unit :=
  c ← foundation_contraction i j;
  w ← lift (index_select indices_weights (weights_max c));
  _ ← assign model (at_product i (at_contraction j (fun c' =>
        Ret (set_weights_max w c'))));
  for_range 2 (fun k =>
    c ← foundation_contraction i j;
    wk ← lift (getitem (weights c) k);
    w ← lift (index_select indices_weights wk);
    assign model (at_product i (at_contraction j (setitem_weight k w)))).

(** Lines 312-335: the body of the loop over the two product blocks. *)
Definition transfer_product (indices_weights : list nat) (max_L : Z)
    (i : nat) : M unit :=
  let max_range := if decide (i = 0) then (max_L + 1)%Z else 1%Z in
  _ ← for_range (Z.to_nat max_range)
        (transfer_contraction indices_weights i);
  f ← read model_foundations;
  p ← lift (getitem (products f) i);
  assign model (at_product i (fun p' =>
    Ret (set_product_linear_weight (product_linear_weight p) p'))).

(** Lines 339-349: the readouts. *)
Definition transfer_readouts : M unit :=
  r ← foundation_readout 0;
  w ← lift (getattr_linear r);
  _ ← assign model (at_readout 0 (setattr_linear w));
  r ← foundation_readout 1;
  w ← lift (getattr_linear_1 r);
  _ ← assign model (at_readout 1 (setattr_linear_1 w));
  r ← foundation_readout 1;
  w ← lift (getattr_linear_2 r);
  assign model (at_readout 1 (setattr_linear_2 w)).

(** Lines 350-354: scale and shift. *)
Definition transfer_scale_shift (use_shift use_scale : bool) : M unit :=
  f ← read model_foundations;
  match scale_shift f with
  | None => mret tt
  | Some _ =>
      _ ← (if use_scale then
             f ← read model_foundations;
             ss ← lift (match scale_shift f with
                        | Some ss => Ret ss
                        | None => Raise AttributeError
                        end);
             assign model (at_scale_shift (set_scale (scale ss)))
           else mret tt);
      if use_shift then
        f ← read model_foundations;
        ss ← lift (match scale_shift f with
                   | Some ss => Ret ss
                   | None => Raise AttributeError
                   end);
        assign model (at_scale_shift (set_shift (shift ss)))
      else mret tt
  end.

Definition load_foundations (table : AtomicNumberTable)
    (load_readout use_shift use_scale : bool) (max_L : Z) : M loc :=
  f ← read model_foundations;
  m ← read model;
  _ ← (if a_eqb (r_max f) (r_max m) then mret tt else raise AssertionError);
  let z_table := AtomicNumberTable_init (atomic_numbers f) in
  let new_z_table := table in
  let num_species_foundations := length (zs z_table) in
  num_channels_foundation ←
    lift (floordiv (length (node_embedding_weight f))
                   num_species_foundations);
  indices_weights ←
    lift (comprehension (z_to_index z_table) (zs new_z_table));
  let num_radial := out_dim (radial_embedding m) in
  let num_species := length indices_weights in
  let max_ell := spherical_harmonics_lmax m in
  _ ← transfer_node_embedding num_species_foundations indices_weights
        num_species;
  _ ← transfer_bessel_weights;
  m ← read model;
  _ ← for_range (Z.to_nat (num_interactions m))
        (transfer_interaction num_species_foundations
           num_channels_foundation indices_weights num_radial num_species
           max_ell);
  _ ← for_range 2 (transfer_product indices_weights max_L);
  _ ← (if load_readout then transfer_readouts else mret tt);
  _ ← transfer_scale_shift use_shift use_scale;
  mret model.
End LoadFoundations.
End Model.

Arguments BesselFn : clear implicits.
Arguments RadialEmbedding : clear implicits.
Arguments InteractionBlock : clear implicits.
Arguments Contraction : clear implicits.
Arguments ProductBlock : clear implicits.
Arguments ReadoutBlock : clear implicits.
Arguments ScaleShift : clear implicits.
Arguments Model : clear implicits.
Arguments store : clear implicits.
Arguments M : clear implicits.

(** ** Well-formed foundation models, and an example *)

Section Examples.
Context {num : Type} `{Arith num}.

(** Every per-element weight of the contractions has one block per
    chemical element of the model. *)
Definition per_element_blocks (m : Model num) : Prop :=
  Forall (fun p =>
    Forall (fun c =>
      length (weights_max c) = length (atomic_numbers m) /\
      Forall (fun w => length w = length (atomic_numbers m)) (weights c))
      (contractions p))
    (products m).

(** [[a_of_nat n for n in ns]] *)
Definition numbers (ns : list nat) : list num := map a_of_nat ns.

(** A foundation model for the elements H, C and O with two channels, one
    interaction of the given class, three radial basis functions and one
    contraction per product block. *)
Definition example_foundation (cls : string) : Model num :=
  {| r_max := a_of_nat 5;
     atomic_numbers := [1; 6; 8]%Z;
     node_embedding_weight := numbers [1; 2; 3; 4; 5; 6];
     radial_embedding :=
       {| out_dim := 3;
          bessel_fn := {| bessel_class := "BesselBasis";
                          bessel_weights := numbers [1; 2; 3] |} |};
     spherical_harmonics_lmax := 0;
     num_interactions := 1;
     interactions :=
       [ {| interaction_class := cls;
            linear_up_weight := numbers [1; 2];
            avg_num_neighbors := a_of_nat 3;
            conv_tp_weights :=
              [ [numbers [1; 2]; numbers [3; 4]; numbers [5; 6]];
                [numbers [7]]; [numbers [8]]; [numbers [9]] ];
            linear_weight := numbers [4; 5];
            skip_tp_weight := numbers [1; 2; 3; 4; 5; 6; 7; 8; 9; 10; 11; 12]
         |} ];
     products :=
       replicate 2
         {| contractions :=
              [ {| weights_max := [[numbers [1]]; [numbers [2]]; [numbers [3]]];
                   weights :=
                     [ [[numbers [4]]; [numbers [5]]; [numbers [6]]];
                       [[numbers [7]]; [numbers [8]]; [numbers [9]]] ] |} ];
            product_linear_weight := numbers [1; 1] |};
     readouts :=
       [ LinearReadoutBlock (numbers [1]);
         NonLinearReadoutBlock (numbers [2]) (numbers [3]) ];
     scale_shift := Some {| scale := a_of_nat 2; shift := a_of_nat 1 |} |}.

(** A freshly built target for the given elements: the same architecture
    with the given radial dimension, spherical harmonics degree, basis
    class and interaction class, and all its weights empty or zero. *)
Definition example_target (elements : list Z) (radial_dim max_ell : nat)
    (basis_cls interaction_cls : string) : Model num :=
  {| r_max := a_of_nat 5;
     atomic_numbers := elements;
     node_embedding_weight := [];
     radial_embedding :=
       {| out_dim := radial_dim;
          bessel_fn := {| bessel_class := basis_cls;
                          bessel_weights := [] |} |};
     spherical_harmonics_lmax := max_ell;
     num_interactions := 1;
     interactions :=
       [ {| interaction_class := interaction_cls;
            linear_up_weight := [];
            avg_num_neighbors := a_zero;
            conv_tp_weights := [ []; []; []; [] ];
            linear_weight := [];
            skip_tp_weight := [] |} ];
     products :=
       replicate 2
         {| contractions := [ {| weights_max := []; weights := [ []; [] ] |} ];
            product_linear_weight := [] |};
     readouts := [ LinearReadoutBlock []; NonLinearReadoutBlock [] [] ];
     scale_shift := Some {| scale := a_zero; shift := a_zero |} |}.

(** The store with a target at location 1 and the foundation model
    everywhere else. *)
Definition example_store (target foundation : Model num) : store num :=
  fun l => if decide (l = 1%positive) then target else foundation.

(** The call [load_foundations(model, model_foundations, table,
    load_readout=True, use_shift=True, use_scale=True, max_L=0)] on the
    example foundation model and a target for the given elements. *)
Definition example_call (elements : list Z) (radial_dim max_ell : nat)
    (basis_cls interaction_cls : string) : outcome loc * store num :=
  load_foundations 1%positive 2%positive (AtomicNumberTable_init elements)
    true true true 0
    (example_store
       (example_target elements radial_dim max_ell basis_cls interaction_cls)
       (example_foundation "RealAgnosticResidualInteractionBlock")).
End Examples.

(** ** Further functions of the file *)

(** [np.vectorize(z_table.z_to_index)(atomic_numbers)]: the lookup at every
    entry, in order. [np.vectorize] without [otypes] calls the function on
    the first entry to find the type of the result, and raises [ValueError]
    on an array with no entry. *)
Definition atomic_numbers_to_indices (atomic_numbers : list Z)
    (z_table : AtomicNumberTable) : outcome (list nat) :=
  match atomic_numbers with
  | [] => Raise ValueError
  | _ :: _ => comprehension (z_to_index z_table) atomic_numbers
  end.

(** [f"{name}_run-{seed}"]: an integer is formatted in decimal, with a
    minus sign when it is negative. *)
Definition get_tag (name : string) (seed : Z) : string :=
  name +:+ "_run-" +:+ pretty seed.

(** [s.endswith("/")] *)
Fixpoint ends_with_sep (s : string) : bool :=
  match s with
  | EmptyString => false
  | String c EmptyString => Ascii.eqb c "/"%char
  | String _ s' => ends_with_sep s'
  end.

(** [os.path.join(a, b)] on a POSIX system: an absolute [b] replaces [a];
    otherwise [b] is appended, after a separator unless [a] is empty or ends
    with one. *)
Definition os_path_join (a b : string) : string :=
  if String.prefix "/" b then b
  else if (String.eqb a "" || ends_with_sep a)%bool then a +:+ b
  else a +:+ "/" +:+ b.

(** [MetricsLogger]: the attributes [__init__] sets. *)
Record MetricsLogger : Set := {
  logger_directory : string;
  logger_filename : string;
  logger_path : string
}.

Definition MetricsLogger_init (directory tag : string) : MetricsLogger :=
  {| logger_directory := directory;
     logger_filename := tag +:+ ".txt";
     logger_path := os_path_join directory (tag +:+ ".txt") |}.

(** * Properties *)

(** ** Statistics helpers, in exact arithmetic *)

Section StatisticsReal.
Open Scope R_scope.

Lemma fold_left_Rplus (a : list R) (acc : R) :
  fold_left Rplus a acc = acc + Rsum a.
Proof.
  revert acc; induction a as [|x a IH]; intros acc; simpl.
  - lra.
  - rewrite IH. lra.
Qed.

Lemma np_sum_Rsum (a : list R) : np_sum a = Rsum a.
Proof. unfold np_sum; simpl. rewrite fold_left_Rplus. lra. Qed.

Lemma np_mean_R (a : list R) : np_mean a = Rsum a / INR (length a).
Proof. unfold np_mean. rewrite np_sum_Rsum. reflexivity. Qed.

Lemma INR_length_pos {A} (a : list A) : a <> [] -> 0 < INR (length a).
Proof.
  destruct a; [congruence|]. intros _. apply lt_0_INR. simpl. lia.
Qed.

Lemma Rsum_nonneg (a : list R) : Forall (fun x => 0 <= x) a -> 0 <= Rsum a.
Proof. induction 1; simpl; lra. Qed.

Lemma Rsum_scale (c : R) (a : list R) : Rsum (map (Rmult c) a) = c * Rsum a.
Proof. induction a as [|x a IH]; simpl; [lra|]. rewrite IH. lra. Qed.

Lemma Forall_abs_nonneg (d : list R) : Forall (fun x => 0 <= x) (np_abs d).
Proof.
  induction d as [|x d IH]; constructor; [apply Rabs_pos | exact IH].
Qed.

Lemma Forall_square_nonneg (d : list R) : Forall (fun x => 0 <= x) (np_square d).
Proof.
  induction d as [|x d IH]; constructor; [simpl; nra | exact IH].
Qed.

(** Sum of the squared deviations from [m]. *)
Lemma Rsum_deviation (m : R) (d : list R) :
  Rsum (map (fun x => (Rabs x - m) * (Rabs x - m)) d)
  = Rsum (np_square d) - 2 * m * Rsum (np_abs d) + INR (length d) * (m * m).
Proof.
  induction d as [|x d IH].
  - simpl. lra.
  - change (length (x :: d)) with (S (length d)). rewrite S_INR.
    cbn [map Rsum np_square np_abs]. fold (np_square d) (np_abs d).
    rewrite IH. cbn [a_mul a_abs R_arith].
    assert (Rabs x * Rabs x = x * x) as Hx.
    { unfold Rabs. destruct (Rcase_abs x); lra. }
    lra.
Qed.

Lemma Rsum_squares_nonneg (f : R -> R) (d : list R) :
  0 <= Rsum (map (fun x => f x * f x) d).
Proof.
  induction d as [|x d IH]; simpl; [lra|]. nra.
Qed.

Lemma Rsum_squares_zero (f : R -> R) (d : list R) :
  Rsum (map (fun x => f x * f x) d) = 0 -> Forall (fun x => f x = 0) d.
Proof.
  induction d as [|x d IH]; simpl; intros Hs; constructor.
  - pose proof (Rsum_squares_nonneg f d). nra.
  - apply IH. pose proof (Rsum_squares_nonneg f d). nra.
Qed.

Lemma compute_mae_nonneg (d : list R) : d <> [] -> 0 <= compute_mae d.
Proof.
  intros Hd. unfold compute_mae. rewrite np_mean_R.
  apply Rmult_le_pos.
  - apply Rsum_nonneg, Forall_abs_nonneg.
  - left. apply Rinv_0_lt_compat. unfold np_abs. rewrite length_map.
    now apply INR_length_pos.
Qed.

(** Mean of squares minus squared mean is the mean squared deviation. *)
Lemma variance_identity (d : list R) :
  d <> [] ->
  np_mean (np_square d) - compute_mae d * compute_mae d
  = Rsum (map (fun x => (Rabs x - compute_mae d) * (Rabs x - compute_mae d)) d)
    / INR (length d).
Proof.
  intros Hd. pose proof (INR_length_pos d Hd) as Hn.
  rewrite Rsum_deviation.
  unfold compute_mae. rewrite !np_mean_R.
  unfold np_abs, np_square. rewrite !length_map.
  fold (np_abs d) (np_square d).
  field. lra.
Qed.

Lemma np_mean_nonneg (a : list R) :
  Forall (fun x => 0 <= x) a -> 0 <= np_mean a.
Proof.
  intros Ha. rewrite np_mean_R. destruct a as [|x a].
  - simpl. lra.
  - apply Rmult_le_pos; [now apply Rsum_nonneg|].
    left. apply Rinv_0_lt_compat, INR_length_pos. discriminate.
Qed.

Lemma Rsum_constant_abs (a : R) (d : list R) :
  Forall (fun x => Rabs x = a) d ->
  Rsum (np_abs d) = INR (length d) * a /\
  Rsum (np_square d) = INR (length d) * (a * a).
Proof.
  induction 1 as [|x d Hx Hd [IH1 IH2]].
  - simpl. lra.
  - change (length (x :: d)) with (S (length d)). rewrite S_INR.
    cbn [np_abs np_square map Rsum]. fold (np_abs d) (np_square d).
    rewrite IH1, IH2. cbn [a_mul a_abs R_arith]. rewrite Hx.
    assert (Rabs x * Rabs x = x * x) as Hsq.
    { unfold Rabs. destruct (Rcase_abs x); lra. }
    rewrite Hx in Hsq. lra.
Qed.

(** C8, in exact arithmetic: the root mean square is at least the mean
    absolute value, which is not negative, and the two agree exactly when
    all the absolute values are equal. *)
Theorem compute_rmse_ge_mae_exact (d : list R) :
  d <> [] ->
  0 <= compute_mae d <= compute_rmse d /\
  (compute_rmse d = compute_mae d <->
   forall x y, x ∈ d -> y ∈ d -> Rabs x = Rabs y).
Proof.
  intros Hd.
  pose proof (INR_length_pos d Hd) as Hn.
  pose proof (compute_mae_nonneg d Hd) as Hm.
  pose proof (variance_identity d Hd) as Hv.
  pose proof (Rsum_squares_nonneg (fun x => Rabs x - compute_mae d) d) as Hs.
  pose proof (np_mean_nonneg _ (Forall_square_nonneg d)) as Hq.
  set (m := compute_mae d) in *. set (q := np_mean (np_square d)) in *.
  set (s := Rsum (map (fun x => (Rabs x - m) * (Rabs x - m)) d)) in *.
  assert (0 <= s / INR (length d)) as Hdiv.
  { apply Rmult_le_pos; [exact Hs|]. left. now apply Rinv_0_lt_compat. }
  assert (compute_rmse d = R_sqrt.sqrt q) as Hr by reflexivity.
  assert (R_sqrt.sqrt (m * m) = m) as Hsm by now apply sqrt_square.
  repeat split.
  - exact Hm.
  - rewrite Hr, <- Hsm. apply sqrt_le_1_alt. lra.
  - intros Heq x y Hx Hy.
    assert (q = m * m) as Hqm.
    { rewrite <- (sqrt_sqrt q Hq). rewrite <- Hr, Heq. reflexivity. }
    assert (s = 0) as Hs0.
    { assert (s / INR (length d) = 0) as Hz by lra.
      apply Rmult_integral in Hz as [Hz|Hz]; [exact Hz|].
      pose proof (Rinv_0_lt_compat _ Hn). lra. }
    apply Rsum_squares_zero in Hs0.
    rewrite Forall_forall in Hs0.
    pose proof (Hs0 x Hx). pose proof (Hs0 y Hy). simpl in *. lra.
  - intros Hall.
    destruct d as [|x0 d0]; [congruence|].
    assert (Forall (fun x => Rabs x = Rabs x0) (x0 :: d0)) as Hc.
    { apply Forall_forall. intros x Hx. apply Hall; [exact Hx|left]. }
    destruct (Rsum_constant_abs _ _ Hc) as [H1 H2].
    assert (m = Rabs x0) as Hm0.
    { subst m. unfold compute_mae. rewrite np_mean_R, H1.
      unfold np_abs. rewrite length_map. field. lra. }
    assert (q = Rabs x0 * Rabs x0) as Hq0.
    { subst q. rewrite np_mean_R, H2.
      unfold np_square. rewrite length_map. field. lra. }
    rewrite Hr, Hq0, Hm0. apply sqrt_square, Rabs_pos.
Qed.

Lemma np_abs_scale (c : R) (a : list R) :
  np_abs (np_scale c a) = map (Rmult (Rabs c)) (np_abs a).
Proof.
  unfold np_abs, np_scale. rewrite !map_map. apply map_ext.
  intros x. simpl. apply Rabs_mult.
Qed.

Lemma np_square_scale (c : R) (a : list R) :
  np_square (np_scale c a) = map (Rmult (c * c)) (np_square a).
Proof.
  unfold np_square, np_scale. rewrite !map_map. apply map_ext.
  intros x. simpl. ring.
Qed.

Lemma np_mean_scale (c : R) (a : list R) :
  np_mean (map (Rmult c) a) = c * np_mean a.
Proof.
  rewrite !np_mean_R, Rsum_scale, length_map. unfold Rdiv. ring.
Qed.

Lemma mean_abs_scale (c : R) (a : list R) :
  np_mean (np_abs (np_scale c a)) = Rabs c * np_mean (np_abs a).
Proof. rewrite np_abs_scale. apply np_mean_scale. Qed.

Lemma rms_scale (c : R) (a : list R) :
  R_sqrt.sqrt (np_mean (np_square (np_scale c a)))
  = Rabs c * R_sqrt.sqrt (np_mean (np_square a)).
Proof.
  rewrite np_square_scale, np_mean_scale.
  rewrite sqrt_mult.
  - f_equal. apply sqrt_Rsqr_abs.
  - nra.
  - apply np_mean_nonneg, Forall_square_nonneg.
Qed.

Lemma eps_pos : 0 < a_eps.
Proof. simpl. lra. Qed.

(** The relative change of [m / (t + eps) * 100] when [m] and [t] are
    both multiplied by [k]. *)
Lemma guarded_ratio_scale (k m t : R) :
  0 <= k -> 0 <= t ->
  k * m / (k * t + a_eps) * INR 100
  = m / (t + a_eps) * INR 100 * (k * (t + a_eps) / (k * t + a_eps)).
Proof.
  intros Hk Ht. pose proof eps_pos as He.
  assert (0 <= k * t) by nra.
  field. split; lra.
Qed.

(** C9, as the code has it: scaling [delta] and [target_val] by [c]
    multiplies each relative metric by [|c| (T + eps) / (|c| T + eps)],
    where [T] is the norm of [target_val] the metric divides by and [eps]
    is the guard [1e-9]. *)
Theorem compute_rel_scale_exact (c : R) (delta target_val : list R) :
  compute_rel_mae (np_scale c delta) (np_scale c target_val)
  = compute_rel_mae delta target_val
    * (Rabs c * (np_mean (np_abs target_val) + a_eps)
       / (Rabs c * np_mean (np_abs target_val) + a_eps))
  /\
  compute_rel_rmse (np_scale c delta) (np_scale c target_val)
  = compute_rel_rmse delta target_val
    * (Rabs c * (R_sqrt.sqrt (np_mean (np_square target_val)) + a_eps)
       / (Rabs c * R_sqrt.sqrt (np_mean (np_square target_val)) + a_eps)).
Proof.
  split.
  - unfold compute_rel_mae. cbn zeta. rewrite !mean_abs_scale.
    apply guarded_ratio_scale; [apply Rabs_pos|].
    apply np_mean_nonneg, Forall_abs_nonneg.
  - unfold compute_rel_rmse. cbn zeta. rewrite !rms_scale.
    apply guarded_ratio_scale; [apply Rabs_pos|]. apply sqrt_pos.
Qed.

(** C9 as stated fails: with a zero target, doubling both arrays doubles
    both relative metrics, from [10^11] to [2 * 10^11]. *)
Lemma compute_rel_not_scale_invariant :
  compute_rel_mae (np_scale 2 [1]) (np_scale 2 [0])
    - compute_rel_mae [1] [0] = 10 ^ 11 /\
  compute_rel_rmse (np_scale 2 [1]) (np_scale 2 [0])
    - compute_rel_rmse [1] [0] = 10 ^ 11.
Proof.
  unfold compute_rel_mae, compute_rel_rmse, np_mean, np_sum, np_abs,
    np_square, np_scale.
  cbn [map fold_left length a_add a_mul a_div a_abs a_sqrt a_zero a_eps
       a_of_nat R_arith].
  replace (2 * 0) with 0 by ring.
  replace (2 * 1) with 2 by ring.
  replace (0 + 0 * 0) with 0 by ring.
  replace (0 + 1 * 1) with 1 by ring.
  replace (0 + 2 * 2) with (2 * 2) by ring.
  rewrite Rabs_R0, Rabs_R1, (Rabs_pos_eq 2) by lra.
  replace (INR 1) with 1 by reflexivity.
  replace (0 / 1) with 0 by field.
  replace (1 / 1) with 1 by field.
  replace (2 * 2 / 1) with (2 * 2) by field.
  rewrite sqrt_0, sqrt_1, sqrt_square by lra.
  replace (INR 100) with 100 by (simpl; lra).
  split; field.
Qed.

Lemma Rsum_indicator (eta : R) (delta : list R) :
  Rsum (map (fun x => of_bool (a_ltb (a_abs x) eta)) delta)
  = INR (count_below eta delta).
Proof.
  unfold count_below. induction delta as [|x d IH]; [reflexivity|].
  cbn [map Rsum]. rewrite IH, filter_cons.
  cbn [a_ltb a_abs R_arith].
  destruct (Rlt_dec (Rabs x) eta) as [Hlt|Hge]; case_decide; try contradiction.
  - cbn [length]. rewrite S_INR. unfold of_bool. cbn [a_one R_arith]. lra.
  - unfold of_bool. cbn [a_zero R_arith]. lra.
Qed.

(** C10: [compute_c] is the number of entries with [|delta_i| < eta]
    over the number of entries, a value of [[0, 1]]; an entry with
    [|delta_i| = eta] adds nothing to the count. *)
Theorem compute_c_fraction (delta : list R) (eta : R) :
  delta <> [] ->
  compute_c delta eta = INR (count_below eta delta) / INR (length delta) /\
  0 <= compute_c delta eta <= 1 /\
  (forall x, Rabs x = eta ->
     count_below eta (x :: delta) = count_below eta delta).
Proof.
  intros Hd. pose proof (INR_length_pos delta Hd) as Hn.
  assert (compute_c delta eta
          = INR (count_below eta delta) / INR (length delta)) as Hc.
  { unfold compute_c. rewrite np_mean_R, Rsum_indicator, length_map.
    reflexivity. }
  split; [exact Hc|]. split.
  - rewrite Hc.
    assert (0 <= INR (count_below eta delta)) by apply pos_INR.
    assert (INR (count_below eta delta) <= INR (length delta)).
    { apply le_INR. unfold count_below. apply length_filter. }
    pose proof (Rinv_0_lt_compat _ Hn) as Hi.
    split.
    + apply Rmult_le_pos; lra.
    + apply Rmult_le_reg_r with (INR (length delta)); [exact Hn|].
      unfold Rdiv. rewrite Rmult_assoc, Rinv_l by lra. lra.
  - intros x Hx. unfold count_below. rewrite filter_cons.
    case_decide; [lra|reflexivity].
Qed.

Lemma compute_c_fraction_witness :
  [1; 2; 3] <> [] /\
  compute_c [1; 2; 3] 2 = INR (count_below 2 [1; 2; 3]) / INR 3.
Proof.
  split; [discriminate|].
  exact (proj1 (compute_c_fraction [1; 2; 3] 2 ltac:(discriminate))).
Defined.

Lemma compute_rmse_ge_mae_exact_witness :
  [3; -3] <> [] /\ 0 <= compute_mae [3; -3] <= compute_rmse [3; -3].
Proof.
  split; [discriminate|].
  exact (proj1 (compute_rmse_ge_mae_exact [3; -3] ltac:(discriminate))).
Defined.
End StatisticsReal.

(** ** Statistics helpers, in binary64 *)

Section StatisticsFloat.
Open Scope float_scope.

(** C8 as stated fails in the arithmetic the code runs in. The square of
    [1e-200] underflows to zero, so the root mean square of the one-entry
    array is [0], below its mean absolute value; and the arrays [1, 1 +
    2^-52] have equal rounded metrics though their absolute values
    differ. *)
Lemma compute_rmse_lt_mae_binary64 :
  PrimFloat.leb (compute_mae [0x1.87e92154ef7acp-665])
                (compute_rmse [0x1.87e92154ef7acp-665]) = false /\
  PrimFloat.eqb (compute_rmse [1; 0x1.0000000000001p0])
                (compute_mae [1; 0x1.0000000000001p0]) = true /\
  PrimFloat.eqb (PrimFloat.abs 1) (PrimFloat.abs 0x1.0000000000001p0) = false.
Proof. vm_compute. repeat split. Qed.

(** The factor of C9 is a fact of exact arithmetic. In binary64, scaling
    [delta = target_val = [1]] by [1e-200] makes the squares underflow:
    the relative root mean square error of the scaled arrays is [0], that
    of the arrays themselves is near [100]. *)
Example compute_rel_rmse_underflow_binary64 :
  PrimFloat.eqb
    (compute_rel_rmse (np_scale 0x1.87e92154ef7acp-665 [1])
       (np_scale 0x1.87e92154ef7acp-665 [1])) 0 = true /\
  PrimFloat.ltb 99 (compute_rel_rmse [1] [1]) = true.
Proof. vm_compute. repeat split. Qed.
End StatisticsFloat.

(** ** AtomicNumberTable *)

Section Table.
Implicit Types (l : list Z) (t : AtomicNumberTable).

Lemma list_getitem_nat {A} (l : list A) (i : nat) :
  list_getitem l (Z.of_nat i)
  = match l !! i with Some x => Ret x | None => Raise IndexError end.
Proof.
  unfold list_getitem. cbn zeta.
  destruct (Z.ltb_spec (Z.of_nat i) 0) as [?|_]; [lia|].
  rewrite Nat2Z.id.
  destruct (Z.leb_spec 0 (Z.of_nat i)); [|lia]. cbn [andb].
  destruct (Z.ltb_spec (Z.of_nat i) (Z.of_nat (length l))) as [Hlt|Hge].
  - reflexivity.
  - rewrite lookup_ge_None_2 by lia. reflexivity.
Qed.

Lemma list_index_None x l : list_index x l = None <-> x ∉ l.
Proof.
  induction l as [|y l IH]; simpl.
  - split; [intros _; apply not_elem_of_nil | reflexivity].
  - rewrite not_elem_of_cons. case_decide as Hy.
    + split; [discriminate | intros [Hne _]; congruence].
    + rewrite fmap_None, IH. split; [intros ?; split; congruence | tauto].
Qed.

Lemma list_index_Some x l i :
  list_index x l = Some i ->
  l !! i = Some x /\ forall j y, j < i -> l !! j = Some y -> y <> x.
Proof.
  revert i; induction l as [|y l IH]; intros i; simpl; [discriminate|].
  case_decide as Hy.
  - intros [= <-]. split; [subst; reflexivity | intros; lia].
  - rewrite fmap_Some. intros (i' & Hi' & ->).
    destruct (IH _ Hi') as [Hl Hfirst]. split; [exact Hl|].
    intros [|j] z Hj; simpl.
    + intros [= <-]. exact Hy.
    + apply Hfirst. lia.
Qed.

Lemma list_index_elem_of x l : x ∈ l -> exists i, list_index x l = Some i.
Proof.
  intros Hx. destruct (list_index x l) as [i|] eqn:E; [eauto|].
  apply list_index_None in E. contradiction.
Qed.

Lemma list_index_NoDup x l i :
  NoDup l -> l !! i = Some x -> list_index x l = Some i.
Proof.
  intros Hnd Hi.
  destruct (list_index_elem_of x l) as [j Hj].
  { eapply list_elem_of_lookup_2; eauto. }
  apply list_index_Some in Hj as Hj'. destruct Hj' as [Hlj _].
  rewrite Hj. f_equal. eapply NoDup_lookup; eauto.
Qed.

(** The lookup of a number of the table gives a position that holds it. *)
Lemma z_to_index_elem_of t z :
  z ∈ zs t ->
  exists i, z_to_index t z = Ret i /\ index_to_z t (Z.of_nat i) = Ret z.
Proof.
  intros Hz. destruct (list_index_elem_of _ _ Hz) as [i Hi].
  exists i. unfold z_to_index, index_to_z. rewrite Hi.
  split; [reflexivity|]. rewrite list_getitem_nat.
  apply list_index_Some in Hi as [-> _]. reflexivity.
Qed.

Lemma index_roundtrip_NoDup t :
  NoDup (zs t) ->
  forall i : nat, i < length (zs t) ->
    exists z, index_to_z t (Z.of_nat i) = Ret z /\ z_to_index t z = Ret i.
Proof.
  intros Hnd i Hi. destruct (lookup_lt_is_Some_2 _ _ Hi) as [z Hz].
  exists z. unfold index_to_z, z_to_index.
  rewrite list_getitem_nat, Hz, (list_index_NoDup _ _ _ Hnd Hz). done.
Qed.

Lemma index_roundtrip_inv t :
  (forall i : nat, i < length (zs t) ->
     exists z, index_to_z t (Z.of_nat i) = Ret z /\ z_to_index t z = Ret i) ->
  NoDup (zs t).
Proof.
  intros Hrt. apply NoDup_alt. intros i j x Hi Hj.
  destruct (Hrt i (lookup_lt_Some _ _ _ Hi)) as (z & Hz & Hzi).
  destruct (Hrt j (lookup_lt_Some _ _ _ Hj)) as (z' & Hz' & Hzj).
  unfold index_to_z in *. rewrite list_getitem_nat in Hz, Hz'.
  rewrite Hi in Hz. rewrite Hj in Hz'.
  injection Hz as <-. injection Hz' as <-. congruence.
Qed.

Lemma z_set_elements l :
  forall z, z ∈ elements (fold_left (fun (s : gset Z) z => s ∪ {[ z ]}) l ∅)
            <-> z ∈ l.
Proof.
  intros z. rewrite elem_of_elements.
  assert (forall (s : gset Z),
    z ∈ fold_left (fun (s : gset Z) z => s ∪ {[ z ]}) l s <-> z ∈ s \/ z ∈ l)
    as Hgen.
  { induction l as [|y l IH]; intros s; simpl.
    - rewrite elem_of_nil. tauto.
    - rewrite IH, elem_of_union, elem_of_singleton, elem_of_cons. tauto. }
  rewrite Hgen, elem_of_empty. tauto.
Qed.

Lemma StronglySorted_le_NoDup_lt l :
  StronglySorted Z.le l -> NoDup l -> StronglySorted Z.lt l.
Proof.
  induction 1 as [|x l Hs IH Hall]; intros Hnd; constructor.
  - apply IH. now apply NoDup_cons in Hnd as [_ ?].
  - apply NoDup_cons in Hnd as [Hx _].
    rewrite Forall_forall in Hall |- *. intros y Hy.
    pose proof (Hall y Hy). assert (x <> y) by (intros ->; contradiction).
    lia.
Qed.

Lemma StronglySorted_lt_NoDup l : StronglySorted Z.lt l -> NoDup l.
Proof.
  induction 1 as [|x l Hs IH Hall]; constructor; [|exact IH].
  intros Hx. rewrite Forall_forall in Hall. pose proof (Hall x Hx). lia.
Qed.

Lemma from_zs_sorted l :
  StronglySorted Z.lt (zs (get_atomic_number_table_from_zs l)).
Proof.
  unfold get_atomic_number_table_from_zs, sorted. simpl.
  apply StronglySorted_le_NoDup_lt.
  - apply StronglySorted_merge_sort; apply _.
  - rewrite merge_sort_Permutation. apply NoDup_elements.
Qed.

Lemma from_zs_elem_of l z :
  z ∈ zs (get_atomic_number_table_from_zs l) <-> z ∈ l.
Proof.
  unfold get_atomic_number_table_from_zs, sorted. simpl.
  rewrite merge_sort_Permutation. apply z_set_elements.
Qed.

(** C7: the table built from any collection of integers is strictly
    ascending, holds exactly the numbers of the collection, and looking a
    number of the table up and indexing with the result gives the number
    back. *)
Theorem get_atomic_number_table_from_zs_spec (l : list Z) :
  StronglySorted Z.lt (zs (get_atomic_number_table_from_zs l)) /\
  NoDup (zs (get_atomic_number_table_from_zs l)) /\
  (forall z, z ∈ zs (get_atomic_number_table_from_zs l) <-> z ∈ l) /\
  (forall z, z ∈ zs (get_atomic_number_table_from_zs l) ->
     exists i, z_to_index (get_atomic_number_table_from_zs l) z = Ret i /\
               index_to_z (get_atomic_number_table_from_zs l) (Z.of_nat i)
               = Ret z).
Proof.
  split; [apply from_zs_sorted|].
  split; [apply StronglySorted_lt_NoDup, from_zs_sorted|].
  split; [apply from_zs_elem_of|].
  intros z. apply z_to_index_elem_of.
Qed.

(** C6, as the code has it: a table from [get_atomic_number_table_from_zs]
    satisfies the invariant; the constructor keeps its argument as it is,
    and its table satisfies the invariant exactly when the argument is in
    ascending order and free of duplicates. *)
Theorem table_invariant_constructed :
  (forall l, table_invariant (get_atomic_number_table_from_zs l)) /\
  (forall l, table_invariant (AtomicNumberTable_init l)
             <-> Sorted Z.le l /\ NoDup l).
Proof.
  split.
  - intros l. pose proof (from_zs_sorted l) as Hs.
    split; [|split].
    + unfold get_atomic_number_table_from_zs, sorted. simpl.
      apply Sorted_merge_sort. apply _.
    + apply index_roundtrip_NoDup, StronglySorted_lt_NoDup, Hs.
    + intros z. apply z_to_index_elem_of.
  - intros l. split.
    + intros (Hs & Hrt & _). split; [exact Hs|].
      apply (index_roundtrip_inv (AtomicNumberTable_init l) Hrt).
    + intros [Hs Hnd]. split; [exact Hs|]. split.
      * now apply index_roundtrip_NoDup.
      * intros z. apply z_to_index_elem_of.
Qed.

(** C6 as stated fails: the constructor accepts [3, 1, 1], which is not
    ascending, and whose position 2 holds the number 1, found at
    position 1. *)
Lemma table_invariant_not_enforced :
  ~ table_invariant (AtomicNumberTable_init [3; 1; 1]%Z) /\
  ~ Sorted Z.le (zs (AtomicNumberTable_init [3; 1; 1]%Z)) /\
  index_to_z (AtomicNumberTable_init [3; 1; 1]%Z) 2 = Ret 1%Z /\
  z_to_index (AtomicNumberTable_init [3; 1; 1]%Z) 1 = Ret 1.
Proof.
  assert (~ Sorted Z.le [3; 1; 1]%Z) as Hns.
  { intros Hs. inversion Hs as [|? ? _ Hhd]; subst.
    inversion Hhd; subst. lia. }
  split; [intros [Hs _]; exact (Hns Hs)|].
  split; [exact Hns|]. split; reflexivity.
Qed.

(** The lookup raises exactly on a number that is not in the table. *)
Lemma z_to_index_raises t z :
  (z_to_index t z = Raise ValueError <-> z ∉ zs t) /\
  (forall e, z_to_index t z = Raise e -> e = ValueError).
Proof.
  unfold z_to_index. destruct (list_index z (zs t)) as [i|] eqn:E.
  - split; [|discriminate]. split; [discriminate|].
    intros Hn. apply list_index_None in Hn. congruence.
  - split; [|congruence]. split; [|reflexivity].
    intros _. now apply list_index_None.
Qed.
End Table.

(** ** Reasoning about statements *)

Section Statements.
Context {num : Type} `{Arith num}.

Lemma store_lookup_insert (s : store num) (l : loc) (m : Model num) :
  (<[l := m]> s) l = m.
Proof. apply fn_lookup_insert. Qed.

Lemma store_lookup_insert_ne (s : store num) (l l' : loc) (m : Model num) :
  l <> l' -> (<[l := m]> s) l' = s l'.
Proof. apply fn_lookup_insert_ne. Qed.

Lemma outcome_bind_Ret {X Y} (r : outcome X) (k : X -> outcome Y) (y : Y) :
  (r ≫= k) = Ret y <-> exists x, r = Ret x /\ k x = Ret y.
Proof.
  destruct r as [x|e]; simpl.
  - split; [eauto | intros (x' & [= <-] & Hk); exact Hk].
  - split; [discriminate | intros (x & Hx & _); discriminate].
Qed.

Lemma bind_ok {X Y} (c : M num X) (k : X -> M num Y) s y s'' :
  (c ≫= k) s = (Ret y, s'') <->
  exists x s', c s = (Ret x, s') /\ k x s' = (Ret y, s'').
Proof.
  unfold mbind, M_bind. destruct (c s) as [[x|e] s'].
  - split; [eauto | intros (x' & s1 & [= <- <-] & Hk); exact Hk].
  - split; [discriminate | intros (x & s1 & Hx & _); discriminate].
Qed.

Lemma ret_ok {X} (x y : X) (s s' : store num) :
  mret (M := M num) x s = (Ret y, s') <-> y = x /\ s' = s.
Proof. unfold mret, M_ret. split; [intros [= -> ->] | intros [-> ->]]; done. Qed.

Lemma lift_ok {X} (r : outcome X) (x : X) (s s' : store num) :
  lift r s = (Ret x, s') <-> r = Ret x /\ s' = s.
Proof. unfold lift. split; [intros [= -> ->] | intros [-> ->]]; done. Qed.

Lemma read_ok (l : loc) (m : Model num) (s s' : store num) :
  read l s = (Ret m, s') <-> m = s l /\ s' = s.
Proof. unfold read. split; [intros [= <- <-] | intros [-> ->]]; done. Qed.

Lemma raise_ok {X} (e : exn) (x : X) (s s' : store num) :
  raise e s = (Ret x, s') <-> False.
Proof. unfold raise. split; [discriminate | tauto]. Qed.

Lemma assign_ok (l : loc) (upd : Model num -> outcome (Model num))
    (s s' : store num) u :
  assign l upd s = (Ret u, s') <->
  exists m', upd (s l) = Ret m' /\ s' = <[l := m']> s.
Proof.
  unfold assign. rewrite bind_ok. split.
  - intros (m & s1 & [-> ->]%read_ok & Hk).
    apply bind_ok in Hk as (m' & s2 & [Hu ->]%lift_ok & Hw).
    unfold write in Hw. injection Hw as _ <-. eauto.
  - intros (m' & Hu & ->). exists (s l), s. split; [done|].
    apply bind_ok. exists m', s. split; [by apply lift_ok|].
    unfold write. by destruct u.
Qed.

Lemma for_each_cons {X} (body : X -> M num unit) x xs :
  for_each body (x :: xs) = (body x ≫= fun _ => for_each body xs).
Proof. reflexivity. Qed.

Lemma for_each_app_ok {X} (body : X -> M num unit) xs ys s s'' :
  for_each body (xs ++ ys) s = (Ret tt, s'') <->
  exists s', for_each body xs s = (Ret tt, s') /\
             for_each body ys s' = (Ret tt, s'').
Proof.
  revert s; induction xs as [|x xs IH]; intros s.
  - simpl. split.
    + intros Hy. exists s. split; [by apply ret_ok | done].
    + intros (s' & [_ ->]%ret_ok & Hy). done.
  - rewrite <- app_comm_cons, !for_each_cons, bind_ok. split.
    + intros (u & s1 & Hx & (s2 & Hxs & Hys)%IH).
      exists s2. split; [|done]. apply bind_ok. eauto.
    + intros (s2 & (u & s1 & Hx & Hxs)%bind_ok & Hys).
      exists u, s1. split; [done|]. apply IH. eauto.
Qed.

(** A successful loop ran its body at every index, in order. *)
Lemma for_range_split (n i : nat) (body : nat -> M num unit) s s' :
  i < n ->
  for_range n body s = (Ret tt, s') ->
  exists sa sb,
    for_range i body s = (Ret tt, sa) /\
    body i sa = (Ret tt, sb) /\
    for_each body (seq (S i) (n - S i)) sb = (Ret tt, s').
Proof.
  intros Hi. unfold for_range.
  replace n with (i + S (n - S i)) at 1 by lia.
  rewrite seq_app, for_each_app_ok. intros (sa & Ha & Hb).
  simpl in Hb. apply bind_ok in Hb as ([] & sb & Hb & Hrest).
  eauto.
Qed.

(** *** Statements that keep a relation between the stores *)

Section Stable.
Context (R : relation (store num)) `{!PreOrder R}.

Lemma stable_ret {X} (x : X) : stable R (mret x).
Proof. intros s. simpl. reflexivity. Qed.

Lemma stable_raise {X} (e : exn) : stable R (raise (X := X) e).
Proof. intros s. simpl. reflexivity. Qed.

Lemma stable_lift {X} (r : outcome X) : stable R (lift r).
Proof. intros s. simpl. reflexivity. Qed.

Lemma stable_read (l : loc) : stable R (read l).
Proof. intros s. simpl. reflexivity. Qed.

Lemma stable_bind {X Y} (c : M num X) (k : X -> M num Y) :
  stable R c -> (forall x, stable R (k x)) -> stable R (c ≫= k).
Proof.
  intros Hc Hk s. specialize (Hc s). unfold mbind, M_bind.
  destruct (c s) as [[x|e] s1]; simpl in *.
  - etransitivity; [exact Hc | apply Hk].
  - exact Hc.
Qed.

Lemma stable_assign (l : loc) (upd : Model num -> outcome (Model num)) :
  (forall s m', upd (s l) = Ret m' -> R s (<[l := m']> s)) ->
  stable R (assign l upd).
Proof.
  intros Hu s. unfold assign, read, lift, write, mbind, M_bind.
  destruct (upd (s l)) as [m'|e] eqn:E; simpl.
  - by apply Hu.
  - reflexivity.
Qed.

Lemma stable_for_each {X} (body : X -> M num unit) (xs : list X) :
  (forall x, stable R (body x)) -> stable R (for_each body xs).
Proof.
  intros Hb. induction xs as [|x xs IH]; simpl.
  - apply stable_ret.
  - apply stable_bind; [apply Hb | intros _; exact IH].
Qed.

Lemma stable_for_each_in {X} (body : X -> M num unit) (xs : list X) :
  (forall x, x ∈ xs -> stable R (body x)) -> stable R (for_each body xs).
Proof.
  induction xs as [|x xs IH]; intros Hb; simpl.
  - apply stable_ret.
  - apply stable_bind; [apply Hb; left | intros _].
    apply IH. intros y Hy. apply Hb. by right.
Qed.

Lemma stable_for_range (n : nat) (body : nat -> M num unit) :
  (forall i, stable R (body i)) -> stable R (for_range n body).
Proof. apply stable_for_each. Qed.

Lemma stable_run {X} (c : M num X) s r s' :
  stable R c -> c s = (r, s') -> R s s'.
Proof. intros Hc Hs. specialize (Hc s). by rewrite Hs in Hc. Qed.

(** The iterations of a loop before and after iteration [i]. *)
Lemma stable_before (i : nat) (body : nat -> M num unit) s r s' :
  (forall j, j <> i -> stable R (body j)) ->
  for_range i body s = (r, s') -> R s s'.
Proof.
  intros Hb. apply stable_run, stable_for_each_in.
  intros j Hj%elem_of_seq. apply Hb. lia.
Qed.

Lemma stable_after (i n : nat) (body : nat -> M num unit) s r s' :
  (forall j, j <> i -> stable R (body j)) ->
  for_each body (seq (S i) n) s = (r, s') -> R s s'.
Proof.
  intros Hb. apply stable_run, stable_for_each_in.
  intros j Hj%elem_of_seq. apply Hb. lia.
Qed.
End Stable.

Lemma frame_rel_preorder l : PreOrder (frame_rel (num := num) l).
Proof.
  split.
  - intros s l' _. reflexivity.
  - intros s1 s2 s3 H12 H23 l' Hl. rewrite H23, H12; done.
Qed.

Lemma obs_rel_preorder {Y} l (obs : Model num -> Y) :
  PreOrder (obs_rel l obs).
Proof.
  split.
  - intros s. reflexivity.
  - intros s1 s2 s3 H12 H23. unfold obs_rel in *. congruence.
Qed.

#[local] Existing Instance frame_rel_preorder.
#[local] Existing Instance obs_rel_preorder.

Lemma stable_frame_assign (l : loc)
    (upd : Model num -> outcome (Model num)) :
  stable (frame_rel l) (assign l upd).
Proof.
  apply stable_assign; [apply _|]. intros s m' _ l' Hl.
  rewrite store_lookup_insert_ne; done.
Qed.

Lemma stable_obs_assign {Y} (l : loc) (obs : Model num -> Y) upd :
  (forall m m', upd m = Ret m' -> obs m' = obs m) ->
  stable (obs_rel l obs) (assign l upd).
Proof.
  intros Hu. apply stable_assign; [apply _|]. intros s m' Hm.
  unfold obs_rel. rewrite store_lookup_insert. by apply Hu.
Qed.
End Statements.

#[export] Existing Instance frame_rel_preorder.
#[export] Existing Instance obs_rel_preorder.

(** Decomposes a goal [stable R c] along the structure of [c]; what is
    left are the goals about the assignments of [c]. *)
Ltac stable_structure :=
  repeat match goal with
    | |- PreOrder _ => apply _
    | |- stable _ (mret _) => apply stable_ret
    | |- stable _ (raise _) => apply stable_raise
    | |- stable _ (lift _) => apply stable_lift
    | |- stable _ (read _) => apply stable_read
    | |- stable _ (mbind _ _) => apply stable_bind; [.. | intros ?]
    | |- stable _ (for_range _ _) => apply stable_for_range; [.. | intros ?]
    | |- stable _ (if ?b then _ else _) => destruct b
    | |- stable _ (match ?x with _ => _ end) => destruct x
    end.


(** ** The blocks of [load_foundations] *)

Section Blocks.
Context {num : Type} `{Arith num}.
Variables model model_foundations : loc.

Lemma at_index_inv {B} i (f : B -> outcome B) (l l' : list B) :
  at_index i f l = Ret l' ->
  exists x x', l !! i = Some x /\ f x = Ret x' /\ l' = <[i := x']> l.
Proof.
  unfold at_index. destruct (l !! i) as [x|]; [|discriminate].
  intros (x' & Hf & [= <-])%outcome_bind_Ret. eauto.
Qed.

Lemma at_interaction_inv i g (m m' : Model num) :
  at_interaction i g m = Ret m' ->
  exists b b', interactions m !! i = Some b /\ g b = Ret b' /\
               m' = set_interactions (<[i := b']> (interactions m)) m.
Proof.
  unfold at_interaction.
  intros (l & (b & b' & Hb & Hg & ->)%at_index_inv & [= <-])%outcome_bind_Ret.
  eauto.
Qed.

Lemma at_product_inv i g (m m' : Model num) :
  at_product i g m = Ret m' ->
  exists p p', products m !! i = Some p /\ g p = Ret p' /\
               m' = set_products (<[i := p']> (products m)) m.
Proof.
  unfold at_product.
  intros (l & (b & b' & Hb & Hg & ->)%at_index_inv & [= <-])%outcome_bind_Ret.
  eauto.
Qed.

Lemma at_contraction_inv j g (p p' : ProductBlock num) :
  at_contraction j g p = Ret p' ->
  exists c c', contractions p !! j = Some c /\ g c = Ret c' /\
               p' = set_contractions (<[j := c']> (contractions p)) p.
Proof.
  unfold at_contraction.
  intros (l & (b & b' & Hb & Hg & ->)%at_index_inv & [= <-])%outcome_bind_Ret.
  eauto.
Qed.

Lemma at_readout_inv i g (m m' : Model num) :
  at_readout i g m = Ret m' ->
  exists r r', readouts m !! i = Some r /\ g r = Ret r' /\
               m' = set_readouts (<[i := r']> (readouts m)) m.
Proof.
  unfold at_readout.
  intros (l & (b & b' & Hb & Hg & ->)%at_index_inv & [= <-])%outcome_bind_Ret.
  eauto.
Qed.

Lemma at_scale_shift_inv f (m m' : Model num) :
  at_scale_shift f m = Ret m' ->
  exists ss, scale_shift m = Some ss /\
             m' = set_scale_shift (Some (f ss)) m.
Proof.
  unfold at_scale_shift. destruct (scale_shift m) as [ss|]; [|discriminate].
  intros [= <-]. eauto.
Qed.

(** *** What each block leaves alone *)

Section Observation.
Context {Y : Type} (obs : Model num -> Y).

Lemma stable_transfer_node_embedding nsf idx ns :
  (forall w m, obs (set_node_embedding_weight w m) = obs m) ->
  stable (obs_rel model obs)
    (transfer_node_embedding model model_foundations nsf idx ns).
Proof.
  intros Hobs. unfold transfer_node_embedding. stable_structure.
  apply stable_obs_assign. intros m m' [= <-]. apply Hobs.
Qed.

Lemma stable_transfer_bessel_weights :
  (forall w m, obs (set_bessel_weights w m) = obs m) ->
  stable (obs_rel model obs)
    (transfer_bessel_weights model model_foundations).
Proof.
  intros Hobs. unfold transfer_bessel_weights. stable_structure.
  apply stable_obs_assign. intros m m' [= <-]. apply Hobs.
Qed.

Lemma stable_assign_interaction i g :
  (forall l m, obs (set_interactions l m) = obs m) ->
  stable (obs_rel model obs) (assign model (at_interaction i g)).
Proof.
  intros Hobs. apply stable_obs_assign.
  intros m m' (b & b' & _ & _ & ->)%at_interaction_inv. apply Hobs.
Qed.

Lemma stable_transfer_interaction nsf ncf idx nr ns max_ell i :
  (forall l m, obs (set_interactions l m) = obs m) ->
  stable (obs_rel model obs)
    (transfer_interaction model model_foundations nsf ncf idx nr ns
       max_ell i).
Proof.
  intros Hobs.
  unfold transfer_interaction, transfer_skip_tp, foundation_interaction.
  stable_structure; by apply stable_assign_interaction.
Qed.

Lemma stable_assign_product i g :
  (forall l m, obs (set_products l m) = obs m) ->
  stable (obs_rel model obs) (assign model (at_product i g)).
Proof.
  intros Hobs. apply stable_obs_assign.
  intros m m' (b & b' & _ & _ & ->)%at_product_inv. apply Hobs.
Qed.

Lemma stable_transfer_product idx max_L i :
  (forall l m, obs (set_products l m) = obs m) ->
  stable (obs_rel model obs)
    (transfer_product model model_foundations idx max_L i).
Proof.
  intros Hobs.
  unfold transfer_product, transfer_contraction, foundation_contraction.
  cbv zeta. stable_structure; by apply stable_assign_product.
Qed.

Lemma stable_assign_readout i g :
  (forall l m, obs (set_readouts l m) = obs m) ->
  stable (obs_rel model obs) (assign model (at_readout i g)).
Proof.
  intros Hobs. apply stable_obs_assign.
  intros m m' (b & b' & _ & _ & ->)%at_readout_inv. apply Hobs.
Qed.

Lemma stable_transfer_readouts :
  (forall l m, obs (set_readouts l m) = obs m) ->
  stable (obs_rel model obs) (transfer_readouts model model_foundations).
Proof.
  intros Hobs. unfold transfer_readouts, foundation_readout.
  stable_structure; by apply stable_assign_readout.
Qed.

Lemma stable_assign_scale_shift f :
  (forall o m, obs (set_scale_shift o m) = obs m) ->
  stable (obs_rel model obs) (assign model (at_scale_shift f)).
Proof.
  intros Hobs. apply stable_obs_assign.
  intros m m' (ss & _ & ->)%at_scale_shift_inv. apply Hobs.
Qed.

Lemma stable_transfer_scale_shift use_shift use_scale :
  (forall o m, obs (set_scale_shift o m) = obs m) ->
  stable (obs_rel model obs)
    (transfer_scale_shift model model_foundations use_shift use_scale).
Proof.
  intros Hobs. unfold transfer_scale_shift.
  stable_structure; by apply stable_assign_scale_shift.
Qed.
End Observation.

(** *** The frame *)

Lemma stable_frame_load_foundations table load_readout use_shift use_scale
    max_L :
  stable (frame_rel model)
    (load_foundations model model_foundations table load_readout use_shift
       use_scale max_L).
Proof.
  unfold load_foundations, transfer_node_embedding, transfer_bessel_weights,
    transfer_interaction, transfer_skip_tp, transfer_product,
    transfer_contraction,
    transfer_readouts, transfer_scale_shift, foundation_interaction,
    foundation_contraction, foundation_readout.
  cbv zeta. stable_structure; apply stable_frame_assign.
Qed.

(** *** Running the function *)

Lemma run_read {X} (l : loc) (k : Model num -> M num X) (s : store num) :
  (read l ≫= k) s = k (s l) s.
Proof. reflexivity. Qed.

Lemma run_lift_Ret {X Y} (x : X) (k : X -> M num Y) (s : store num) :
  (lift (Ret x) ≫= k) s = k x s.
Proof. reflexivity. Qed.

Lemma run_lift_Raise {X Y} (e : exn) (k : X -> M num Y) (s : store num) :
  (lift (Raise e) ≫= k) s = (Raise e, s).
Proof. reflexivity. Qed.

Lemma run_ret {X Y} (x : X) (k : X -> M num Y) (s : store num) :
  (mret x ≫= k) s = k x s.
Proof. reflexivity. Qed.

Lemma run_raise {X Y} (e : exn) (k : X -> M num Y) (s : store num) :
  (raise e ≫= k) s = (Raise e, s).
Proof. reflexivity. Qed.

(** A successful call went through every block, in order. *)
Lemma load_foundations_ok table load_readout use_shift use_scale max_L
    (s s' : store num) l :
  load_foundations model model_foundations table load_readout use_shift
    use_scale max_L s = (Ret l, s') ->
  l = model /\
  a_eqb (r_max (s model_foundations)) (r_max (s model)) = true /\
  exists ncf idx s1 s2 s3 s4 s5,
    floordiv (length (node_embedding_weight (s model_foundations)))
             (length (atomic_numbers (s model_foundations))) = Ret ncf /\
    comprehension
      (z_to_index (AtomicNumberTable_init
                     (atomic_numbers (s model_foundations))))
      (zs table) = Ret idx /\
    transfer_node_embedding model model_foundations
      (length (atomic_numbers (s model_foundations))) idx (length idx) s
      = (Ret tt, s1) /\
    transfer_bessel_weights model model_foundations s1 = (Ret tt, s2) /\
    for_range (Z.to_nat (num_interactions (s2 model)))
      (transfer_interaction model model_foundations
         (length (atomic_numbers (s model_foundations))) ncf idx
         (out_dim (radial_embedding (s model))) (length idx)
         (spherical_harmonics_lmax (s model))) s2 = (Ret tt, s3) /\
    for_range 2 (transfer_product model model_foundations idx max_L) s3
      = (Ret tt, s4) /\
    (if load_readout then transfer_readouts model model_foundations
     else mret tt) s4 = (Ret tt, s5) /\
    transfer_scale_shift model model_foundations use_shift use_scale s5
      = (Ret tt, s').
Proof.
  unfold load_foundations. rewrite !run_read. cbv zeta.
  destruct (a_eqb (r_max (s model_foundations)) (r_max (s model))) eqn:Ea;
    [rewrite run_ret | rewrite run_raise; discriminate].
  simpl zs at 1 2.
  intros (ncf & s0 & [Hncf ->]%lift_ok & Hrun)%bind_ok.
  apply bind_ok in Hrun as (idx & s0 & [Hidx ->]%lift_ok & Hrun).
  apply bind_ok in Hrun as ([] & s1 & Hne & Hrun).
  apply bind_ok in Hrun as ([] & s2 & Hbw & Hrun).
  rewrite run_read in Hrun.
  apply bind_ok in Hrun as ([] & s3 & Hint & Hrun).
  apply bind_ok in Hrun as ([] & s4 & Hprod & Hrun).
  apply bind_ok in Hrun as ([] & s5 & Hread & Hrun).
  apply bind_ok in Hrun as ([] & s6 & Hss & [-> ->]%ret_ok).
  split; [done|]. split; [done|].
  exists ncf, idx, s1, s2, s3, s4, s5. done.
Qed.

Lemma comprehension_Ret {X Y} (f : X -> outcome Y) xs ys :
  comprehension f xs = Ret ys <-> Forall2 (fun x y => f x = Ret y) xs ys.
Proof.
  revert ys; induction xs as [|x xs IH]; intros ys; simpl.
  - split; [intros [= <-]; constructor | by inversion 1].
  - rewrite outcome_bind_Ret. split.
    + intros (y & Hy & (ys' & Hys & [= <-])%outcome_bind_Ret).
      constructor; [done | by apply IH].
    + inversion 1 as [|? y ? ys' Hy Hys]; subst.
      exists y. split; [done|]. apply outcome_bind_Ret.
      exists ys'. split; [by apply IH | done].
Qed.

Lemma comprehension_Raise {X Y} (f : X -> outcome Y) xs x e :
  x ∈ xs -> f x = Raise e ->
  (forall x' e', f x' = Raise e' -> e' = e) ->
  comprehension f xs = Raise e.
Proof.
  intros Hx Hfx Hall. induction Hx as [x xs | x y xs Hx IH]; simpl.
  - by rewrite Hfx.
  - destruct (f y) as [y'|e'] eqn:Ey; simpl.
    + by rewrite IH.
    + by rewrite (Hall _ _ Ey).
Qed.

(** Without the element in the foundation table the call raises before
    anything is assigned. *)
Lemma load_foundations_missing table load_readout use_shift use_scale max_L
    (s : store num) z :
  z ∈ zs table -> z ∉ atomic_numbers (s model_foundations) ->
  (exists e,
     load_foundations model model_foundations table load_readout use_shift
       use_scale max_L s = (Raise e, s)) /\
  (a_eqb (r_max (s model_foundations)) (r_max (s model)) = true ->
   atomic_numbers (s model_foundations) <> [] ->
   load_foundations model model_foundations table load_readout use_shift
     use_scale max_L s = (Raise ValueError, s)).
Proof.
  intros Hz Hnz.
  assert (comprehension
            (z_to_index (AtomicNumberTable_init
                           (atomic_numbers (s model_foundations))))
            (zs table) = Raise ValueError) as Hidx.
  { apply comprehension_Raise with z; [done| |].
    - by apply z_to_index_raises.
    - intros x' e'. apply z_to_index_raises. }
  assert (load_foundations model model_foundations table load_readout
            use_shift use_scale max_L s
          = if a_eqb (r_max (s model_foundations)) (r_max (s model))
            then if decide (length (atomic_numbers (s model_foundations)) = 0)
                 then (Raise ZeroDivisionError, s)
                 else (Raise ValueError, s)
            else (Raise AssertionError, s)) as ->.
  { unfold load_foundations. rewrite !run_read. cbv zeta.
    destruct (a_eqb (r_max (s model_foundations)) (r_max (s model)));
      [rewrite run_ret | by rewrite run_raise].
    unfold floordiv. simpl zs. case_decide as Hlen.
    - by rewrite run_lift_Raise.
    - by rewrite run_lift_Ret, Hidx, run_lift_Raise. }
  split.
  - destruct (a_eqb _ _); [case_decide|]; eauto.
  - intros -> Hne. case_decide as Hlen; [|done].
    destruct (atomic_numbers (s model_foundations)); [congruence | discriminate].
Qed.

(** *** The node embedding *)

Lemma index_select_Ret {X} (idx : list nat) (t sel : list X) :
  index_select idx t = Ret sel <->
  Forall2 (fun i b => t !! i = Some b) idx sel.
Proof.
  unfold index_select. rewrite comprehension_Ret.
  split; intros Hf; eapply Forall2_impl; try exact Hf;
    intros i b; simpl; destruct (t !! i); naive_solver.
Qed.

Lemma index_select_fmap_seq {X} (f : nat -> X) n idx sel :
  index_select idx (f <$> seq 0 n) = Ret sel -> sel = f <$> idx.
Proof.
  rewrite index_select_Ret. induction 1 as [|i b idx sel Hi _ IH]; [done|].
  rewrite fmap_cons, IH. f_equal.
  rewrite list_lookup_fmap in Hi.
  destruct (seq 0 n !! i) as [i'|] eqn:E; [|done].
  apply lookup_seq in E as [-> _]. by injection Hi as <-.
Qed.

Lemma transfer_node_embedding_ok nsf idx ns (s s' : store num) :
  transfer_node_embedding model model_foundations nsf idx ns s
    = (Ret tt, s') ->
  exists factor,
    species_ratio_sqrt nsf ns = Ret factor /\
    nsf <> 0 /\
    length (node_embedding_weight (s model_foundations)) `mod` nsf = 0 /\
    Forall (fun i => i < nsf) idx /\
    node_embedding_weight (s' model)
    = tensor_div
        (concat (species_block
                   (length (node_embedding_weight (s model_foundations))
                      `div` nsf)
                   (node_embedding_weight (s model_foundations)) <$> idx))
        factor.
Proof.
  unfold transfer_node_embedding. rewrite run_read.
  intros (rows & s0 & [Hrows ->]%lift_ok & Hrun)%bind_ok.
  apply bind_ok in Hrun as (sel & s0 & [Hsel ->]%lift_ok & Hrun).
  apply bind_ok in Hrun as (factor & s0 & [Hf ->]%lift_ok & Hrun).
  apply assign_ok in Hrun as (m' & [= <-] & ->).
  unfold view_rows in Hrows. case_decide as Hn; [|discriminate].
  injection Hrows as <-. destruct Hn as [Hn0 Hmod].
  exists factor. split; [done|]. split; [done|]. split; [done|]. split.
  - apply index_select_Ret in Hsel.
    clear -Hsel. induction Hsel as [|i b idx sel Hi _ IH]; constructor; [|done].
    apply lookup_lt_Some in Hi. by rewrite length_fmap, length_seq in Hi.
  - rewrite store_lookup_insert. simpl.
    by rewrite (index_select_fmap_seq _ _ _ _ Hsel).
Qed.

(** The rest of the function leaves the node embedding alone. *)
Lemma node_embedding_kept table load_readout use_shift use_scale max_L
    (s s' : store num) l :
  load_foundations model model_foundations table load_readout use_shift
    use_scale max_L s = (Ret l, s') ->
  exists idx s1,
    comprehension
      (z_to_index (AtomicNumberTable_init
                     (atomic_numbers (s model_foundations))))
      (zs table) = Ret idx /\
    transfer_node_embedding model model_foundations
      (length (atomic_numbers (s model_foundations))) idx (length idx) s
      = (Ret tt, s1) /\
    node_embedding_weight (s' model) = node_embedding_weight (s1 model).
Proof.
  intros (_ & _ & ncf & idx & s1 & s2 & s3 & s4 & s5 & _ & Hidx & Hne & Hbw
          & Hint & Hprod & Hread & Hss)%load_foundations_ok.
  exists idx, s1. split; [done|]. split; [done|].
  pose (R := obs_rel (num := num) model node_embedding_weight).
  assert (R s1 s2) as H12.
  { eapply stable_run; [|exact Hbw].
    by apply stable_transfer_bessel_weights. }
  assert (R s2 s3) as H23.
  { eapply stable_run; [|exact Hint].
    apply stable_for_range; [apply _|]. intros i.
    by apply stable_transfer_interaction. }
  assert (R s3 s4) as H34.
  { eapply stable_run; [|exact Hprod].
    apply stable_for_range; [apply _|]. intros i.
    by apply stable_transfer_product. }
  assert (R s4 s5) as H45.
  { eapply stable_run; [|exact Hread]. destruct load_readout.
    - by apply stable_transfer_readouts.
    - apply stable_ret. apply _. }
  assert (R s5 s') as H56.
  { eapply stable_run; [|exact Hss].
    by apply stable_transfer_scale_shift. }
  unfold R, obs_rel in *. congruence.
Qed.
End Blocks.

(** ** The loop over the interactions *)

Section Interactions.
Context {num : Type} `{Arith num}.
Variables model model_foundations : loc.
Hypothesis Hdistinct : model_foundations <> model.

Lemma assign_frame upd (s s' : store num) :
  assign model upd s = (Ret tt, s') ->
  s' model_foundations = s model_foundations.
Proof.
  intros (m' & _ & ->)%assign_ok. rewrite store_lookup_insert_ne; done.
Qed.

Lemma assign_interaction_ok i g (s s' : store num) :
  assign model (at_interaction i g) s = (Ret tt, s') ->
  exists b b',
    interactions (s model) !! i = Some b /\ g b = Ret b' /\
    interactions (s' model) !! i = Some b' /\
    s' model_foundations = s model_foundations.
Proof.
  intros Ha. pose proof (assign_frame _ _ _ Ha) as Hf.
  apply assign_ok in Ha as (m' & (b & b' & Hb & Hg & ->)%at_interaction_inv & ->).
  exists b, b'. rewrite store_lookup_insert. simpl.
  rewrite list_lookup_insert_eq by (by eapply lookup_lt_Some). done.
Qed.

Lemma foundation_interaction_ok i (s s' : store num) bf :
  foundation_interaction model_foundations i s = (Ret bf, s') ->
  interactions (s model_foundations) !! i = Some bf /\ s' = s.
Proof.
  unfold foundation_interaction. rewrite run_read.
  intros [Hg ->]%lift_ok. unfold getitem in Hg.
  destruct (interactions (s model_foundations) !! i); by simplify_eq.
Qed.

Lemma setattr_layer_inv j w (b b' : InteractionBlock num) :
  setattr_layer j w b = Ret b' ->
  j < length (conv_tp_weights b) /\
  b' = set_conv_tp_weights (<[j := w]> (conv_tp_weights b)) b.
Proof.
  unfold setattr_layer.
  destruct (conv_tp_weights b !! j) as [w0|] eqn:E; [|discriminate].
  intros [= <-]. split; [by eapply lookup_lt_Some | done].
Qed.

Lemma getattr_layer_inv (layers : list (list (list num))) j w :
  getattr_layer layers j = Ret w -> layers !! j = Some w.
Proof. unfold getattr_layer. destruct (layers !! j); by intros [= <-]. Qed.

(** One layer of the radial network: statement [j] of the inner loop. *)
Lemma transfer_layer_ok i j (w' : list (list num) -> list (list num))
    (s s' : store num) b bf :
  interactions (s model) !! i = Some b ->
  interactions (s model_foundations) !! i = Some bf ->
  (bf0 ← foundation_interaction model_foundations i;
   w ← lift (getattr_layer (conv_tp_weights bf0) j);
   assign model (at_interaction i (setattr_layer j (w' w)))) s
    = (Ret tt, s') ->
  exists w,
    conv_tp_weights bf !! j = Some w /\
    j < length (conv_tp_weights b) /\
    interactions (s' model) !! i
    = Some (set_conv_tp_weights (<[j := w' w]> (conv_tp_weights b)) b) /\
    s' model_foundations = s model_foundations.
Proof.
  intros Hb Hbf (bf0 & s0 & [Hbf0 ->]%foundation_interaction_ok & Hrun)%bind_ok.
  apply bind_ok in Hrun as (w & s0 & [Hw%getattr_layer_inv ->]%lift_ok & Hrun).
  apply assign_interaction_ok in Hrun as (b0 & b' & Hb0 & Hg & Hb' & Hf).
  simplify_eq. apply setattr_layer_inv in Hg as [Hlen ->].
  exists w. done.
Qed.

(** The body of the loop, run to its end: block [i] of the target holds
    the weights of block [i] of the foundation model. *)
Lemma transfer_interaction_ok nsf ncf idx nr ns max_ell i (s s' : store num) :
  transfer_interaction model model_foundations nsf ncf idx nr ns max_ell i s
    = (Ret tt, s') ->
  exists b bf w0 w1 w2 w3 sel factor,
    interactions (s model) !! i = Some b /\
    interactions (s model_foundations) !! i = Some bf /\
    conv_tp_weights bf !! 0 = Some w0 /\
    conv_tp_weights bf !! 1 = Some w1 /\
    conv_tp_weights bf !! 2 = Some w2 /\
    conv_tp_weights bf !! 3 = Some w3 /\
    3 < length (conv_tp_weights b) /\
    reshape_select (skip_tp_outer ncf max_ell (interaction_class b)) nsf ncf
      idx (skip_tp_weight bf) = Ret sel /\
    species_ratio_sqrt nsf ns = Ret factor /\
    interactions (s' model) !! i
    = Some {| interaction_class := interaction_class b;
              linear_up_weight := linear_up_weight bf;
              avg_num_neighbors := avg_num_neighbors bf;
              conv_tp_weights :=
                <[3 := w3]> (<[2 := w2]> (<[1 := w1]>
                  (<[0 := take nr w0]> (conv_tp_weights b))));
              linear_weight := linear_weight bf;
              skip_tp_weight := tensor_div sel factor |} /\
    s' model_foundations = s model_foundations.
Proof.
  unfold transfer_interaction.
  intros (bf & s0 & [Hbf ->]%foundation_interaction_ok & Hrun)%bind_ok.
  apply bind_ok in Hrun as ([] & s1 & Ha1 & Hrun).
  apply assign_interaction_ok in Ha1 as (b & b1 & Hb & [= <-] & Hb1 & Hf1).
  apply bind_ok in Hrun as (bf' & s0 & [Hbf' ->]%foundation_interaction_ok & Hrun).
  rewrite Hf1, Hbf in Hbf'. injection Hbf' as <-.
  apply bind_ok in Hrun as ([] & s2 & Ha2 & Hrun).
  apply assign_interaction_ok in Ha2 as (b1' & b2 & Hb1' & [= <-] & Hb2 & Hf2).
  rewrite Hb1 in Hb1'. injection Hb1' as <-.
  assert (interactions (s2 model_foundations) !! i = Some bf) as Hbf2
    by (by rewrite Hf2, Hf1).
  apply bind_ok in Hrun as ([] & s6 & Hloop & Hrun).
  unfold for_range in Hloop. simpl in Hloop.
  apply bind_ok in Hloop as ([] & s3 & Hl0 & Hloop).
  apply (transfer_layer_ok i 0 (take nr) _ _ _ _ Hb2 Hbf2) in Hl0
    as (w0 & Hw0 & Hlen0 & Hb3 & Hf3).
  assert (interactions (s3 model_foundations) !! i = Some bf) as Hbf3
    by (by rewrite Hf3).
  apply bind_ok in Hloop as ([] & s4 & Hl1 & Hloop).
  apply (transfer_layer_ok i 1 (fun w => w) _ _ _ _ Hb3 Hbf3) in Hl1
    as (w1 & Hw1 & Hlen1 & Hb4 & Hf4).
  assert (interactions (s4 model_foundations) !! i = Some bf) as Hbf4
    by (by rewrite Hf4).
  apply bind_ok in Hloop as ([] & s5 & Hl2 & Hloop).
  apply (transfer_layer_ok i 2 (fun w => w) _ _ _ _ Hb4 Hbf4) in Hl2
    as (w2 & Hw2 & Hlen2 & Hb5 & Hf5).
  assert (interactions (s5 model_foundations) !! i = Some bf) as Hbf5
    by (by rewrite Hf5).
  apply bind_ok in Hloop as ([] & s6' & Hl3 & [_ <-]%ret_ok).
  apply (transfer_layer_ok i 3 (fun w => w) _ _ _ _ Hb5 Hbf5) in Hl3
    as (w3 & Hw3 & Hlen3 & Hb6 & Hf6).
  assert (interactions (s6 model_foundations) !! i = Some bf) as Hbf6
    by (by rewrite Hf6).
  apply bind_ok in Hrun as (bf' & s0 & [Hbf' ->]%foundation_interaction_ok & Hrun).
  rewrite Hbf6 in Hbf'. injection Hbf' as <-.
  apply bind_ok in Hrun as ([] & s7 & Ha7 & Hrun).
  apply assign_interaction_ok in Ha7 as (b6 & b7 & Hb6' & [= <-] & Hb7 & Hf7).
  rewrite Hb6 in Hb6'. injection Hb6' as <-.
  assert (interactions (s7 model_foundations) !! i = Some bf) as Hbf7
    by (by rewrite Hf7).
  rewrite run_read in Hrun.
  apply bind_ok in Hrun as (b7 & s0 & [Hg7 ->]%lift_ok & Hrun).
  unfold getitem in Hg7. rewrite Hb7 in Hg7. injection Hg7 as <-.
  cbn [interaction_class set_linear_weight set_conv_tp_weights
       set_avg_num_neighbors set_linear_up_weight] in Hrun.
  assert (transfer_skip_tp model model_foundations
            (skip_tp_outer ncf max_ell (interaction_class b)) nsf ncf idx ns
            i s7 = (Ret tt, s')) as Hskip.
  { unfold skip_tp_outer.
    by destruct (String.eqb (interaction_class b) _). }
  clear Hrun. unfold transfer_skip_tp in Hskip.
  apply bind_ok in Hskip as (bf' & s0 & [Hbf' ->]%foundation_interaction_ok & Hrun).
  rewrite Hbf7 in Hbf'. injection Hbf' as <-.
  apply bind_ok in Hrun as (sel & s0 & [Hsel ->]%lift_ok & Hrun).
  apply bind_ok in Hrun as (factor & s0 & [Hfac ->]%lift_ok & Hrun).
  apply assign_interaction_ok in Hrun as (b7 & b8 & Hb7' & [= <-] & Hb8 & Hf8).
  rewrite Hb7 in Hb7'. injection Hb7' as <-.
  exists b, bf, w0, w1, w2, w3, sel, factor.
  simpl in *. rewrite !length_insert in *.
  repeat (split; [done|]).
  by rewrite Hf8, Hf7, Hf6, Hf5, Hf4, Hf3, Hf2, Hf1.
Qed.

Lemma stable_frame_transfer_interaction nsf ncf idx nr ns max_ell i :
  stable (frame_rel model)
    (transfer_interaction model model_foundations nsf ncf idx nr ns max_ell
       i).
Proof.
  unfold transfer_interaction, transfer_skip_tp, foundation_interaction.
  stable_structure; apply stable_frame_assign.
Qed.

(** Iteration [j] leaves the other blocks alone. *)
Lemma stable_transfer_interaction_other nsf ncf idx nr ns max_ell i j :
  j <> i ->
  stable (obs_rel model (fun m : Model num => interactions m !! i))
    (transfer_interaction model model_foundations nsf ncf idx nr ns max_ell
       j).
Proof.
  intros Hj.
  unfold transfer_interaction, transfer_skip_tp, foundation_interaction.
  stable_structure; apply stable_obs_assign;
    intros m m' (b & b' & _ & _ & ->)%at_interaction_inv; simpl;
    by rewrite list_lookup_insert_ne.
Qed.

(** The loop, run to its end, for each of its indices. *)
Lemma interactions_loop_ok n nsf ncf idx nr ns max_ell i (s s' : store num) :
  i < n ->
  for_range n
    (transfer_interaction model model_foundations nsf ncf idx nr ns max_ell)
    s = (Ret tt, s') ->
  exists b bf w0 w1 w2 w3 sel factor,
    interactions (s model) !! i = Some b /\
    interactions (s model_foundations) !! i = Some bf /\
    conv_tp_weights bf !! 0 = Some w0 /\
    conv_tp_weights bf !! 1 = Some w1 /\
    conv_tp_weights bf !! 2 = Some w2 /\
    conv_tp_weights bf !! 3 = Some w3 /\
    3 < length (conv_tp_weights b) /\
    reshape_select (skip_tp_outer ncf max_ell (interaction_class b)) nsf ncf
      idx (skip_tp_weight bf) = Ret sel /\
    species_ratio_sqrt nsf ns = Ret factor /\
    interactions (s' model) !! i
    = Some {| interaction_class := interaction_class b;
              linear_up_weight := linear_up_weight bf;
              avg_num_neighbors := avg_num_neighbors bf;
              conv_tp_weights :=
                <[3 := w3]> (<[2 := w2]> (<[1 := w1]>
                  (<[0 := take nr w0]> (conv_tp_weights b))));
              linear_weight := linear_weight bf;
              skip_tp_weight := tensor_div sel factor |}.
Proof.
  intros Hi (sa & sb & Hbefore & Hbody & Hafter)%(for_range_split _ i); [|done].
  pose proof (stable_before (frame_rel model) i _ _ _ _
    (fun j _ => stable_frame_transfer_interaction _ _ _ _ _ _ j) Hbefore)
    as Hfa.
  pose proof (stable_before _ i _ _ _ _
    (fun j Hj => stable_transfer_interaction_other _ _ _ _ _ _ i j Hj)
    Hbefore) as Hia.
  pose proof (stable_after _ i _ _ _ _ _
    (fun j Hj => stable_transfer_interaction_other _ _ _ _ _ _ i j Hj)
    Hafter) as Hib.
  unfold obs_rel in Hia, Hib. specialize (Hfa model_foundations Hdistinct).
  apply transfer_interaction_ok in Hbody
    as (b & bf & w0 & w1 & w2 & w3 & sel & factor & Hb & Hbf & Hw0 & Hw1
        & Hw2 & Hw3 & Hlen & Hsel & Hfac & Hb' & _).
  exists b, bf, w0, w1, w2, w3, sel, factor.
  rewrite <- Hia, <- Hfa, Hib. done.
Qed.
End Interactions.

(** ** The product blocks, the readouts, scale and shift *)

Section Products.
Context {num : Type} `{Arith num}.
Variables model model_foundations : loc.
Hypothesis Hdistinct : model_foundations <> model.

Lemma foundation_contraction_ok i j (s s' : store num) c :
  foundation_contraction model_foundations i j s = (Ret c, s') ->
  contraction_at (s model_foundations) i j = Some c /\ s' = s.
Proof.
  unfold foundation_contraction, contraction_at. rewrite run_read.
  intros (p & s0 & [Hp ->]%lift_ok & [Hc ->]%lift_ok)%bind_ok.
  unfold getitem in *.
  destruct (products (s model_foundations) !! i) as [p'|]; [|done].
  injection Hp as ->. simpl.
  destruct (contractions p !! j); by simplify_eq.
Qed.

Lemma assign_contraction_ok i j g (s s' : store num) :
  assign model (at_product i (at_contraction j g)) s = (Ret tt, s') ->
  exists c c',
    contraction_at (s model) i j = Some c /\ g c = Ret c' /\
    contraction_at (s' model) i j = Some c' /\
    s' model_foundations = s model_foundations.
Proof.
  intros Ha. pose proof (assign_frame _ _ Hdistinct _ _ _ Ha) as Hf.
  apply assign_ok in Ha as (m' & (p & p' & Hp & Hg & ->)%at_product_inv & ->).
  apply at_contraction_inv in Hg as (c & c' & Hc & Hg & ->).
  exists c, c'. rewrite store_lookup_insert. unfold contraction_at. simpl.
  rewrite Hp. simpl.
  rewrite list_lookup_insert_eq by (by eapply lookup_lt_Some). simpl.
  rewrite list_lookup_insert_eq by (by eapply lookup_lt_Some). done.
Qed.

Lemma setitem_weight_inv k w (c c' : Contraction num) :
  setitem_weight k w c = Ret c' ->
  k < length (weights c) /\ c' = set_weights (<[k := w]> (weights c)) c.
Proof.
  unfold setitem_weight.
  intros (l & (x & x' & Hx & [= <-] & ->)%at_index_inv & [= <-])%outcome_bind_Ret.
  split; [by eapply lookup_lt_Some | done].
Qed.

(** One of the two secondary weights: statement [k] of the inner loop. *)
Lemma transfer_weight_ok idx i j k (s s' : store num) c cf :
  contraction_at (s model) i j = Some c ->
  contraction_at (s model_foundations) i j = Some cf ->
  (c0 ← foundation_contraction model_foundations i j;
   wk ← lift (getitem (weights c0) k);
   w ← lift (index_select idx wk);
   assign model (at_product i (at_contraction j (setitem_weight k w)))) s
    = (Ret tt, s') ->
  exists wk w,
    weights cf !! k = Some wk /\ index_select idx wk = Ret w /\
    k < length (weights c) /\
    contraction_at (s' model) i j
    = Some (set_weights (<[k := w]> (weights c)) c) /\
    s' model_foundations = s model_foundations.
Proof.
  intros Hc Hcf (c0 & s0 & [Hc0 ->]%foundation_contraction_ok & Hrun)%bind_ok.
  apply bind_ok in Hrun as (wk & s0 & [Hwk ->]%lift_ok & Hrun).
  apply bind_ok in Hrun as (w & s0 & [Hw ->]%lift_ok & Hrun).
  apply assign_contraction_ok in Hrun as (c1 & c' & Hc1 & Hg & Hc' & Hf).
  simplify_eq. apply setitem_weight_inv in Hg as [Hlen ->].
  exists wk, w. unfold getitem in Hwk.
  destruct (weights cf !! k); by simplify_eq.
Qed.

(** The body of the loop over the contractions, run to its end. *)
Lemma transfer_contraction_ok idx i j (s s' : store num) :
  transfer_contraction model model_foundations idx i j s = (Ret tt, s') ->
  exists c cf wm wk0 wk1 w0 w1,
    contraction_at (s model) i j = Some c /\
    contraction_at (s model_foundations) i j = Some cf /\
    index_select idx (weights_max cf) = Ret wm /\
    weights cf !! 0 = Some wk0 /\ index_select idx wk0 = Ret w0 /\
    weights cf !! 1 = Some wk1 /\ index_select idx wk1 = Ret w1 /\
    1 < length (weights c) /\
    contraction_at (s' model) i j
    = Some {| weights_max := wm;
              weights := <[1 := w1]> (<[0 := w0]> (weights c)) |} /\
    s' model_foundations = s model_foundations.
Proof.
  unfold transfer_contraction.
  intros (cf & s0 & [Hcf ->]%foundation_contraction_ok & Hrun)%bind_ok.
  apply bind_ok in Hrun as (wm & s0 & [Hwm ->]%lift_ok & Hrun).
  apply bind_ok in Hrun as ([] & s1 & Ha & Hloop).
  apply assign_contraction_ok in Ha as (c & c1 & Hc & [= <-] & Hc1 & Hf1).
  assert (contraction_at (s1 model_foundations) i j = Some cf) as Hcf1
    by (by rewrite Hf1).
  unfold for_range in Hloop. simpl in Hloop.
  apply bind_ok in Hloop as ([] & s2 & Hl0 & Hloop).
  apply (transfer_weight_ok idx i j 0 _ _ _ _ Hc1 Hcf1) in Hl0
    as (wk0 & w0 & Hwk0 & Hw0 & Hlen0 & Hc2 & Hf2).
  assert (contraction_at (s2 model_foundations) i j = Some cf) as Hcf2
    by (by rewrite Hf2).
  apply bind_ok in Hloop as ([] & s3 & Hl1 & [_ <-]%ret_ok).
  apply (transfer_weight_ok idx i j 1 _ _ _ _ Hc2 Hcf2) in Hl1
    as (wk1 & w1 & Hwk1 & Hw1 & Hlen1 & Hc3 & Hf3).
  exists c, cf, wm, wk0, wk1, w0, w1.
  simpl in *. rewrite !length_insert in *.
  repeat (split; [done|]).
  by rewrite Hf3, Hf2, Hf1.
Qed.

Lemma stable_frame_transfer_contraction idx i j :
  stable (frame_rel model)
    (transfer_contraction (num := num) model model_foundations idx i j).
Proof.
  unfold transfer_contraction, foundation_contraction.
  stable_structure; apply stable_frame_assign.
Qed.

Lemma stable_frame_transfer_product idx max_L i :
  stable (frame_rel model)
    (transfer_product (num := num) model model_foundations idx max_L i).
Proof.
  unfold transfer_product. cbv zeta. stable_structure;
    first [apply stable_frame_transfer_contraction | apply stable_frame_assign].
Qed.

(** Iteration [j'] leaves the other contractions alone. *)
Lemma stable_transfer_contraction_other idx i i' j j' :
  j' <> j ->
  stable (obs_rel model (fun m : Model num => contraction_at m i j))
    (transfer_contraction (num := num) model model_foundations idx i' j').
Proof.
  intros Hj. unfold transfer_contraction, foundation_contraction.
  stable_structure; apply stable_obs_assign;
    intros m m' (p & p' & Hp & Hg & ->)%at_product_inv;
    apply at_contraction_inv in Hg as (c & c' & Hc & _ & ->);
    unfold contraction_at; simpl;
    (destruct (decide (i' = i)) as [->|Hi];
     [ rewrite list_lookup_insert_eq by (by eapply lookup_lt_Some);
       rewrite Hp; simpl; by rewrite list_lookup_insert_ne
     | by rewrite list_lookup_insert_ne ]).
Qed.

(** Iteration [i'] leaves the other product blocks alone. *)
Lemma stable_transfer_product_other idx max_L i i' :
  i' <> i ->
  stable (obs_rel model (fun m : Model num => products m !! i))
    (transfer_product (num := num) model model_foundations idx max_L i').
Proof.
  intros Hi.
  unfold transfer_product, transfer_contraction, foundation_contraction.
  cbv zeta. stable_structure; apply stable_obs_assign;
    intros m m' (p & p' & _ & _ & ->)%at_product_inv; simpl;
    by rewrite list_lookup_insert_ne.
Qed.

(** The body of the loop over the product blocks, run to its end. *)
Lemma transfer_product_ok idx max_L i (s s' : store num) :
  transfer_product model model_foundations idx max_L i s = (Ret tt, s') ->
  (exists pf p',
     products (s model_foundations) !! i = Some pf /\
     products (s' model) !! i = Some p' /\
     product_linear_weight p' = product_linear_weight pf) /\
  (forall j,
     j < Z.to_nat (if decide (i = 0) then (max_L + 1)%Z else 1%Z) ->
     exists c cf wm wk0 wk1 w0 w1,
       contraction_at (s model) i j = Some c /\
       contraction_at (s model_foundations) i j = Some cf /\
       index_select idx (weights_max cf) = Ret wm /\
       weights cf !! 0 = Some wk0 /\ index_select idx wk0 = Ret w0 /\
       weights cf !! 1 = Some wk1 /\ index_select idx wk1 = Ret w1 /\
       1 < length (weights c) /\
       contraction_at (s' model) i j
       = Some {| weights_max := wm;
                 weights := <[1 := w1]> (<[0 := w0]> (weights c)) |}) /\
  s' model_foundations = s model_foundations.
Proof.
  unfold transfer_product. cbv zeta.
  intros ([] & s1 & Hloop & Hrun)%bind_ok.
  rewrite run_read in Hrun.
  apply bind_ok in Hrun as (pf & s0 & [Hpf ->]%lift_ok & Ha).
  pose proof (stable_run (frame_rel model) _ _ _ _
    (stable_for_range _ _ _
       (fun j => stable_frame_transfer_contraction idx i j)) Hloop
    model_foundations Hdistinct) as Hf1.
  pose proof (assign_frame _ _ Hdistinct _ _ _ Ha) as Hf2.
  apply assign_ok in Ha as (m' & (p & p' & Hp & [= <-] & ->)%at_product_inv & ->).
  unfold getitem in Hpf. rewrite Hf1 in Hpf.
  destruct (products (s model_foundations) !! i) as [pf'|] eqn:Epf; [|done].
  injection Hpf as ->.
  split; [|split].
  - exists pf, (set_product_linear_weight (product_linear_weight pf) p).
    rewrite store_lookup_insert. simpl.
    rewrite list_lookup_insert_eq by (by eapply lookup_lt_Some). done.
  - intros j Hj.
    apply (for_range_split _ j) in Hloop as (sa & sb & Hbefore & Hbody & Hafter);
      [|done].
    pose proof (stable_before (frame_rel model) j _ _ _ _
      (fun j' _ => stable_frame_transfer_contraction idx i j') Hbefore
      model_foundations Hdistinct) as Hfa.
    pose proof (stable_before _ j _ _ _ _
      (fun j' Hj' => stable_transfer_contraction_other idx i i j j' Hj')
      Hbefore) as Hca.
    pose proof (stable_after _ j _ _ _ _ _
      (fun j' Hj' => stable_transfer_contraction_other idx i i j j' Hj')
      Hafter) as Hcb.
    unfold obs_rel in Hca, Hcb.
    apply transfer_contraction_ok in Hbody
      as (c & cf & wm & wk0 & wk1 & w0 & w1 & Hc & Hcf & Hwm & Hwk0 & Hw0
          & Hwk1 & Hw1 & Hlen & Hc' & _).
    exists c, cf, wm, wk0, wk1, w0, w1.
    rewrite <- Hca, <- Hfa. repeat (split; [done|]).
    rewrite store_lookup_insert. unfold contraction_at in *. simpl.
    rewrite list_lookup_insert_eq by (by eapply lookup_lt_Some). simpl.
    rewrite <- Hc', <- Hcb, Hp. done.
  - rewrite store_lookup_insert_ne by done. done.
Qed.

(** The loop over the two product blocks, run to its end. *)
Lemma products_loop_ok idx max_L i (s s' : store num) :
  i < 2 ->
  for_range 2 (transfer_product model model_foundations idx max_L) s
    = (Ret tt, s') ->
  (exists pf p',
     products (s model_foundations) !! i = Some pf /\
     products (s' model) !! i = Some p' /\
     product_linear_weight p' = product_linear_weight pf) /\
  (forall j,
     j < Z.to_nat (if decide (i = 0) then (max_L + 1)%Z else 1%Z) ->
     exists c cf wm wk0 wk1 w0 w1,
       contraction_at (s model) i j = Some c /\
       contraction_at (s model_foundations) i j = Some cf /\
       index_select idx (weights_max cf) = Ret wm /\
       weights cf !! 0 = Some wk0 /\ index_select idx wk0 = Ret w0 /\
       weights cf !! 1 = Some wk1 /\ index_select idx wk1 = Ret w1 /\
       1 < length (weights c) /\
       contraction_at (s' model) i j
       = Some {| weights_max := wm;
                 weights := <[1 := w1]> (<[0 := w0]> (weights c)) |}).
Proof.
  intros Hi (sa & sb & Hbefore & Hbody & Hafter)%(for_range_split _ i); [|done].
  pose proof (stable_before (frame_rel model) i _ _ _ _
    (fun i' _ => stable_frame_transfer_product idx max_L i') Hbefore
    model_foundations Hdistinct) as Hfa.
  pose proof (stable_before _ i _ _ _ _
    (fun i' Hi' => stable_transfer_product_other idx max_L i i' Hi')
    Hbefore) as Hpa.
  pose proof (stable_after _ i _ _ _ _ _
    (fun i' Hi' => stable_transfer_product_other idx max_L i i' Hi')
    Hafter) as Hpb.
  unfold obs_rel in Hpa, Hpb.
  apply transfer_product_ok in Hbody as (Hlin & Hcon & _).
  unfold contraction_at in *. rewrite Hfa, Hpa in *. rewrite Hpb.
  split; [exact Hlin | exact Hcon].
Qed.

(** *** Readouts *)

Lemma foundation_readout_ok i (s s' : store num) r :
  foundation_readout model_foundations i s = (Ret r, s') ->
  readouts (s model_foundations) !! i = Some r /\ s' = s.
Proof.
  unfold foundation_readout. rewrite run_read.
  intros [Hg ->]%lift_ok. unfold getitem in Hg.
  destruct (readouts (s model_foundations) !! i); by simplify_eq.
Qed.

Lemma assign_readout_ok i g (s s' : store num) :
  assign model (at_readout i g) s = (Ret tt, s') ->
  exists r r',
    readouts (s model) !! i = Some r /\ g r = Ret r' /\
    readouts (s' model) !! i = Some r' /\
    (forall k, k <> i -> readouts (s' model) !! k = readouts (s model) !! k) /\
    s' model_foundations = s model_foundations.
Proof.
  intros Ha. pose proof (assign_frame _ _ Hdistinct _ _ _ Ha) as Hf.
  apply assign_ok in Ha as (m' & (r & r' & Hr & Hg & ->)%at_readout_inv & ->).
  exists r, r'. rewrite store_lookup_insert. simpl.
  rewrite list_lookup_insert_eq by (by eapply lookup_lt_Some).
  repeat (split; [done|]). split; [|done].
  intros k Hk. by rewrite list_lookup_insert_ne.
Qed.

Lemma transfer_readouts_ok (s s' : store num) :
  transfer_readouts model model_foundations s = (Ret tt, s') ->
  exists w w1 w2,
    readouts (s model_foundations) !! 0 = Some (LinearReadoutBlock w) /\
    readouts (s model_foundations) !! 1 = Some (NonLinearReadoutBlock w1 w2) /\
    readouts (s' model) !! 0 = Some (LinearReadoutBlock w) /\
    readouts (s' model) !! 1 = Some (NonLinearReadoutBlock w1 w2).
Proof.
  unfold transfer_readouts.
  intros (r0 & s0 & [Hr0 ->]%foundation_readout_ok & Hrun)%bind_ok.
  apply bind_ok in Hrun as (w & s0 & [Hw ->]%lift_ok & Hrun).
  apply bind_ok in Hrun as ([] & s1 & Ha1 & Hrun).
  apply assign_readout_ok in Ha1 as (t0 & t0' & Ht0 & Hg0 & Ht0' & Ho1 & Hf1).
  apply bind_ok in Hrun as (r1 & s0 & [Hr1 ->]%foundation_readout_ok & Hrun).
  apply bind_ok in Hrun as (w1 & s0 & [Hw1 ->]%lift_ok & Hrun).
  apply bind_ok in Hrun as ([] & s2 & Ha2 & Hrun).
  apply assign_readout_ok in Ha2 as (t1 & t1' & Ht1 & Hg1 & Ht1' & Ho2 & Hf2).
  apply bind_ok in Hrun as (r2 & s0 & [Hr2 ->]%foundation_readout_ok & Hrun).
  apply bind_ok in Hrun as (w2 & s0 & [Hw2 ->]%lift_ok & Hrun).
  apply assign_readout_ok in Hrun as (t2 & t2' & Ht2 & Hg2 & Ht2' & Ho3 & Hf3).
  rewrite Hf2, Hf1 in Hr2. rewrite Hf1 in Hr1.
  rewrite Hr1 in Hr2. injection Hr2 as <-.
  rewrite Ht1' in Ht2. injection Ht2 as <-.
  destruct r0 as [x|? ?]; [|done]. destruct r1 as [?|x1 x2]; [done|].
  destruct t0 as [?|? ?]; [|done]. destruct t1 as [?|? ?]; [done|].
  simpl in *. simplify_eq. injection Hg2 as <-.
  exists w, w1, w2. rewrite Ho3, Ho2 by done. done.
Qed.

(** *** Scale and shift *)

Lemma assign_scale_shift_ok f (s s' : store num) :
  assign model (at_scale_shift f) s = (Ret tt, s') ->
  exists ss,
    scale_shift (s model) = Some ss /\
    scale_shift (s' model) = Some (f ss) /\
    s' model_foundations = s model_foundations.
Proof.
  intros Ha. pose proof (assign_frame _ _ Hdistinct _ _ _ Ha) as Hf.
  apply assign_ok in Ha as (m' & (ss & Hss & ->)%at_scale_shift_inv & ->).
  exists ss. rewrite store_lookup_insert. done.
Qed.

Lemma transfer_scale_shift_ok use_shift use_scale (s s' : store num) ssf :
  transfer_scale_shift model model_foundations use_shift use_scale s
    = (Ret tt, s') ->
  scale_shift (s model_foundations) = Some ssf ->
  (use_scale = true ->
   exists ss', scale_shift (s' model) = Some ss' /\ scale ss' = scale ssf) /\
  (use_shift = true ->
   exists ss', scale_shift (s' model) = Some ss' /\ shift ss' = shift ssf).
Proof.
  unfold transfer_scale_shift. rewrite run_read. intros Hrun Hssf.
  rewrite Hssf in Hrun.
  apply bind_ok in Hrun as ([] & s1 & Hsc & Hsh).
  assert (s1 model_foundations = s model_foundations /\
          (use_scale = true ->
           exists ss', scale_shift (s1 model) = Some ss' /\
                       scale ss' = scale ssf)) as [Hf1 Hscale].
  { destruct use_scale.
    - rewrite run_read, Hssf, run_lift_Ret in Hsc.
      apply assign_scale_shift_ok in Hsc as (ss & Hss & Hss' & Hf).
      split; [done|]. intros _. eexists. split; [exact Hss' | done].
    - apply ret_ok in Hsc as [_ ->]. split; [done | discriminate]. }
  destruct use_shift.
  - rewrite run_read, Hf1, Hssf, run_lift_Ret in Hsh.
    apply assign_scale_shift_ok in Hsh as (ss & Hss & Hss' & Hf).
    split.
    + intros Hu. destruct (Hscale Hu) as (ss1 & Hss1 & Hsc1).
      eexists. split; [exact Hss'|]. simpl. congruence.
    + intros _. eexists. split; [exact Hss' | done].
  - apply ret_ok in Hsh as [_ ->]. split; [done | discriminate].
Qed.
End Products.

(** ** Index lists and layouts *)

Section Layouts.
Context {A : Type}.
Implicit Types (t : list A).

Lemma concat_species_blocks c t n :
  concat (species_block c t <$> seq 0 n) = take (n * c) t.
Proof.
  induction n as [|n IH]; [done|].
  rewrite seq_S, fmap_app, concat_app, IH. simpl.
  rewrite app_nil_r. unfold species_block.
  rewrite take_take_drop. f_equal. lia.
Qed.

Lemma species_block_shift c t o n i :
  species_block c t (o * n + i) = species_block c (drop (o * n * c) t) i.
Proof. unfold species_block. rewrite drop_drop. do 2 f_equal. lia. Qed.

(** Selecting every index of the middle dimension, in order, gives the
    tensor back. *)
Lemma reshape_select_all outer n inner t sel :
  reshape_select outer n inner (seq 0 n) t = Ret sel -> sel = t.
Proof.
  unfold reshape_select. case_decide as Hlen; [|done].
  destruct (forallb _ _); [|done]. intros [= <-].
  erewrite (list_fmap_ext _ (species_block (n * inner) t)).
  - rewrite concat_species_blocks. apply take_ge. lia.
  - intros _ o _.
    erewrite (list_fmap_ext _ (species_block inner (drop (o * n * inner) t))).
    + rewrite concat_species_blocks. unfold species_block.
      do 2 f_equal. lia.
    + intros _ i _. apply species_block_shift.
Qed.

Lemma index_select_all n t sel :
  index_select (seq 0 n) t = Ret sel -> sel = take n t.
Proof.
  rewrite index_select_Ret. intros Hf.
  pose proof (Forall2_length _ _ _ Hf) as Hlen. rewrite length_seq in Hlen.
  apply list_eq. intros k.
  destruct (decide (k < n)) as [Hk|Hk].
  - rewrite lookup_take_lt by done.
    destruct (Forall2_lookup_l _ _ _ k k Hf) as (b & Hb & Hkb).
    { by apply lookup_seq_lt. }
    by rewrite Hb, Hkb.
  - rewrite lookup_take_ge by lia. apply lookup_ge_None. lia.
Qed.

Lemma index_select_all_length n t sel :
  length t = n -> index_select (seq 0 n) t = Ret sel -> sel = t.
Proof.
  intros Hlen ->%index_select_all. apply take_ge. lia.
Qed.
(** *** Entry by entry *)

Lemma species_block_lookup c t i r :
  r < c -> species_block c t i !! r = t !! (i * c + r).
Proof.
  intros Hr. unfold species_block.
  rewrite lookup_take_lt by done. by rewrite lookup_drop.
Qed.

Lemma species_block_length c t i :
  i * c + c <= length t -> length (species_block c t i) = c.
Proof.
  intros Hlen. unfold species_block. rewrite length_take, length_drop. lia.
Qed.

Lemma concat_blocks_length (l : list (list A)) c :
  Forall (fun b => length b = c) l -> length (concat l) = length l * c.
Proof.
  induction 1 as [|b l Hb _ IH]; [done|].
  simpl. rewrite length_app, IH, Hb. lia.
Qed.

Lemma concat_blocks_lookup (l : list (list A)) c j r :
  Forall (fun b => length b = c) l -> r < c ->
  concat l !! (j * c + r) = l !! j ≫= (fun b => b !! r).
Proof.
  intros Hl Hr. revert j. induction Hl as [|b l Hb _ IH]; intros j.
  - by rewrite !lookup_nil.
  - destruct j as [|j]; simpl.
    + rewrite lookup_app_l by lia. done.
    + rewrite lookup_app_r by lia.
      replace (c + j * c + r - length b) with (j * c + r) by lia.
      apply IH.
Qed.

(** The blocks of the positions [idx] of a tensor of [n] blocks of [c]
    entries, one after the other: entry [r] of block [j] is entry [r] of
    block [idx[j]] of the tensor. *)
Lemma select_blocks n c t (idx : list nat) :
  length t = n * c -> Forall (fun i => i < n) idx ->
  length (concat (species_block c t <$> idx)) = length idx * c /\
  forall j i r, idx !! j = Some i -> r < c ->
    concat (species_block c t <$> idx) !! (j * c + r) = t !! (i * c + r).
Proof.
  intros Hlen Hidx.
  assert (Forall (fun b => length b = c) (species_block c t <$> idx)) as Hb.
  { rewrite Forall_fmap. eapply Forall_impl; [exact Hidx|].
    intros i Hi. simpl in *. apply species_block_length.
    rewrite Hlen. nia. }
  split.
  - by rewrite (concat_blocks_length _ c), length_fmap.
  - intros j i r Hj Hr.
    rewrite (concat_blocks_lookup _ c) by done.
    rewrite list_lookup_fmap, Hj. simpl. by apply species_block_lookup.
Qed.

(** [reshape_select] entry by entry: the tensor has [outer x n x inner]
    entries, the result [outer x len(indices) x inner], and the entry
    [(o, j, r)] of the result is the entry [(o, indices[j], r)] of the
    tensor, both in row-major order. *)
Lemma reshape_select_lookup outer n inner (idx : list nat) t sel :
  reshape_select outer n inner idx t = Ret sel ->
  length t = outer * n * inner /\
  Forall (fun i => i < n) idx /\
  length sel = outer * length idx * inner /\
  forall o j i r, o < outer -> idx !! j = Some i -> r < inner ->
    sel !! ((o * length idx + j) * inner + r)
    = t !! ((o * n + i) * inner + r).
Proof.
  unfold reshape_select. case_decide as Hlen; [|done].
  destruct (forallb _ _) eqn:Hall; [|done]. intros [= <-].
  assert (Forall (fun i => i < n) idx) as Hidx.
  { apply Forall_forall. intros i Hi.
    rewrite forallb_forall in Hall. apply Nat.ltb_lt, Hall.
    by apply list_elem_of_In. }
  set (row := fun o =>
         concat ((fun i => species_block inner t (o * n + i)) <$> idx)).
  assert (forall o, o < outer ->
            length (row o) = length idx * inner /\
            forall j i r, idx !! j = Some i -> r < inner ->
              row o !! (j * inner + r) = t !! ((o * n + i) * inner + r))
    as Hrow.
  { intros o Ho. unfold row.
    assert (Forall (fun b => length b = inner)
              ((fun i => species_block inner t (o * n + i)) <$> idx)) as Hb.
    { rewrite Forall_fmap. eapply Forall_impl; [exact Hidx|].
      intros i Hi. simpl in *. apply species_block_length.
      rewrite Hlen.
      assert (o * n + i + 1 <= outer * n) as Hle by nia.
      apply (Nat.mul_le_mono_r _ _ inner) in Hle. lia. }
    split.
    - by rewrite (concat_blocks_length _ inner), length_fmap.
    - intros j i r Hj Hr.
      rewrite (concat_blocks_lookup _ inner) by done.
      rewrite list_lookup_fmap, Hj. simpl. by apply species_block_lookup. }
  assert (Forall (fun b => length b = length idx * inner)
            (row <$> seq 0 outer)) as Hrows.
  { rewrite Forall_fmap. apply Forall_forall.
    intros o Ho%elem_of_seq. simpl. apply Hrow. lia. }
  split; [done|]. split; [done|]. split.
  - rewrite (concat_blocks_length _ (length idx * inner)) by done.
    rewrite length_fmap, length_seq. lia.
  - intros o j i r Ho Hj Hr.
    pose proof (lookup_lt_Some _ _ _ Hj) as Hjlt.
    replace ((o * length idx + j) * inner + r)
      with (o * (length idx * inner) + (j * inner + r)) by lia.
    rewrite (concat_blocks_lookup _ (length idx * inner)) by (done || nia).
    rewrite list_lookup_fmap, lookup_seq_lt by done. simpl.
    by apply Hrow.
Qed.
End Layouts.

(** The positions of the entries of a duplicate-free table in the table
    itself. *)
Lemma identity_indices (l : list Z) (idx : list nat) :
  NoDup l ->
  comprehension (z_to_index (AtomicNumberTable_init l)) l = Ret idx ->
  idx = seq 0 (length l).
Proof.
  intros Hnd Hf%comprehension_Ret.
  pose proof (Forall2_length _ _ _ Hf) as Hlen.
  apply list_eq. intros k.
  destruct (decide (k < length l)) as [Hk|Hk].
  - rewrite lookup_seq_lt by done.
    destruct (lookup_lt_is_Some_2 l k Hk) as [z Hz].
    destruct (Forall2_lookup_l _ _ _ k z Hf Hz) as (i & Hi & Hzi).
    rewrite Hi. unfold z_to_index in Hzi. simpl in Hzi.
    rewrite (list_index_NoDup _ _ _ Hnd Hz) in Hzi. by injection Hzi as <-.
  - rewrite lookup_seq_ge by lia. apply lookup_ge_None. lia.
Qed.

Lemma index_list_spec (l table : list Z) (idx : list nat) :
  comprehension (z_to_index (AtomicNumberTable_init l)) table = Ret idx ->
  Forall2 (fun z i => list_index z l = Some i) table idx.
Proof.
  intros Hf%comprehension_Ret. eapply Forall2_impl; [exact Hf|].
  intros z i. unfold z_to_index. simpl. destruct (list_index z l); naive_solver.
Qed.

(** ** The claims about [load_foundations] *)

Section Claims.
Context {num : Type} `{Arith num}.
Variables model model_foundations : loc.

Lemma species_ratio_sqrt_Ret nsf ns (factor : num) :
  species_ratio_sqrt nsf ns = Ret factor ->
  ns <> 0 /\ factor = a_sqrt (a_div (a_of_nat nsf) (a_of_nat ns)).
Proof.
  unfold species_ratio_sqrt. case_decide; [done|]. by intros [= <-].
Qed.

(** The stores a successful call goes through, with what each block
    leaves alone: the objects other than the target, and every
    observation of the target that the attribute the block assigns does
    not enter. *)
Lemma load_foundations_chain table load_readout use_shift use_scale max_L
    (s s' : store num) l :
  load_foundations model model_foundations table load_readout use_shift
    use_scale max_L s = (Ret l, s') ->
  exists ncf idx s1 s2 s3 s4 s5,
    floordiv (length (node_embedding_weight (s model_foundations)))
             (length (atomic_numbers (s model_foundations))) = Ret ncf /\
    comprehension
      (z_to_index (AtomicNumberTable_init
                     (atomic_numbers (s model_foundations))))
      (zs table) = Ret idx /\
    transfer_node_embedding model model_foundations
      (length (atomic_numbers (s model_foundations))) idx (length idx) s
      = (Ret tt, s1) /\
    transfer_bessel_weights model model_foundations s1 = (Ret tt, s2) /\
    for_range (Z.to_nat (num_interactions (s2 model)))
      (transfer_interaction model model_foundations
         (length (atomic_numbers (s model_foundations))) ncf idx
         (out_dim (radial_embedding (s model))) (length idx)
         (spherical_harmonics_lmax (s model))) s2 = (Ret tt, s3) /\
    for_range 2 (transfer_product model model_foundations idx max_L) s3
      = (Ret tt, s4) /\
    (if load_readout then transfer_readouts model model_foundations
     else mret tt) s4 = (Ret tt, s5) /\
    transfer_scale_shift model model_foundations use_shift use_scale s5
      = (Ret tt, s') /\
    (forall l', l' <> model ->
       s1 l' = s l' /\ s2 l' = s l' /\ s3 l' = s l' /\ s4 l' = s l' /\
       s5 l' = s l') /\
    (forall Y (obs : Model num -> Y),
       (forall w m, obs (set_node_embedding_weight w m) = obs m) ->
       obs (s1 model) = obs (s model)) /\
    (forall Y (obs : Model num -> Y),
       (forall w m, obs (set_bessel_weights w m) = obs m) ->
       obs (s2 model) = obs (s1 model)) /\
    (forall Y (obs : Model num -> Y),
       (forall w m, obs (set_interactions w m) = obs m) ->
       obs (s3 model) = obs (s2 model)) /\
    (forall Y (obs : Model num -> Y),
       (forall w m, obs (set_products w m) = obs m) ->
       obs (s4 model) = obs (s3 model)) /\
    (forall Y (obs : Model num -> Y),
       (forall w m, obs (set_readouts w m) = obs m) ->
       obs (s5 model) = obs (s4 model)) /\
    (forall Y (obs : Model num -> Y),
       (forall w m, obs (set_scale_shift w m) = obs m) ->
       obs (s' model) = obs (s5 model)).
Proof.
  intros (_ & _ & ncf & idx & s1 & s2 & s3 & s4 & s5 & Hncf & Hidx & Hne
          & Hbw & Hint & Hprod & Hread & Hss)%load_foundations_ok.
  exists ncf, idx, s1, s2, s3, s4, s5.
  do 8 (split; [done|]).
  split; [|repeat split].
  - intros l' Hl'.
    assert (frame_rel model s s1) as F1.
    { eapply stable_run; [|exact Hne]. unfold transfer_node_embedding.
      stable_structure. apply stable_frame_assign. }
    assert (frame_rel model s1 s2) as F2.
    { eapply stable_run; [|exact Hbw]. unfold transfer_bessel_weights.
      stable_structure. apply stable_frame_assign. }
    assert (frame_rel model s2 s3) as F3.
    { eapply stable_run; [|exact Hint]. apply stable_for_range; [apply _|].
      intros i. apply stable_frame_transfer_interaction. }
    assert (frame_rel model s3 s4) as F4.
    { eapply stable_run; [|exact Hprod]. apply stable_for_range; [apply _|].
      intros i. apply stable_frame_transfer_product. }
    assert (frame_rel model s4 s5) as F5.
    { eapply stable_run; [|exact Hread].
      unfold transfer_readouts, foundation_readout.
      stable_structure; apply stable_frame_assign. }
    specialize (F1 l' Hl'). specialize (F2 l' Hl'). specialize (F3 l' Hl').
    specialize (F4 l' Hl'). specialize (F5 l' Hl').
    repeat split; congruence.
  - intros Y obs Hobs.
    eapply (stable_run (obs_rel model obs)); [|exact Hne].
    by apply stable_transfer_node_embedding.
  - intros Y obs Hobs.
    eapply (stable_run (obs_rel model obs)); [|exact Hbw].
    by apply stable_transfer_bessel_weights.
  - intros Y obs Hobs.
    eapply (stable_run (obs_rel model obs)); [|exact Hint].
    apply stable_for_range; [apply _|]. intros i.
    by apply stable_transfer_interaction.
  - intros Y obs Hobs.
    eapply (stable_run (obs_rel model obs)); [|exact Hprod].
    apply stable_for_range; [apply _|]. intros i.
    by apply stable_transfer_product.
  - intros Y obs Hobs.
    eapply (stable_run (obs_rel model obs)); [|exact Hread].
    destruct load_readout.
    + by apply stable_transfer_readouts.
    + apply stable_ret. apply _.
  - intros Y obs Hobs.
    eapply (stable_run (obs_rel model obs)); [|exact Hss].
    by apply stable_transfer_scale_shift.
Qed.

(** The interaction blocks after a successful call. *)
Lemma load_foundations_interactions table load_readout use_shift use_scale
    max_L (s s' : store num) l i :
  model_foundations <> model ->
  load_foundations model model_foundations table load_readout use_shift
    use_scale max_L s = (Ret l, s') ->
  i < Z.to_nat (num_interactions (s model)) ->
  exists ncf idx b bf w0 w1 w2 w3 sel factor,
    floordiv (length (node_embedding_weight (s model_foundations)))
             (length (atomic_numbers (s model_foundations))) = Ret ncf /\
    comprehension
      (z_to_index (AtomicNumberTable_init
                     (atomic_numbers (s model_foundations))))
      (zs table) = Ret idx /\
    interactions (s model) !! i = Some b /\
    interactions (s model_foundations) !! i = Some bf /\
    conv_tp_weights bf !! 0 = Some w0 /\
    conv_tp_weights bf !! 1 = Some w1 /\
    conv_tp_weights bf !! 2 = Some w2 /\
    conv_tp_weights bf !! 3 = Some w3 /\
    3 < length (conv_tp_weights b) /\
    reshape_select
      (skip_tp_outer ncf (spherical_harmonics_lmax (s model))
         (interaction_class b))
      (length (atomic_numbers (s model_foundations))) ncf idx
      (skip_tp_weight bf) = Ret sel /\
    species_ratio_sqrt (length (atomic_numbers (s model_foundations)))
      (length idx) = Ret factor /\
    interactions (s' model) !! i
    = Some {| interaction_class := interaction_class b;
              linear_up_weight := linear_up_weight bf;
              avg_num_neighbors := avg_num_neighbors bf;
              conv_tp_weights :=
                <[3 := w3]> (<[2 := w2]> (<[1 := w1]>
                  (<[0 := take (out_dim (radial_embedding (s model))) w0]>
                     (conv_tp_weights b))));
              linear_weight := linear_weight bf;
              skip_tp_weight := tensor_div sel factor |}.
Proof.
  intros Hdistinct
    (ncf & idx & s1 & s2 & s3 & s4 & s5 & Hncf & Hidx & _ & _ & Hint & _ & _
     & _ & Hframe & K1 & K2 & K3 & K4 & K5 & K6)%load_foundations_chain Hi.
  destruct (Hframe model_foundations Hdistinct) as (_ & F2 & _).
  assert (forall Y (obs : Model num -> Y),
            (forall w m, obs (set_node_embedding_weight w m) = obs m) ->
            (forall w m, obs (set_bessel_weights w m) = obs m) ->
            obs (s2 model) = obs (s model)) as K12.
  { intros Y obs H1 H2. by rewrite (K2 _ obs H2), (K1 _ obs H1). }
  rewrite <- (K12 _ num_interactions) in Hi by done.
  apply (interactions_loop_ok _ _ Hdistinct _ _ _ _ _ _ _ i) in Hint
    as (b & bf & w0 & w1 & w2 & w3 & sel & factor & Hb & Hbf & Hw0 & Hw1
        & Hw2 & Hw3 & Hlen & Hsel & Hfac & Hb'); [|done].
  rewrite (K12 _ interactions) in Hb by done. rewrite F2 in Hbf.
  exists ncf, idx, b, bf, w0, w1, w2, w3, sel, factor.
  do 11 (split; [done|]).
  rewrite (K6 _ interactions), (K5 _ interactions), (K4 _ interactions)
    by done.
  exact Hb'.
Qed.

(** After a call that returns, the node embedding of the target in terms
    of the blocks of the foundation's. *)
Lemma load_foundations_node_embedding_blocks (table : AtomicNumberTable)
    (load_readout use_shift use_scale : bool) (max_L : Z)
    (s s' : store num) (l : loc) :
  load_foundations model model_foundations table load_readout use_shift
    use_scale max_L s = (Ret l, s') ->
  exists indices_weights : list nat,
    Forall2 (fun z i =>
               list_index z (atomic_numbers (s model_foundations)) = Some i)
            (zs table) indices_weights /\
    length (node_embedding_weight (s model_foundations))
    = length (atomic_numbers (s model_foundations))
      * (length (node_embedding_weight (s model_foundations))
           `div` length (atomic_numbers (s model_foundations))) /\
    node_embedding_weight (s' model)
    = tensor_div
        (concat
           (species_block
              (length (node_embedding_weight (s model_foundations))
                 `div` length (atomic_numbers (s model_foundations)))
              (node_embedding_weight (s model_foundations))
            <$> indices_weights))
        (a_sqrt (a_div
                   (a_of_nat (length (atomic_numbers (s model_foundations))))
                   (a_of_nat (length (zs table))))).
Proof.
  intros (idx & s1 & Hidx & Hne & ->)%node_embedding_kept.
  apply transfer_node_embedding_ok in Hne
    as (factor & Hfac & Hn0 & Hmod & _ & ->).
  apply species_ratio_sqrt_Ret in Hfac as [_ ->].
  pose proof (index_list_spec _ _ _ Hidx) as Hspec.
  exists idx. split; [exact Hspec|]. split.
  - apply Nat.Div0.div_exact in Hmod. exact Hmod.
  - by rewrite (Forall2_length _ _ _ Hspec).
Qed.

Lemma tensor_div_lookup (t : list num) (f : num) k :
  tensor_div t f !! k = (fun x => a_div x f) <$> t !! k.
Proof.
  unfold tensor_div. revert k. induction t as [|x t IH]; intros [|k]; try done.
  simpl. apply IH.
Qed.

Lemma tensor_div_length (t : list num) (f : num) :
  length (tensor_div t f) = length t.
Proof. unfold tensor_div. apply length_map. Qed.

Lemma index_list_lt (l table : list Z) (idx : list nat) :
  Forall2 (fun z i => list_index z l = Some i) table idx ->
  Forall (fun i => i < length l) idx.
Proof.
  induction 1 as [|z i table' idx' Hz _ IH]; constructor; [|done].
  apply list_index_Some in Hz as [Hz _]. by eapply lookup_lt_Some.
Qed.

(** C1, as the code has it. After a call that returns, with [c] the
    number of channels (the entries of the foundation's node embedding
    over the number of foundation elements): the foundation's embedding
    has one block of [c] entries per foundation element, the target's has
    one per element of the target table, and entry [r] of block [j] of the
    target's is entry [r] of block [indices_weights[j]] of the
    foundation's divided by
    [sqrt (foundation species count / target species count)], where
    [indices_weights[j]] is the position of the [j]-th target element
    among the foundation's. *)
Theorem load_foundations_node_embedding (table : AtomicNumberTable)
    (load_readout use_shift use_scale : bool) (max_L : Z)
    (s s' : store num) (l : loc) :
  load_foundations model model_foundations table load_readout use_shift
    use_scale max_L s = (Ret l, s') ->
  exists indices_weights : list nat,
    Forall2 (fun z i =>
               list_index z (atomic_numbers (s model_foundations)) = Some i)
            (zs table) indices_weights /\
    length (node_embedding_weight (s model_foundations))
    = length (atomic_numbers (s model_foundations))
      * (length (node_embedding_weight (s model_foundations))
           `div` length (atomic_numbers (s model_foundations))) /\
    length (node_embedding_weight (s' model))
    = length (zs table)
      * (length (node_embedding_weight (s model_foundations))
           `div` length (atomic_numbers (s model_foundations))) /\
    forall j i r,
      indices_weights !! j = Some i ->
      r < length (node_embedding_weight (s model_foundations))
            `div` length (atomic_numbers (s model_foundations)) ->
      node_embedding_weight (s' model)
        !! (j * (length (node_embedding_weight (s model_foundations))
                   `div` length (atomic_numbers (s model_foundations)))
            + r)
      = (fun x =>
           a_div x
             (a_sqrt (a_div
                (a_of_nat (length (atomic_numbers (s model_foundations))))
                (a_of_nat (length (zs table))))))
          <$> node_embedding_weight (s model_foundations)
                !! (i * (length (node_embedding_weight (s model_foundations))
                           `div` length
                                   (atomic_numbers (s model_foundations)))
                    + r).
Proof.
  intros (idx & Hspec & Hlen & Hw)%load_foundations_node_embedding_blocks.
  pose proof (index_list_lt _ _ _ Hspec) as Hlt.
  destruct (select_blocks _ _ _ idx Hlen Hlt) as [Hsel_len Hsel].
  exists idx. split; [done|]. split; [done|]. split.
  - rewrite Hw, tensor_div_length, Hsel_len.
    by rewrite (Forall2_length _ _ _ Hspec).
  - intros j i r Hj Hr. rewrite Hw, tensor_div_lookup.
    by rewrite (Hsel j i r Hj Hr).
Qed.

(** C3: the lookup raises exactly on a number that is not in the table,
    and a call whose target table has a number the foundation table lacks
    raises before anything is assigned: the [ValueError] of the lookup,
    unless the assertion on the cutoff radius or the division by an empty
    foundation table raised first. *)
Theorem z_to_index_raises_iff_absent :
  (forall (t : AtomicNumberTable) (z : Z),
     z_to_index t z = Raise ValueError <-> z ∉ zs t) /\
  (forall (table : AtomicNumberTable)
          (load_readout use_shift use_scale : bool) (max_L : Z)
          (s : store num) (z : Z),
     z ∈ zs table -> z ∉ atomic_numbers (s model_foundations) ->
     (exists e,
        load_foundations model model_foundations table load_readout
          use_shift use_scale max_L s = (Raise e, s)) /\
     (a_eqb (r_max (s model_foundations)) (r_max (s model)) = true ->
      atomic_numbers (s model_foundations) <> [] ->
      load_foundations model model_foundations table load_readout use_shift
        use_scale max_L s = (Raise ValueError, s))).
Proof.
  split.
  - intros t z. apply z_to_index_raises.
  - intros table lr ush usc mL s z Hz Hnz.
    eapply load_foundations_missing; eauto.
Qed.

(** C5: whether the call returns or raises, every object of the store
    other than the target is as it was, the foundation model among them
    when it is another object than the target; and a call that returns,
    returns the target. *)
Theorem load_foundations_frame (table : AtomicNumberTable)
    (load_readout use_shift use_scale : bool) (max_L : Z) (s : store num) :
  (forall l', l' <> model ->
     (load_foundations model model_foundations table load_readout use_shift
        use_scale max_L s).2 l' = s l') /\
  (model_foundations <> model ->
   (load_foundations model model_foundations table load_readout use_shift
      use_scale max_L s).2 model_foundations = s model_foundations) /\
  (forall l,
     (load_foundations model model_foundations table load_readout use_shift
        use_scale max_L s).1 = Ret l -> l = model).
Proof.
  pose proof (stable_frame_load_foundations model model_foundations table
                load_readout use_shift use_scale max_L s) as Hframe.
  split; [exact Hframe|]. split; [apply Hframe|].
  intros l Hl.
  destruct (load_foundations model model_foundations table load_readout
              use_shift use_scale max_L s) as [r s'] eqn:E.
  simpl in Hl. subst r. by apply load_foundations_ok in E as [-> _].
Qed.

Lemma transfer_bessel_weights_skip (s : store num) :
  bessel_class (bessel_fn (radial_embedding (s model))) <> "BesselBasis" ->
  transfer_bessel_weights model model_foundations s = (Ret tt, s).
Proof.
  intros Hcls%String.eqb_neq. unfold transfer_bessel_weights.
  by rewrite run_read, Hcls.
Qed.

Lemma transfer_bessel_weights_ok (s s' : store num) :
  model_foundations <> model ->
  transfer_bessel_weights model model_foundations s = (Ret tt, s') ->
  bessel_class (bessel_fn (radial_embedding (s model))) = "BesselBasis" ->
  bessel_weights (bessel_fn (radial_embedding (s' model)))
  = bessel_weights (bessel_fn (radial_embedding (s model_foundations))).
Proof.
  intros Hdistinct Hrun Hcls%String.eqb_eq.
  unfold transfer_bessel_weights in Hrun.
  rewrite run_read, Hcls, run_read in Hrun.
  apply assign_ok in Hrun as (m' & [= <-] & ->).
  by rewrite store_lookup_insert.
Qed.

(** The radial embedding of a target whose basis is not of the class
    [BesselBasis] is the same after the call, returning or raising. *)
Lemma radial_embedding_kept table load_readout use_shift use_scale max_L
    (s : store num) :
  bessel_class (bessel_fn (radial_embedding (s model))) <> "BesselBasis" ->
  radial_embedding
    ((load_foundations model model_foundations table load_readout use_shift
        use_scale max_L s).2 model)
  = radial_embedding (s model).
Proof.
  intros Hcls. unfold load_foundations. rewrite !run_read. cbv zeta.
  destruct (a_eqb _ _); [rewrite run_ret | by rewrite run_raise].
  destruct (floordiv _ _) as [ncf|e];
    [rewrite run_lift_Ret | by rewrite run_lift_Raise].
  destruct (comprehension _ _) as [idx|e];
    [rewrite run_lift_Ret | by rewrite run_lift_Raise].
  set (R := obs_rel (num := num) model radial_embedding).
  change (R s
    ((transfer_node_embedding model model_foundations
        (length (zs (AtomicNumberTable_init
                       (atomic_numbers (s model_foundations)))))
        idx (length idx)
      ≫= fun _ => transfer_bessel_weights model model_foundations
      ≫= fun _ => read model
      ≫= fun m => for_range (Z.to_nat (num_interactions m))
           (transfer_interaction model model_foundations
              (length (zs (AtomicNumberTable_init
                             (atomic_numbers (s model_foundations)))))
              ncf idx (out_dim (radial_embedding (s model))) (length idx)
              (spherical_harmonics_lmax (s model)))
      ≫= fun _ => for_range 2
           (transfer_product model model_foundations idx max_L)
      ≫= fun _ => (if load_readout
                   then transfer_readouts model model_foundations
                   else mret tt)
      ≫= fun _ => transfer_scale_shift model model_foundations use_shift
                    use_scale
      ≫= fun _ => mret model) s).2).
  unfold mbind at 1, M_bind at 1.
  destruct (transfer_node_embedding _ _ _ _ _ s) as [[[]|e] s1] eqn:E1;
    pose proof (stable_run R _ _ _ _
      (stable_transfer_node_embedding model model_foundations
         radial_embedding _ _ _ (fun _ _ => eq_refl)) E1) as H1;
    [|exact H1].
  etransitivity; [exact H1|].
  unfold mbind at 1, M_bind at 1.
  rewrite transfer_bessel_weights_skip by (by rewrite H1).
  match goal with
  | |- R ?s0 (?c ?s0).2 => cut (stable R c); [intros Hst; exact (Hst s0)|]
  end.
  stable_structure;
    first [ by apply stable_transfer_interaction
          | by apply stable_transfer_product
          | by apply stable_transfer_readouts
          | by apply stable_transfer_scale_shift ].
Qed.

(** The [else] branch on the weight of [skip_tp], for a block of any
    class other than [RealAgnosticResidualInteractionBlock]. *)
Lemma load_foundations_else_skip_tp (table : AtomicNumberTable)
    (load_readout use_shift use_scale : bool) (max_L : Z)
    (s s' : store num) (l : loc) (i : nat) (b : InteractionBlock num) :
  model_foundations <> model ->
  load_foundations model model_foundations table load_readout use_shift
    use_scale max_L s = (Ret l, s') ->
  i < Z.to_nat (num_interactions (s model)) ->
  interactions (s model) !! i = Some b ->
  interaction_class b <> "RealAgnosticResidualInteractionBlock" ->
  exists bf b' idx sel,
    interactions (s model_foundations) !! i = Some bf /\
    interactions (s' model) !! i = Some b' /\
    Forall2 (fun z k =>
               list_index z (atomic_numbers (s model_foundations))
               = Some k) (zs table) idx /\
    reshape_select
      (length (node_embedding_weight (s model_foundations))
         `div` length (atomic_numbers (s model_foundations))
       * (spherical_harmonics_lmax (s model) + 1))
      (length (atomic_numbers (s model_foundations)))
      (length (node_embedding_weight (s model_foundations))
         `div` length (atomic_numbers (s model_foundations)))
      idx (skip_tp_weight bf) = Ret sel /\
    skip_tp_weight b'
    = tensor_div sel
        (a_sqrt (a_div
           (a_of_nat (length (atomic_numbers (s model_foundations))))
           (a_of_nat (length (zs table))))).
Proof.
  intros Hdistinct Hrun Hi Hb Hcls.
  destruct (load_foundations_interactions _ _ _ _ _ _ _ _ i Hdistinct
              Hrun Hi)
    as (ncf & idx & b0 & bf & w0 & w1 & w2 & w3 & sel & factor & Hncf
        & Hidx & Hb0 & Hbf & _ & _ & _ & _ & _ & Hsel & Hfac & Hb').
  rewrite Hb in Hb0. injection Hb0 as <-.
  apply species_ratio_sqrt_Ret in Hfac as [_ ->].
  pose proof (index_list_spec _ _ _ Hidx) as Hspec.
  unfold floordiv in Hncf. case_decide; [done|]. injection Hncf as <-.
  unfold skip_tp_outer in Hsel.
  apply String.eqb_neq in Hcls. rewrite Hcls in Hsel.
  eexists bf, _, idx, sel. split; [done|]. split; [exact Hb'|].
  split; [done|]. split; [done|]. simpl.
  by rewrite (Forall2_length _ _ _ Hspec).
Qed.

(** C4, as the code has it. A target basis of another class than
    [BesselBasis] skips the copy of the Bessel frequencies: the branch
    returns without a change, and the radial embedding of the target is
    the same after the call. An interaction block of any class other than
    [RealAgnosticResidualInteractionBlock] is not skipped. With [c] the
    number of channels, [L = max_ell + 1] and [n], [n'] the numbers of
    foundation and target elements, a call that returns found [c x L x n
    x c] entries in the foundation's [skip_tp] weight and left [c x L x n'
    x c] in the target's: the entry [(a, e, j, r)] of the target's is the
    entry [(a, e, idx[j], r)] of the foundation's, both in row-major
    order, divided by [sqrt (n / n')], where [idx[j]] is the position of
    the [j]-th target element among the foundation's. *)
Theorem load_foundations_unsupported_subclass :
  (forall (table : AtomicNumberTable)
          (load_readout use_shift use_scale : bool) (max_L : Z)
          (s : store num),
     bessel_class (bessel_fn (radial_embedding (s model))) <> "BesselBasis" ->
     transfer_bessel_weights model model_foundations s = (Ret tt, s) /\
     radial_embedding
       ((load_foundations model model_foundations table load_readout
           use_shift use_scale max_L s).2 model)
     = radial_embedding (s model)) /\
  (forall (table : AtomicNumberTable)
          (load_readout use_shift use_scale : bool) (max_L : Z)
          (s s' : store num) (l : loc) (i : nat) (b : InteractionBlock num),
     model_foundations <> model ->
     load_foundations model model_foundations table load_readout use_shift
       use_scale max_L s = (Ret l, s') ->
     i < Z.to_nat (num_interactions (s model)) ->
     interactions (s model) !! i = Some b ->
     interaction_class b <> "RealAgnosticResidualInteractionBlock" ->
     exists bf b' idx,
       interactions (s model_foundations) !! i = Some bf /\
       interactions (s' model) !! i = Some b' /\
       Forall2 (fun z k =>
                  list_index z (atomic_numbers (s model_foundations))
                  = Some k) (zs table) idx /\
       length (skip_tp_weight bf)
       = length (node_embedding_weight (s model_foundations))
           `div` length (atomic_numbers (s model_foundations))
         * (spherical_harmonics_lmax (s model) + 1)
         * length (atomic_numbers (s model_foundations))
         * (length (node_embedding_weight (s model_foundations))
              `div` length (atomic_numbers (s model_foundations))) /\
       length (skip_tp_weight b')
       = length (node_embedding_weight (s model_foundations))
           `div` length (atomic_numbers (s model_foundations))
         * (spherical_harmonics_lmax (s model) + 1)
         * length (zs table)
         * (length (node_embedding_weight (s model_foundations))
              `div` length (atomic_numbers (s model_foundations))) /\
       forall a e j k r,
         a < length (node_embedding_weight (s model_foundations))
               `div` length (atomic_numbers (s model_foundations)) ->
         e < spherical_harmonics_lmax (s model) + 1 ->
         idx !! j = Some k ->
         r < length (node_embedding_weight (s model_foundations))
               `div` length (atomic_numbers (s model_foundations)) ->
         skip_tp_weight b'
           !! (((a * (spherical_harmonics_lmax (s model) + 1) + e)
                * length (zs table) + j)
               * (length (node_embedding_weight (s model_foundations))
                    `div` length (atomic_numbers (s model_foundations)))
               + r)
         = (fun x =>
              a_div x
                (a_sqrt (a_div
                   (a_of_nat
                      (length (atomic_numbers (s model_foundations))))
                   (a_of_nat (length (zs table))))))
             <$> skip_tp_weight bf
                   !! (((a * (spherical_harmonics_lmax (s model) + 1) + e)
                        * length (atomic_numbers (s model_foundations)) + k)
                       * (length
                            (node_embedding_weight (s model_foundations))
                            `div` length
                                    (atomic_numbers (s model_foundations)))
                       + r)).
Proof.
  split.
  - intros table lr ush usc mL s Hcls. split.
    + by apply transfer_bessel_weights_skip.
    + by apply radial_embedding_kept.
  - intros table lr ush usc mL s s' l i b Hdistinct Hrun Hi Hb Hcls.
    destruct (load_foundations_else_skip_tp _ _ _ _ _ _ _ _ _ _ Hdistinct
                Hrun Hi Hb Hcls)
      as (bf & b' & idx & sel & Hbf & Hb' & Hspec & Hsel & Hw).
    apply reshape_select_lookup in Hsel as (Hlen & Hlt & Hlen' & Hat).
    pose proof (Forall2_length _ _ _ Hspec) as Hn.
    exists bf, b', idx. split; [done|]. split; [done|]. split; [done|].
    split; [done|]. split.
    + by rewrite Hw, tensor_div_length, Hlen', Hn.
    + intros a e j k r Ha He Hj Hr.
      rewrite Hw, tensor_div_lookup, Hn.
      rewrite (Hat (a * (spherical_harmonics_lmax (s model) + 1) + e) j k r);
        [done | nia | done | done].
Qed.
End Claims.

(** ** The identical table, in exact arithmetic *)

Section IdenticalTable.
Variables model model_foundations : loc.

Lemma species_ratio_sqrt_same (n : nat) :
  n <> 0 -> species_ratio_sqrt (num := R) n n = Ret 1%R.
Proof.
  intros Hn. unfold species_ratio_sqrt. case_decide; [done|].
  f_equal. simpl. unfold Rdiv. rewrite Rinv_r.
  - apply sqrt_1.
  - apply not_0_INR. done.
Qed.

Lemma tensor_div_one (t : list R) : tensor_div t 1%R = t.
Proof.
  unfold tensor_div. induction t as [|x t IH]; [done|].
  cbn [map]. rewrite IH. f_equal. simpl. field.
Qed.

Lemma per_element_blocks_contraction (m : Model R) i j c :
  per_element_blocks m ->
  contraction_at m i j = Some c ->
  length (weights_max c) = length (atomic_numbers m) /\
  forall k w, weights c !! k = Some w ->
              length w = length (atomic_numbers m).
Proof.
  unfold per_element_blocks, contraction_at. intros Hwf Hc.
  destruct (products m !! i) as [p|] eqn:Ep; [|done]. simpl in Hc.
  rewrite Forall_forall in Hwf.
  pose proof (Hwf p (list_elem_of_lookup_2 _ _ _ Ep)) as Hp.
  rewrite Forall_forall in Hp.
  destruct (Hp c (list_elem_of_lookup_2 _ _ _ Hc)) as [Hmax Hws].
  split; [done|]. intros k w Hw. rewrite Forall_forall in Hws.
  apply Hws. by eapply list_elem_of_lookup_2.
Qed.

(** C2, as the code has it. With the foundation's own duplicate-free
    table as the target table, a call that returns divided by the factor
    [1] and left every tensor it copied equal to the foundation's, the
    first layer of each radial network excepted: the target holds the
    first [out_dim] rows of it, [out_dim] being the radial dimension of
    the target. *)
Theorem load_foundations_identical_table
    (load_readout use_shift use_scale : bool) (max_L : Z)
    (s s' : store R) (l : loc) :
  model_foundations <> model ->
  NoDup (atomic_numbers (s model_foundations)) ->
  per_element_blocks (s model_foundations) ->
  load_foundations model model_foundations
    (AtomicNumberTable_init (atomic_numbers (s model_foundations)))
    load_readout use_shift use_scale max_L s = (Ret l, s') ->
  species_ratio_sqrt (num := R)
    (length (atomic_numbers (s model_foundations)))
    (length (atomic_numbers (s model_foundations))) = Ret 1%R /\
  node_embedding_weight (s' model)
  = node_embedding_weight (s model_foundations) /\
  (bessel_class (bessel_fn (radial_embedding (s model))) = "BesselBasis" ->
   bessel_weights (bessel_fn (radial_embedding (s' model)))
   = bessel_weights (bessel_fn (radial_embedding (s model_foundations)))) /\
  (forall i, i < Z.to_nat (num_interactions (s model)) ->
     exists bf b',
       interactions (s model_foundations) !! i = Some bf /\
       interactions (s' model) !! i = Some b' /\
       linear_up_weight b' = linear_up_weight bf /\
       avg_num_neighbors b' = avg_num_neighbors bf /\
       linear_weight b' = linear_weight bf /\
       skip_tp_weight b' = skip_tp_weight bf /\
       conv_tp_weights b' !! 0
       = take (out_dim (radial_embedding (s model)))
           <$> conv_tp_weights bf !! 0 /\
       (forall j, 1 <= j < 4 ->
          conv_tp_weights b' !! j = conv_tp_weights bf !! j)) /\
  (forall i, i < 2 ->
     exists pf p',
       products (s model_foundations) !! i = Some pf /\
       products (s' model) !! i = Some p' /\
       product_linear_weight p' = product_linear_weight pf) /\
  (forall i j,
     i < 2 ->
     j < Z.to_nat (if decide (i = 0) then (max_L + 1)%Z else 1%Z) ->
     exists cf c',
       contraction_at (s model_foundations) i j = Some cf /\
       contraction_at (s' model) i j = Some c' /\
       weights_max c' = weights_max cf /\
       weights c' !! 0 = weights cf !! 0 /\
       weights c' !! 1 = weights cf !! 1) /\
  (load_readout = true ->
   readouts (s' model) !! 0 = readouts (s model_foundations) !! 0 /\
   readouts (s' model) !! 1 = readouts (s model_foundations) !! 1 /\
   exists w w1 w2,
     readouts (s model_foundations) !! 0 = Some (LinearReadoutBlock w) /\
     readouts (s model_foundations) !! 1
     = Some (NonLinearReadoutBlock w1 w2)) /\
  (forall ssf, scale_shift (s model_foundations) = Some ssf ->
     (use_scale = true ->
      scale <$> scale_shift (s' model) = Some (scale ssf)) /\
     (use_shift = true ->
      shift <$> scale_shift (s' model) = Some (shift ssf))).
Proof.
  intros Hdistinct Hnd Hwf Hrun.
  pose proof (load_foundations_chain _ _ _ _ _ _ _ _ _ _ Hrun)
    as (ncf & idx & s1 & s2 & s3 & s4 & s5 & Hncf & Hidx & Hne & Hbw & Hint
        & Hprod & Hread & Hss & Hframe & K1 & K2 & K3 & K4 & K5 & K6).
  destruct (Hframe model_foundations Hdistinct) as (F1 & F2 & F3 & F4 & F5).
  simpl zs in Hidx. apply identity_indices in Hidx as Hid; [|done].
  assert (length idx = length (atomic_numbers (s model_foundations))) as Hlen.
  { by rewrite Hid, length_seq. }
  assert (length (atomic_numbers (s model_foundations)) <> 0) as Hn0.
  { unfold floordiv in Hncf. by case_decide. }
  pose proof (species_ratio_sqrt_same _ Hn0) as Hone.
  split; [exact Hone|]. split; [|split; [|split; [|split; [|split; [|split]]]]].
  - (* node embedding *)
    apply transfer_node_embedding_ok in Hne
      as (factor & Hfac & _ & Hmod & _ & Hw).
    rewrite Hlen, Hone in Hfac. injection Hfac as <-.
    rewrite (K6 _ node_embedding_weight), (K5 _ node_embedding_weight),
      (K4 _ node_embedding_weight), (K3 _ node_embedding_weight),
      (K2 _ node_embedding_weight), Hw by done.
    rewrite tensor_div_one, Hid, concat_species_blocks.
    apply take_ge. apply Nat.Div0.div_exact in Hmod. lia.
  - (* Bessel frequencies *)
    intros Hcls.
    rewrite (K6 _ radial_embedding), (K5 _ radial_embedding),
      (K4 _ radial_embedding), (K3 _ radial_embedding) by done.
    rewrite <- F1. apply transfer_bessel_weights_ok; [done..|].
    by rewrite (K1 _ radial_embedding).
  - (* interactions *)
    intros i Hi.
    destruct (load_foundations_interactions _ _ _ _ _ _ _ _ _ _ i Hdistinct
                Hrun Hi)
      as (ncf' & idx' & b & bf & w0 & w1 & w2 & w3 & sel & factor & Hncf'
          & Hidx' & Hb & Hbf & Hw0 & Hw1 & Hw2 & Hw3 & Hl3 & Hsel & Hfac
          & Hb').
    simpl zs in Hidx'. rewrite Hidx in Hidx'. injection Hidx' as <-.
    rewrite Hlen, Hone in Hfac. injection Hfac as <-.
    rewrite Hid in Hsel. apply reshape_select_all in Hsel as ->.
    eexists bf, _. split; [done|]. split; [exact Hb'|]. simpl.
    rewrite tensor_div_one. do 4 (split; [done|]). split.
    + rewrite !list_lookup_insert_ne by done.
      rewrite list_lookup_insert_eq by lia. by rewrite Hw0.
    + intros j Hj.
      destruct (decide (j = 1)) as [->|];
        [|destruct (decide (j = 2)) as [->|];
          [|assert (j = 3) as -> by lia]].
      * rewrite !list_lookup_insert_ne by done.
        rewrite list_lookup_insert_eq by (rewrite length_insert; lia). done.
      * rewrite !list_lookup_insert_ne by done.
        rewrite list_lookup_insert_eq by (rewrite !length_insert; lia). done.
      * rewrite list_lookup_insert_eq by (rewrite !length_insert; lia). done.
  - (* the linear weight of the product blocks *)
    intros i Hi.
    destruct (products_loop_ok _ _ Hdistinct _ _ i _ _ Hi Hprod)
      as ((pf & p' & Hpf & Hp' & Hlin) & _).
    exists pf, p'. rewrite F3 in Hpf.
    rewrite (K6 _ products), (K5 _ products) by done. done.
  - (* the contractions *)
    intros i j Hi Hj.
    destruct (products_loop_ok _ _ Hdistinct _ _ i _ _ Hi Hprod)
      as (_ & Hcon).
    destruct (Hcon j Hj)
      as (c & cf & wm & wk0 & wk1 & w0 & w1 & Hc & Hcf & Hwm & Hwk0 & Hw0
          & Hwk1 & Hw1 & Hl1 & Hc').
    rewrite F3 in Hcf.
    destruct (per_element_blocks_contraction _ _ _ _ Hwf Hcf) as [Hmax Hws].
    rewrite Hid in Hwm, Hw0, Hw1.
    apply index_select_all_length in Hwm as ->; [|done].
    apply index_select_all_length in Hw0 as ->; [|by eapply Hws].
    apply index_select_all_length in Hw1 as ->; [|by eapply Hws].
    eexists cf, _. split; [done|]. split.
    + unfold contraction_at.
      rewrite (K6 _ products), (K5 _ products) by done. exact Hc'.
    + simpl. split; [done|]. split.
      * rewrite list_lookup_insert_ne by done.
        rewrite list_lookup_insert_eq by lia. done.
      * rewrite list_lookup_insert_eq by (rewrite length_insert; lia). done.
  - (* readouts *)
    intros ->.
    apply transfer_readouts_ok in Hread
      as (w & w1 & w2 & Hr0 & Hr1 & Hr0' & Hr1'); [|done].
    rewrite F4 in Hr0, Hr1.
    rewrite (K6 _ readouts) by done. rewrite Hr0', Hr1', Hr0, Hr1.
    split; [done|]. split; [done|]. by exists w, w1, w2.
  - (* scale and shift *)
    intros ssf Hssf. rewrite <- F5 in Hssf.
    destruct (transfer_scale_shift_ok _ _ Hdistinct _ _ _ _ _ Hss Hssf)
      as [Hsc Hsh].
    split; intros Hu.
    + destruct (Hsc Hu) as (ss' & -> & <-). done.
    + destruct (Hsh Hu) as (ss' & -> & <-). done.
Qed.
End IdenticalTable.

(** ** The example call *)

Section ExampleCall.
Context {num : Type} `{Arith num}.
Hypothesis a_eqb_refl : forall x : num, a_eqb x x = true.

(** The example call with the foundation's own table returns, in any
    arithmetic in which a number equals itself. *)
Lemma example_call_returns :
  (example_call (num := num) [1; 6; 8]%Z 3 0 "BesselBasis"
     "RealAgnosticResidualInteractionBlock").1 = Ret 1%positive.
Proof.
  unfold example_call, load_foundations. rewrite !run_read. cbv zeta.
  cbn [example_store example_target example_foundation r_max decide].
  rewrite a_eqb_refl, run_ret. vm_compute. reflexivity.
Qed.
End ExampleCall.

Lemma R_eqb_refl (x : R) : a_eqb x x = true.
Proof. simpl. destruct (Req_dec_T x x); congruence. Qed.

Lemma example_per_element_blocks {num : Type} `{Arith num} cls :
  per_element_blocks (example_foundation (num := num) cls).
Proof.
  unfold per_element_blocks, example_foundation. simpl.
  repeat (constructor; simpl; try done).
Qed.

Lemma example_NoDup : NoDup [1; 6; 8]%Z.
Proof.
  rewrite !NoDup_cons, !not_elem_of_cons. repeat split; try lia.
  - apply not_elem_of_nil.
  - apply not_elem_of_nil.
  - apply not_elem_of_nil.
  - apply NoDup_nil_2.
Qed.

Lemma pair_eta {X Y} (p : X * Y) x : p.1 = x -> p = (x, p.2).
Proof. destruct p. simpl. by intros ->. Qed.

(** C2 applies to the example: with the foundation's own table and radial
    dimension the call returns, and the node embedding of the target is the
    foundation's. *)
Lemma load_foundations_identical_table_witness :
  (example_call (num := R) [1; 6; 8]%Z 3 0 "BesselBasis"
     "RealAgnosticResidualInteractionBlock").1 = Ret 1%positive /\
  node_embedding_weight
    ((example_call (num := R) [1; 6; 8]%Z 3 0 "BesselBasis"
        "RealAgnosticResidualInteractionBlock").2 1%positive)
  = numbers [1; 2; 3; 4; 5; 6].
Proof.
  split; [exact (example_call_returns R_eqb_refl)|].
  exact (proj1 (proj2
    (load_foundations_identical_table 1%positive 2%positive true true true 0
       (example_store
          (example_target [1; 6; 8]%Z 3 0 "BesselBasis"
             "RealAgnosticResidualInteractionBlock")
          (example_foundation "RealAgnosticResidualInteractionBlock"))
       _ 1%positive ltac:(discriminate) example_NoDup
       (example_per_element_blocks _)
       (pair_eta _ _ (example_call_returns R_eqb_refl))))).
Defined.

Section ExampleFloat.

(** C1 applies to the example: for the target table [O, H] the call
    returns, the index list is [2, 0], and the node embedding of the
    target is the blocks 2 and 0 of the foundation's, every entry divided
    by [sqrt (3 / 2)]. *)
Lemma load_foundations_node_embedding_witness :
  (example_call (num := float) [8; 1]%Z 3 0 "BesselBasis"
     "RealAgnosticResidualInteractionBlock").1 = Ret 1%positive /\
  (exists indices_weights : list nat,
     Forall2 (fun z i => list_index z [1; 6; 8]%Z = Some i) [8; 1]%Z
       indices_weights /\
     6 = 3 * (6 `div` 3) /\
     length
       (node_embedding_weight
          ((example_call (num := float) [8; 1]%Z 3 0 "BesselBasis"
              "RealAgnosticResidualInteractionBlock").2 1%positive))
     = 2 * (6 `div` 3) /\
     forall j i r,
       indices_weights !! j = Some i ->
       r < 6 `div` 3 ->
       node_embedding_weight
         ((example_call (num := float) [8; 1]%Z 3 0 "BesselBasis"
             "RealAgnosticResidualInteractionBlock").2 1%positive)
         !! (j * (6 `div` 3) + r)
       = (fun x => (x / PrimFloat.sqrt (3 / 2))%float)
           <$> numbers [1; 2; 3; 4; 5; 6] !! (i * (6 `div` 3) + r)) /\
  node_embedding_weight
    ((example_call (num := float) [8; 1]%Z 3 0 "BesselBasis"
        "RealAgnosticResidualInteractionBlock").2 1%positive)
  = [5 / PrimFloat.sqrt (3 / 2); 6 / PrimFloat.sqrt (3 / 2);
     1 / PrimFloat.sqrt (3 / 2); 2 / PrimFloat.sqrt (3 / 2)]%float.
Proof.
  split; [vm_compute; reflexivity|]. split; [|vm_compute; reflexivity].
  exact (load_foundations_node_embedding 1%positive 2%positive
           (AtomicNumberTable_init [8; 1]%Z) true true true 0
           (example_store
              (example_target [8; 1]%Z 3 0 "BesselBasis"
                 "RealAgnosticResidualInteractionBlock")
              (example_foundation "RealAgnosticResidualInteractionBlock"))
           _ 1%positive
           (pair_eta _ _ ltac:(vm_compute; reflexivity))).
Defined.

(** C1 as stated fails when [rescaled by] is read as a multiplication.
    On the example for the target table [O, H] the first entry of the new
    embedding is the foundation's entry [5], the first of the block of
    oxygen, divided by [sqrt (3 / 2)]: it is below [5], where the product
    with [sqrt (3 / 2)] is above. *)
Lemma node_embedding_divided_not_multiplied :
  (example_call (num := float) [8; 1]%Z 3 0 "BesselBasis"
     "RealAgnosticResidualInteractionBlock").1 = Ret 1%positive /\
  node_embedding_weight
    (example_foundation (num := float)
       "RealAgnosticResidualInteractionBlock") !! 4 = Some 5%float /\
  node_embedding_weight
    ((example_call (num := float) [8; 1]%Z 3 0 "BesselBasis"
        "RealAgnosticResidualInteractionBlock").2 1%positive) !! 0
  = Some (5 / PrimFloat.sqrt (3 / 2))%float /\
  PrimFloat.ltb (5 / PrimFloat.sqrt (3 / 2)) 5 = true /\
  PrimFloat.ltb 5 (5 * PrimFloat.sqrt (3 / 2)) = true /\
  PrimFloat.eqb (5 / PrimFloat.sqrt (3 / 2)) (5 * PrimFloat.sqrt (3 / 2))
  = false.
Proof. vm_compute. repeat split. Qed.

(** C2 as stated fails. The example target has two radial basis
    functions where the foundation model has three; with the foundation's
    own table the call returns, and the first radial layer of the target
    is the first two rows of the foundation's three. *)
Lemma identical_table_first_layer_sliced :
  (example_call (num := float) [1; 6; 8]%Z 2 0 "BesselBasis"
     "RealAgnosticResidualInteractionBlock").1 = Ret 1%positive /\
  (conv_tp_weights <$>
     interactions
       ((example_call (num := float) [1; 6; 8]%Z 2 0 "BesselBasis"
           "RealAgnosticResidualInteractionBlock").2 1%positive) !! 0)
  ≫= (fun layers => layers !! 0)
  = Some [numbers [1; 2]; numbers [3; 4]] /\
  (conv_tp_weights <$>
     interactions
       (example_foundation (num := float)
          "RealAgnosticResidualInteractionBlock") !! 0)
  ≫= (fun layers => layers !! 0)
  = Some [numbers [1; 2]; numbers [3; 4]; numbers [5; 6]].
Proof. vm_compute. repeat split. Qed.

(** C4 as stated fails. A target interaction block of the class
    [RealAgnosticAttResidualInteractionBlock], for which the function has
    no case, is not skipped: the call overwrites its empty [skip_tp]
    weight with the foundation's; and when the target has [max_ell = 1]
    the same call raises, the foundation's weight having no
    [2 x 2 x 3 x 2] layout. *)
Lemma unsupported_interaction_not_skipped :
  (example_call (num := float) [1; 6; 8]%Z 3 0 "BesselBasis"
     "RealAgnosticAttResidualInteractionBlock").1 = Ret 1%positive /\
  skip_tp_weight <$>
    interactions
      (example_target (num := float) [1; 6; 8]%Z 3 0 "BesselBasis"
         "RealAgnosticAttResidualInteractionBlock") !! 0
  = Some [] /\
  skip_tp_weight <$>
    interactions
      ((example_call (num := float) [1; 6; 8]%Z 3 0 "BesselBasis"
          "RealAgnosticAttResidualInteractionBlock").2 1%positive) !! 0
  = Some (numbers [1; 2; 3; 4; 5; 6; 7; 8; 9; 10; 11; 12]) /\
  (example_call (num := float) [1; 6; 8]%Z 3 1 "BesselBasis"
     "RealAgnosticAttResidualInteractionBlock").1 = Raise RuntimeError.
Proof. vm_compute. repeat split. Qed.

(** A target basis of the class [GaussianBasis] keeps its (empty)
    frequencies. *)
Example load_foundations_gaussian_basis_skipped :
  (example_call (num := float) [1; 6; 8]%Z 3 0 "GaussianBasis"
     "RealAgnosticResidualInteractionBlock").1 = Ret 1%positive /\
  bessel_weights (bessel_fn (radial_embedding
    ((example_call (num := float) [1; 6; 8]%Z 3 0 "GaussianBasis"
        "RealAgnosticResidualInteractionBlock").2 1%positive))) = [].
Proof. vm_compute. repeat split. Qed.

(** A target table with nitrogen, which the foundation model does not
    have, raises the [ValueError] of the lookup and leaves the target as
    it was. *)
Example load_foundations_missing_nitrogen :
  (example_call (num := float) [1; 7]%Z 3 0 "BesselBasis"
     "RealAgnosticResidualInteractionBlock").1 = Raise ValueError /\
  (example_call (num := float) [1; 7]%Z 3 0 "BesselBasis"
     "RealAgnosticResidualInteractionBlock").2 1%positive
  = example_target [1; 7]%Z 3 0 "BesselBasis"
      "RealAgnosticResidualInteractionBlock".
Proof. vm_compute. repeat split. Qed.

(** The foundation model at location 2 is as it was after the call, and
    the call returns the location of the target. *)
Example load_foundations_example_frame :
  (example_call (num := float) [8; 1]%Z 3 0 "BesselBasis"
     "RealAgnosticResidualInteractionBlock").1 = Ret 1%positive /\
  (example_call (num := float) [8; 1]%Z 3 0 "BesselBasis"
     "RealAgnosticResidualInteractionBlock").2 2%positive
  = example_foundation "RealAgnosticResidualInteractionBlock".
Proof. vm_compute. repeat split. Qed.

(** Hydrogen twice, oxygen and carbon give the table [1, 6, 8], in which
    carbon has index 1; a negative index counts from the end. *)
Example get_atomic_number_table_from_zs_example :
  get_atomic_number_table_from_zs [8; 1; 6; 1]%Z
  = AtomicNumberTable_init [1; 6; 8]%Z /\
  z_to_index (get_atomic_number_table_from_zs [8; 1; 6; 1]%Z) 6 = Ret 1 /\
  index_to_z (get_atomic_number_table_from_zs [8; 1; 6; 1]%Z) 1 = Ret 6%Z /\
  index_to_z (get_atomic_number_table_from_zs [8; 1; 6; 1]%Z) (-1)
  = Ret 8%Z /\
  index_to_z (get_atomic_number_table_from_zs [8; 1; 6; 1]%Z) 3
  = Raise IndexError.
Proof. vm_compute. repeat split. Qed.

(** In binary64: of the three entries 0.5, 2 and -2 only the first is
    strictly below the threshold 2, and [compute_c] is the double nearest
    to one third. *)
Example compute_c_binary64 :
  compute_c [0.5; 2; -2]%float 2%float = (1 / 3)%float /\
  PrimFloat.leb 0 (compute_c [0.5; 2; -2]%float 2%float) = true /\
  PrimFloat.leb (compute_c [0.5; 2; -2]%float 2%float) 1 = true.
Proof. vm_compute. repeat split. Qed.
End ExampleFloat.

(** * Further properties *)

(** ** Tables and index lookups *)

Section TableExtra.
Implicit Types (l : list Z) (t : AtomicNumberTable).

(** X1: [index_to_z] accepts exactly the indices of [-len, len): outside
    it raises [IndexError] and nothing else, and a negative index [i - len]
    gives the entry at position [i]. *)
Theorem index_to_z_bounds t (index : Z) :
  (index_to_z t index = Raise IndexError <->
   ~ (- Z.of_nat (length (zs t)) <= index < Z.of_nat (length (zs t)))%Z) /\
  (forall e, index_to_z t index = Raise e -> e = IndexError) /\
  ((0 <= index < Z.of_nat (length (zs t)))%Z ->
   index_to_z t (index - Z.of_nat (length (zs t))) = index_to_z t index /\
   exists z, zs t !! Z.to_nat index = Some z /\
             index_to_z t index = Ret z).
Proof.
  unfold index_to_z, list_getitem. cbv zeta.
  set (n := Z.of_nat (length (zs t))).
  split; [|split].
  - destruct (Z.ltb_spec index 0) as [Hneg|Hpos].
    + destruct (Z.leb_spec 0 (index + n)) as [Hlo|Hlo]; cbn [andb].
      * destruct (Z.ltb_spec (index + n) n) as [Hhi|Hhi]; [|lia].
        destruct (lookup_lt_is_Some_2 (zs t) (Z.to_nat (index + n)))
          as [z ->]; [lia|].
        split; [discriminate | lia].
      * split; [lia | done].
    + destruct (Z.leb_spec 0 index) as [Hlo|Hlo]; [|lia]. cbn [andb].
      destruct (Z.ltb_spec index n) as [Hhi|Hhi].
      * destruct (lookup_lt_is_Some_2 (zs t) (Z.to_nat index)) as [z ->];
          [lia|].
        split; [discriminate | lia].
      * split; [lia | done].
  - intros e.
    destruct (_ && _)%bool; [|by intros [= <-]].
    destruct (zs t !! _); [discriminate | by intros [= <-]].
  - intros Hi.
    destruct (Z.ltb_spec (index - n) 0) as [_|?]; [|lia].
    destruct (Z.ltb_spec index 0) as [?|_]; [lia|].
    replace (index - n + n)%Z with index by lia.
    split; [done|].
    destruct (Z.leb_spec 0 index) as [_|?]; [|lia].
    destruct (Z.ltb_spec index n) as [_|?]; [|lia]. cbn [andb].
    destruct (lookup_lt_is_Some_2 (zs t) (Z.to_nat index)) as [z Hz]; [lia|].
    exists z. by rewrite Hz.
Qed.

(** X2: [z_to_index] returns the first position that holds the number,
    so on any table, with or without duplicates, looking up the entry at
    position [i] gives a position that is at most [i] and holds the same
    number. *)
Theorem z_to_index_first_position t :
  (forall z i, z_to_index t z = Ret i ->
     zs t !! i = Some z /\ forall j, j < i -> zs t !! j <> Some z) /\
  (forall i z, zs t !! i = Some z ->
     exists j, z_to_index t z = Ret j /\ j <= i /\ zs t !! j = Some z).
Proof.
  split.
  - intros z i Hi. unfold z_to_index in Hi.
    destruct (list_index z (zs t)) as [i'|] eqn:E; [|done].
    injection Hi as ->. apply list_index_Some in E as [Hl Hfirst].
    split; [done|]. intros j Hj Hz. by eapply Hfirst.
  - intros i z Hz.
    destruct (list_index_elem_of z (zs t)) as [j Hj].
    { by eapply list_elem_of_lookup_2. }
    exists j. unfold z_to_index. rewrite Hj.
    apply list_index_Some in Hj as [Hl Hfirst].
    split; [done|]. split; [|done].
    destruct (decide (j <= i)) as [|Hgt]; [done|].
    exfalso. eapply (Hfirst i z); [lia | done | done].
Qed.

Lemma z_to_index_Ret_lookup t z i :
  z_to_index t z = Ret i -> zs t !! i = Some z.
Proof.
  unfold z_to_index. destruct (list_index z (zs t)) as [j|] eqn:E; [|done].
  intros [= <-]. by apply list_index_Some in E as [? _].
Qed.

Lemma z_set_list_to_set l :
  fold_left (fun (s : gset Z) z => s ∪ {[ z ]}) l ∅ = list_to_set l.
Proof.
  apply set_eq. intros z.
  rewrite <- elem_of_elements, z_set_elements, elem_of_list_to_set. done.
Qed.

Lemma from_zs_ext l1 l2 :
  (forall z, z ∈ l1 <-> z ∈ l2) ->
  get_atomic_number_table_from_zs l1 = get_atomic_number_table_from_zs l2.
Proof.
  intros Hl. unfold get_atomic_number_table_from_zs. cbv zeta.
  rewrite !z_set_list_to_set. do 3 f_equal.
  apply set_eq. intros z. rewrite !elem_of_list_to_set. apply Hl.
Qed.

Lemma from_zs_sorted_fixed l :
  StronglySorted Z.lt l ->
  get_atomic_number_table_from_zs l = AtomicNumberTable_init l.
Proof.
  intros Hs. pose proof (from_zs_sorted l) as Hs'.
  destruct (get_atomic_number_table_from_zs l) as [l'] eqn:E.
  simpl in Hs'. f_equal.
  apply (StronglySorted_unique_strong Z.lt); [intros; lia | done | done |].
  apply NoDup_Permutation.
  - by apply StronglySorted_lt_NoDup.
  - by apply StronglySorted_lt_NoDup.
  - intros z. pose proof (from_zs_elem_of l z) as Hz.
    rewrite E in Hz. exact Hz.
Qed.

(** X3: the table depends on the members of the collection only: two
    collections with the same members, in any order and with any
    repetitions, give the same table. *)
Theorem get_atomic_number_table_from_zs_members l1 l2 :
  (forall z, z ∈ l1 <-> z ∈ l2) ->
  get_atomic_number_table_from_zs l1 = get_atomic_number_table_from_zs l2.
Proof. apply from_zs_ext. Qed.

Lemma get_atomic_number_table_from_zs_members_witness :
  get_atomic_number_table_from_zs [8; 1; 6; 1]%Z
  = get_atomic_number_table_from_zs [1; 6; 8; 8]%Z.
Proof.
  apply get_atomic_number_table_from_zs_members.
  intros z. rewrite !elem_of_cons, !elem_of_nil. tauto.
Defined.

(** X4: building a table from the entries of a built table changes
    nothing, and a strictly ascending list is its own table. *)
Theorem get_atomic_number_table_from_zs_idempotent :
  (forall l,
     get_atomic_number_table_from_zs
       (zs (get_atomic_number_table_from_zs l))
     = get_atomic_number_table_from_zs l) /\
  (forall l, StronglySorted Z.lt l ->
     get_atomic_number_table_from_zs l = AtomicNumberTable_init l).
Proof.
  split.
  - intros l. apply from_zs_ext. intros z. apply from_zs_elem_of.
  - apply from_zs_sorted_fixed.
Qed.

(** X5: a built table is never longer than the collection it is built
    from, as long exactly when the collection has no repeated entry, and
    empty for the empty collection. *)
Theorem get_atomic_number_table_from_zs_length l :
  AtomicNumberTable_len (get_atomic_number_table_from_zs l) <= length l /\
  (AtomicNumberTable_len (get_atomic_number_table_from_zs l) = length l
   <-> NoDup l) /\
  get_atomic_number_table_from_zs [] = AtomicNumberTable_init [].
Proof.
  unfold AtomicNumberTable_len.
  pose proof (StronglySorted_lt_NoDup _ (from_zs_sorted l)) as Hnd.
  assert (zs (get_atomic_number_table_from_zs l) ⊆+ l) as Hsub.
  { apply NoDup_submseteq; [done|]. intros z. apply from_zs_elem_of. }
  split; [by apply submseteq_length|]. split; [split|].
  - intros Hlen. apply submseteq_length_Permutation in Hsub; [|lia].
    by rewrite <- Hsub.
  - intros Hl. apply Permutation_length, NoDup_Permutation; [done..|].
    intros z. apply from_zs_elem_of.
  - reflexivity.
Qed.

Lemma StronglySorted_lt_lookup l i j x y :
  StronglySorted Z.lt l -> l !! i = Some x -> l !! j = Some y ->
  i < j -> (x < y)%Z.
Proof.
  intros Hs. revert i j. induction Hs as [|a l Hs IH Hall]; intros i j.
  - by rewrite lookup_nil.
  - destruct i as [|i], j as [|j]; simpl; try lia.
    + intros [= <-] Hy _. rewrite Forall_forall in Hall.
      apply Hall. by eapply list_elem_of_lookup_2.
    + intros Hx Hy Hij. apply (IH i j); [done..|lia].
Qed.

(** X6: in a built table the lookup is an order embedding: of two
    numbers of the table the smaller one has the smaller index. *)
Theorem get_atomic_number_table_from_zs_monotone l (z1 z2 : Z) (i1 i2 : nat) :
  z_to_index (get_atomic_number_table_from_zs l) z1 = Ret i1 ->
  z_to_index (get_atomic_number_table_from_zs l) z2 = Ret i2 ->
  ((z1 < z2)%Z <-> i1 < i2).
Proof.
  intros H1 H2. pose proof (from_zs_sorted l) as Hs.
  unfold z_to_index in H1, H2.
  destruct (list_index z1 _) as [j1|] eqn:E1; [|done].
  destruct (list_index z2 _) as [j2|] eqn:E2; [|done].
  injection H1 as ->. injection H2 as ->.
  apply list_index_Some in E1 as [L1 _]. apply list_index_Some in E2 as [L2 _].
  split.
  - intros Hz. destruct (decide (i1 < i2)) as [|Hge]; [done|].
    destruct (decide (i1 = i2)) as [->|Hne]; [simplify_eq; lia|].
    pose proof (StronglySorted_lt_lookup _ i2 i1 _ _ Hs L2 L1). lia.
  - intros Hi. by eapply StronglySorted_lt_lookup.
Qed.

Lemma get_atomic_number_table_from_zs_monotone_witness :
  ((1 < 8)%Z <-> 0 < 2).
Proof.
  apply (get_atomic_number_table_from_zs_monotone [8; 1; 6; 1]%Z 1 8 0 2);
    vm_compute; reflexivity.
Defined.

Lemma atomic_numbers_to_indices_cons z a t :
  atomic_numbers_to_indices (z :: a) t
  = comprehension (z_to_index t) (z :: a).
Proof. reflexivity. Qed.

Lemma comprehension_z_to_index_ok (a : list Z) t :
  Forall (fun z => z ∈ zs t) a ->
  exists idx, comprehension (z_to_index t) a = Ret idx.
Proof.
  induction 1 as [|x xs Hx _ [idx IH]].
  - by exists [].
  - destruct (z_to_index_elem_of t x Hx) as (i & Hi & _).
    exists (i :: idx). simpl. rewrite Hi. simpl. by rewrite IH.
Qed.

Lemma comprehension_z_to_index_raises (a : list Z) t e :
  comprehension (z_to_index t) a = Raise e -> e = ValueError.
Proof.
  induction a as [|x xs IH]; simpl; [done|].
  destruct (z_to_index t x) as [i|e'] eqn:Ex; simpl.
  - destruct (comprehension (z_to_index t) xs); simpl; [done|].
    intros [= <-]. by apply IH.
  - intros [= <-]. by eapply z_to_index_raises.
Qed.

(** X7: [atomic_numbers_to_indices] returns exactly on an array that is
    not empty and whose every entry is in the table; whenever it raises,
    it raises [ValueError]. *)
Theorem atomic_numbers_to_indices_returns (a : list Z) t :
  ((exists idx, atomic_numbers_to_indices a t = Ret idx) <->
   a <> [] /\ Forall (fun z => z ∈ zs t) a) /\
  (forall e, atomic_numbers_to_indices a t = Raise e -> e = ValueError).
Proof.
  destruct a as [|z a].
  - split; [|by intros e [= <-]].
    split; [intros [idx [=]] | intros [[] _]; done].
  - rewrite atomic_numbers_to_indices_cons. split.
    + split.
      * intros [idx Hidx%comprehension_Ret]. split; [done|].
        clear -Hidx. induction Hidx as [|x i xs idx Hx _ IH]; constructor;
          [|done].
        destruct (decide (x ∈ zs t)) as [|Hn]; [done|].
        apply z_to_index_raises in Hn. congruence.
      * intros [_ Hall]. by apply comprehension_z_to_index_ok.
    + apply comprehension_z_to_index_raises.
Qed.

(** X8: the indices [atomic_numbers_to_indices] returns are one per entry
    of the array, each a position of the table, and [index_to_z] at each
    gives the entry back. *)
Theorem atomic_numbers_to_indices_roundtrip (a : list Z) t (idx : list nat) :
  atomic_numbers_to_indices a t = Ret idx ->
  length idx = length a /\
  Forall (fun i => i < AtomicNumberTable_len t) idx /\
  Forall2 (fun z i => index_to_z t (Z.of_nat i) = Ret z) a idx.
Proof.
  intros Hidx.
  assert (Forall2 (fun z i => z_to_index t z = Ret i) a idx) as Hf.
  { destruct a; [done|]. by apply comprehension_Ret. }
  split; [by rewrite (Forall2_length _ _ _ Hf)|].
  assert (Forall2 (fun z i => zs t !! i = Some z) a idx) as Hl.
  { eapply Forall2_impl; [exact Hf|]. intros z i Hi.
    by apply z_to_index_Ret_lookup. }
  split.
  - clear -Hl. induction Hl as [|z i a idx Hi _ IH]; constructor; [|done].
    by eapply lookup_lt_Some.
  - eapply Forall2_impl; [exact Hl|]. intros z i Hi.
    unfold index_to_z. by rewrite list_getitem_nat, Hi.
Qed.

(** X9: the indices of a non-empty collection in its own table: the
    lookup always returns, and the indices it returns are exactly the
    positions of the table, each of them taken by some entry. *)
Theorem atomic_numbers_to_indices_own_table l :
  l <> [] ->
  exists idx,
    atomic_numbers_to_indices l (get_atomic_number_table_from_zs l) = Ret idx /\
    forall i, i ∈ idx <->
              i < AtomicNumberTable_len (get_atomic_number_table_from_zs l).
Proof.
  intros Hl. set (t := get_atomic_number_table_from_zs l).
  destruct (comprehension_z_to_index_ok l t) as [idx Hidx].
  { apply Forall_forall. intros z Hz. by apply from_zs_elem_of. }
  exists idx. split.
  { destruct l; [done|]. exact Hidx. }
  apply comprehension_Ret in Hidx.
  pose proof (StronglySorted_lt_NoDup _ (from_zs_sorted l)) as Hnd.
  fold t in Hnd. unfold AtomicNumberTable_len. intros i. split.
  - intros Hi. apply list_elem_of_lookup_1 in Hi as [k Hk].
    destruct (Forall2_lookup_r _ _ _ _ _ Hidx Hk) as (z & _ & Hz).
    apply z_to_index_Ret_lookup in Hz. by eapply lookup_lt_Some.
  - intros Hi. destruct (lookup_lt_is_Some_2 _ _ Hi) as [z Hz].
    assert (z ∈ l) as Hzl.
    { apply from_zs_elem_of. by eapply list_elem_of_lookup_2. }
    apply list_elem_of_lookup_1 in Hzl as [k Hk].
    destruct (Forall2_lookup_l _ _ _ _ _ Hidx Hk) as (j & Hj & Hzj).
    unfold z_to_index in Hzj.
    rewrite (list_index_NoDup _ _ _ Hnd Hz) in Hzj. injection Hzj as <-.
    by eapply list_elem_of_lookup_2.
Qed.

Lemma atomic_numbers_to_indices_own_table_witness :
  exists idx,
    atomic_numbers_to_indices [8; 1; 1]%Z
      (get_atomic_number_table_from_zs [8; 1; 1]%Z) = Ret idx /\
    forall i, i ∈ idx <->
              i < AtomicNumberTable_len
                    (get_atomic_number_table_from_zs [8; 1; 1]%Z).
Proof.
  apply (atomic_numbers_to_indices_own_table [8; 1; 1]%Z). discriminate.
Defined.

Lemma atomic_numbers_to_indices_roundtrip_witness :
  length [1; 0; 0] = length [8; 1; 1]%Z /\
  Forall (fun i => i < AtomicNumberTable_len (AtomicNumberTable_init [1; 8]%Z))
         [1; 0; 0] /\
  Forall2 (fun z i => index_to_z (AtomicNumberTable_init [1; 8]%Z)
                        (Z.of_nat i) = Ret z)
          [8; 1; 1]%Z [1; 0; 0].
Proof.
  apply (atomic_numbers_to_indices_roundtrip [8; 1; 1]%Z
           (AtomicNumberTable_init [1; 8]%Z) [1; 0; 0]).
  reflexivity.
Defined.
End TableExtra.

(** ** Run tags and the path of the metrics file *)

Section TagExtra.
Implicit Types (s t name directory tag : string) (seed : Z).

Lemma chars_app s t :
  list_ascii_of_string (s +:+ t)
  = list_ascii_of_string s ++ list_ascii_of_string t.
Proof.
  induction s as [|c s IH]; [done|].
  change (String c s +:+ t) with (String c (s +:+ t)).
  simpl. by rewrite IH.
Qed.

Lemma chars_inj s t :
  list_ascii_of_string s = list_ascii_of_string t -> s = t.
Proof.
  intros Hst.
  rewrite <- (string_of_list_ascii_of_string s),
          <- (string_of_list_ascii_of_string t).
  by rewrite Hst.
Qed.

Lemma append_inj_r s1 s2 t : s1 +:+ t = s2 +:+ t -> s1 = s2.
Proof.
  intros Hst. apply chars_inj.
  apply (f_equal list_ascii_of_string) in Hst. rewrite !chars_app in Hst.
  by apply app_inv_tail in Hst.
Qed.

Lemma pretty_N_go_no_underscore (x : N) s :
  "_"%char ∉ list_ascii_of_string s ->
  "_"%char ∉ list_ascii_of_string (pretty_N_go x s).
Proof.
  revert s. induction (N.lt_wf_0 x) as [x _ IH]; intros s Hs.
  assert (x = 0 \/ 0 < x)%N as [->|Hx] by lia.
  - by rewrite pretty_N_go_0.
  - rewrite pretty_N_go_step by done. apply IH.
    { by apply N.div_lt. }
    simpl. rewrite not_elem_of_cons. split; [|done].
    unfold pretty_N_char. by repeat case_match.
Qed.

Lemma pretty_N_no_underscore (x : N) :
  "_"%char ∉ list_ascii_of_string (pretty x).
Proof.
  unfold pretty, pretty_N. case_decide.
  - simpl. rewrite not_elem_of_cons. split; [done | apply not_elem_of_nil].
  - apply pretty_N_go_no_underscore. apply not_elem_of_nil.
Qed.

Lemma pretty_Z_no_underscore seed :
  "_"%char ∉ list_ascii_of_string (pretty seed).
Proof.
  destruct seed as [|p|p]; unfold pretty, pretty_Z.
  - simpl. rewrite not_elem_of_cons. split; [done | apply not_elem_of_nil].
  - apply pretty_N_no_underscore.
  - rewrite chars_app. rewrite not_elem_of_app. split.
    + simpl. rewrite not_elem_of_cons. split; [done | apply not_elem_of_nil].
    + apply pretty_N_no_underscore.
Qed.

(** A string is cut in one way only into a prefix, the separator
    [_run-] and a suffix that holds no underscore. *)
Lemma tag_split (n1 n2 p1 p2 : list ascii) :
  "_"%char ∉ p1 -> "_"%char ∉ p2 ->
  n1 ++ list_ascii_of_string "_run-" ++ p1
  = n2 ++ list_ascii_of_string "_run-" ++ p2 ->
  n1 = n2 /\ p1 = p2.
Proof.
  intros H1 H2. revert n2. induction n1 as [|c n1 IH]; intros [|c' n2].
  - simpl. intros [= ->]. done.
  - simpl. intros [= <- Heq]. exfalso.
    assert ("_"%char ∈ "r"%char :: "u"%char :: "n"%char :: "-"%char :: p1)
      as Hin.
    { rewrite Heq. rewrite elem_of_app. right. left. }
    rewrite !elem_of_cons in Hin.
    destruct Hin as [|[|[|[|]]]]; done.
  - simpl. intros [= -> Heq]. exfalso.
    assert ("_"%char ∈ "r"%char :: "u"%char :: "n"%char :: "-"%char :: p2)
      as Hin.
    { rewrite <- Heq. rewrite elem_of_app. right. left. }
    rewrite !elem_of_cons in Hin.
    destruct Hin as [|[|[|[|]]]]; done.
  - simpl. intros [= -> Heq]. apply IH in Heq as [-> ->]. done.
Qed.

Lemma get_tag_inj_pair name1 name2 seed1 seed2 :
  get_tag name1 seed1 = get_tag name2 seed2 ->
  name1 = name2 /\ seed1 = seed2.
Proof.
  unfold get_tag. intros Heq.
  apply (f_equal list_ascii_of_string) in Heq. rewrite !chars_app in Heq.
  apply tag_split in Heq as [Hn Hp]; try apply pretty_Z_no_underscore.
  split; [by apply chars_inj|].
  by apply (inj pretty), chars_inj.
Qed.

(** X10: [get_tag] is injective: two runs have the same tag only when
    they have the same name and the same seed. *)
Theorem get_tag_injective name1 name2 seed1 seed2 :
  get_tag name1 seed1 = get_tag name2 seed2 ->
  name1 = name2 /\ seed1 = seed2.
Proof. apply get_tag_inj_pair. Qed.

Lemma get_tag_injective_witness :
  "mace" = "mace" /\ 42%Z = 42%Z.
Proof.
  apply (get_tag_injective "mace" "mace" 42 42). reflexivity.
Defined.

Lemma prefix_sep_cons (c : ascii) s :
  String.prefix "/" (String c s) = Ascii.eqb "/" c.
Proof.
  change (String.prefix "/" (String c s))
    with (if ascii_dec "/" c then String.prefix "" s else false).
  destruct (ascii_dec "/" c) as [<-|Hne].
  - by destruct s.
  - symmetry. by apply Ascii.eqb_neq.
Qed.

Lemma prefix_sep_app s t :
  s <> "" -> String.prefix "/" (s +:+ t) = String.prefix "/" s.
Proof.
  destruct s as [|c s]; [done|]. intros _.
  change (String c s +:+ t) with (String c (s +:+ t)).
  by rewrite !prefix_sep_cons.
Qed.

Lemma os_path_join_inj_r a b1 b2 :
  String.prefix "/" b1 = String.prefix "/" b2 ->
  os_path_join a b1 = os_path_join a b2 -> b1 = b2.
Proof.
  unfold os_path_join. intros <-.
  destruct (String.prefix "/" b1); [done|].
  destruct (_ || _)%bool.
  - apply (inj (String.app a)).
  - intros Heq. apply (inj (String.app a)) in Heq.
    by apply (inj (String.app "/")) in Heq.
Qed.

(** X11: for one directory and one name, runs with different seeds write
    their metrics to different files. *)
Theorem MetricsLogger_path_seed directory name seed1 seed2 :
  logger_path (MetricsLogger_init directory (get_tag name seed1))
  = logger_path (MetricsLogger_init directory (get_tag name seed2)) ->
  seed1 = seed2.
Proof.
  unfold MetricsLogger_init, logger_path. intros Heq.
  apply os_path_join_inj_r in Heq.
  - apply append_inj_r in Heq. by apply get_tag_inj_pair in Heq as [_ ?].
  - unfold get_tag. destruct name as [|c name].
    + reflexivity.
    + change (String c name +:+ ?t) with (String c (name +:+ t)).
      change (String c ?u +:+ ?t) with (String c (u +:+ t)).
      by rewrite !prefix_sep_cons.
Qed.

Lemma MetricsLogger_path_seed_witness : 7%Z = 7%Z.
Proof.
  apply (MetricsLogger_path_seed "results" "mace" 7 7). reflexivity.
Defined.

(** X12: the path of the metrics file always ends with the tag and
    [.txt]. A tag that begins with [/] makes the logger drop its
    directory; for any other tag the path is the directory, at most one
    added separator, and the file name. *)
Theorem MetricsLogger_path_directory directory tag :
  (exists pre,
     logger_path (MetricsLogger_init directory tag)
     = pre +:+ tag +:+ ".txt") /\
  (String.prefix "/" tag = true ->
   logger_path (MetricsLogger_init directory tag) = tag +:+ ".txt") /\
  (String.prefix "/" tag = false ->
   exists sep, (sep = "" \/ sep = "/") /\
     logger_path (MetricsLogger_init directory tag)
     = directory +:+ sep +:+ tag +:+ ".txt").
Proof.
  unfold MetricsLogger_init, logger_path, os_path_join.
  assert (String.prefix "/" (tag +:+ ".txt") = String.prefix "/" tag) as ->.
  { destruct tag as [|c tag]; [done|]. by apply prefix_sep_app. }
  split; [|split].
  - destruct (String.prefix "/" tag).
    + by exists "".
    + destruct (_ || _)%bool.
      * by exists directory.
      * exists (directory +:+ "/").
        apply chars_inj. rewrite !chars_app. by rewrite <- !(assoc_L (++)).
  - by intros ->.
  - intros ->. destruct (_ || _)%bool.
    + exists "". split; [by left|]. done.
    + exists "/". split; [by right|]. done.
Qed.

(** X13: the path does not determine the tag: under an absolute
    directory [d] that does not end with a separator, the tag [d/x] and
    the relative tag [x] are different tags that name the same file. *)
Theorem MetricsLogger_path_collision directory tag :
  String.prefix "/" directory = true ->
  ends_with_sep directory = false ->
  String.prefix "/" tag = false ->
  directory +:+ "/" +:+ tag <> tag /\
  logger_path (MetricsLogger_init directory (directory +:+ "/" +:+ tag))
  = logger_path (MetricsLogger_init directory tag).
Proof.
  intros Habs Hend Hrel.
  assert (directory <> "") as Hne by (by intros ->).
  split.
  { intros Heq. rewrite <- Heq, prefix_sep_app in Hrel by done.
    congruence. }
  unfold MetricsLogger_init, logger_path, os_path_join.
  assert (String.prefix "/" (tag +:+ ".txt") = false) as ->.
  { destruct tag as [|c tag]; [done|]. by rewrite prefix_sep_app. }
  rewrite !prefix_sep_app by (try done; by destruct directory).
  rewrite Habs, Hend.
  destruct directory as [|c d]; [done|]. cbn [String.eqb orb].
  apply chars_inj. rewrite !chars_app. by rewrite <- !(assoc_L (++)).
Qed.

Lemma MetricsLogger_path_collision_witness :
  "/a" +:+ "/" +:+ "x" <> "x" /\
  logger_path (MetricsLogger_init "/a" ("/a" +:+ "/" +:+ "x"))
  = logger_path (MetricsLogger_init "/a" "x").
Proof.
  apply (MetricsLogger_path_collision "/a" "x"); reflexivity.
Defined.
End TagExtra.

(** ** Error measures, in exact arithmetic *)

Section StatisticsExtra.
Open Scope R_scope.
Implicit Types (d t : list R).

Lemma np_abs_length d : length (np_abs d) = length d.
Proof. unfold np_abs. apply length_map. Qed.

Lemma np_square_length d : length (np_square d) = length d.
Proof. unfold np_square. apply length_map. Qed.

Lemma Rsum_nonneg_zero (a : list R) :
  Forall (fun x => 0 <= x) a -> Rsum a = 0 -> Forall (fun x => x = 0) a.
Proof.
  induction 1 as [|x a Hx Ha IH]; simpl; intros Hs; constructor.
  - pose proof (Rsum_nonneg a Ha). lra.
  - apply IH. pose proof (Rsum_nonneg a Ha). lra.
Qed.

Lemma Rsum_zero (a : list R) : Forall (fun x => x = 0) a -> Rsum a = 0.
Proof. induction 1 as [|x a -> _ IH]; simpl; lra. Qed.

Lemma np_mean_zero (a : list R) :
  a <> [] -> Forall (fun x => 0 <= x) a ->
  (np_mean a = 0 <-> Forall (fun x => x = 0) a).
Proof.
  intros Ha Hpos. pose proof (INR_length_pos a Ha) as Hn.
  rewrite np_mean_R. split.
  - intros Hz. apply Rsum_nonneg_zero; [done|].
    apply Rmult_integral in Hz as [Hz|Hz]; [done|].
    pose proof (Rinv_0_lt_compat _ Hn). lra.
  - intros Hz. rewrite (Rsum_zero _ Hz). unfold Rdiv. ring.
Qed.

Lemma Rsum_bounds (lo hi : R) (a : list R) :
  Forall (fun x => lo <= x <= hi) a ->
  INR (length a) * lo <= Rsum a <= INR (length a) * hi.
Proof.
  induction 1 as [|x a Hx _ IH].
  - simpl. lra.
  - cbn [length Rsum]. rewrite S_INR. lra.
Qed.

Lemma np_mean_bounds (lo hi : R) (a : list R) :
  a <> [] -> Forall (fun x => lo <= x <= hi) a ->
  lo <= np_mean a <= hi.
Proof.
  intros Ha Hb. pose proof (INR_length_pos a Ha) as Hn.
  pose proof (Rsum_bounds lo hi a Hb) as [Hl Hh].
  rewrite np_mean_R. split.
  - apply Rmult_le_reg_r with (INR (length a)); [done|].
    unfold Rdiv. rewrite Rmult_assoc, Rinv_l by lra. lra.
  - apply Rmult_le_reg_r with (INR (length a)); [done|].
    unfold Rdiv. rewrite Rmult_assoc, Rinv_l by lra. lra.
Qed.

Lemma np_abs_nil_iff d : np_abs d = [] <-> d = [].
Proof. by destruct d. Qed.

Lemma np_square_nil_iff d : np_square d = [] <-> d = [].
Proof. by destruct d. Qed.

Lemma compute_rmse_nonneg d : 0 <= compute_rmse d.
Proof. unfold compute_rmse. apply sqrt_pos. Qed.

(** X14: the mean absolute error and the root mean square error are
    absolutely homogeneous: multiplying every entry by [c] multiplies
    either by [|c|]. *)
Theorem compute_mae_rmse_homogeneous (c : R) d :
  compute_mae (np_scale c d) = Rabs c * compute_mae d /\
  compute_rmse (np_scale c d) = Rabs c * compute_rmse d.
Proof.
  split.
  - apply mean_abs_scale.
  - apply rms_scale.
Qed.

(** X15: on a non-empty array either measure is zero exactly when every
    entry is zero. *)
Theorem compute_mae_rmse_zero d :
  d <> [] ->
  (compute_mae d = 0 <-> Forall (fun x => x = 0) d) /\
  (compute_rmse d = 0 <-> Forall (fun x => x = 0) d).
Proof.
  intros Hd. split.
  - unfold compute_mae.
    rewrite np_mean_zero;
      [|by rewrite np_abs_nil_iff | apply Forall_abs_nonneg].
    unfold np_abs. rewrite Forall_map. apply Forall_iff. intros x. simpl.
    split; [|intros ->; apply Rabs_R0].
    intros Hx. destruct (Req_dec x 0) as [|Hne]; [done|].
    by apply Rabs_no_R0 in Hne.
  - unfold compute_rmse.
    pose proof (np_mean_nonneg _ (Forall_square_nonneg d)) as Hq.
    cbn [a_sqrt R_arith]. split.
    + intros Hz. apply sqrt_eq_0 in Hz; [|done].
      apply np_mean_zero in Hz;
        [|by rewrite np_square_nil_iff | apply Forall_square_nonneg].
      unfold np_square in Hz. rewrite Forall_map in Hz.
      eapply Forall_impl; [exact Hz|]. intros x Hx. simpl in Hx. nra.
    + intros Hz.
      assert (np_mean (np_square d) = 0) as ->; [|apply sqrt_0].
      apply np_mean_zero;
        [by rewrite np_square_nil_iff | apply Forall_square_nonneg |].
      unfold np_square. rewrite Forall_map.
      eapply Forall_impl; [exact Hz|]. intros x ->. simpl. ring.
Qed.

Lemma compute_mae_rmse_zero_witness :
  compute_mae [0; 0] = 0 <-> Forall (fun x => x = 0) [0; 0].
Proof.
  apply (compute_mae_rmse_zero [0; 0]). discriminate.
Defined.

(** X16: both measures lie between the least and the greatest absolute
    value of the entries. *)
Theorem compute_mae_rmse_bounds d (lo hi : R) :
  d <> [] -> 0 <= lo ->
  Forall (fun x => lo <= Rabs x <= hi) d ->
  lo <= compute_mae d <= hi /\ lo <= compute_rmse d <= hi.
Proof.
  intros Hd Hlo Hb. split.
  - unfold compute_mae. apply np_mean_bounds; [by rewrite np_abs_nil_iff|].
    unfold np_abs. by rewrite Forall_map.
  - assert (lo <= hi) as Hlh.
    { destruct d as [|x d]; [done|]. inversion Hb; subst. lra. }
    assert (lo * lo <= np_mean (np_square d) <= hi * hi) as [Hl Hh].
    { apply np_mean_bounds; [by rewrite np_square_nil_iff|].
      unfold np_square. rewrite Forall_map.
      eapply Forall_impl; [exact Hb|]. intros x [Hx1 Hx2]. simpl.
      replace (x * x) with (Rabs x * Rabs x)
        by (unfold Rabs; destruct (Rcase_abs x); ring).
      pose proof (Rabs_pos x). nra. }
    unfold compute_rmse. cbn [a_sqrt R_arith].
    split.
    + rewrite <- (sqrt_square lo) by done. apply sqrt_le_1_alt; lra.
    + rewrite <- (sqrt_square hi) by lra. apply sqrt_le_1_alt; lra.
Qed.

Lemma compute_mae_rmse_bounds_witness :
  1 <= compute_mae [1; -3] <= 3 /\ 1 <= compute_rmse [1; -3] <= 3.
Proof.
  apply (compute_mae_rmse_bounds [1; -3] 1 3); [discriminate | lra |].
  apply List.Forall_cons; [rewrite Rabs_R1; lra|].
  apply List.Forall_cons; [|apply List.Forall_nil].
  unfold Rabs. destruct (Rcase_abs (-3)); lra.
Defined.

(** The guarded ratio [m / (n + 1e-9) * 100] for [m, n >= 0]. *)
Lemma guarded_ratio_bounds (m n : R) :
  0 <= m -> 0 <= n ->
  0 <= m / (n + a_eps) * INR 100 <= m * 10 ^ 11 /\
  (n = 0 -> m / (n + a_eps) * INR 100 = m * 10 ^ 11).
Proof.
  intros Hm Hn. pose proof eps_pos as He.
  replace (INR 100) with 100 by (simpl; lra).
  assert (m * 10 ^ 11 = m / a_eps * 100) as ->.
  { cbn [a_eps R_arith]. field. }
  assert (0 < / (n + a_eps)) as Hi by (apply Rinv_0_lt_compat; lra).
  assert (/ (n + a_eps) <= / a_eps) as Hle.
  { apply Rinv_le_contravar; lra. }
  unfold Rdiv. split; [split|].
  - apply Rmult_le_pos; [|lra]. apply Rmult_le_pos; lra.
  - apply Rmult_le_compat_r; [lra|]. apply Rmult_le_compat_l; lra.
  - intros ->. by rewrite Rplus_0_l.
Qed.

(** X17: the relative measures are not negative and, thanks to the
    [1e-9] added to the norm of the target, at most [10^11] times the
    absolute measure; the bound is reached on a target whose entries are
    all zero. *)
Theorem compute_rel_guard d t :
  d <> [] -> t <> [] ->
  0 <= compute_rel_mae d t <= compute_mae d * 10 ^ 11 /\
  0 <= compute_rel_rmse d t <= compute_rmse d * 10 ^ 11 /\
  (Forall (fun x => x = 0) t ->
   compute_rel_mae d t = compute_mae d * 10 ^ 11 /\
   compute_rel_rmse d t = compute_rmse d * 10 ^ 11).
Proof.
  intros Hd Ht.
  pose proof (compute_mae_nonneg d Hd) as Hm.
  pose proof (compute_mae_nonneg t Ht) as Hn.
  pose proof (compute_rmse_nonneg d) as Hr.
  pose proof (compute_rmse_nonneg t) as Hs.
  destruct (guarded_ratio_bounds _ _ Hm Hn) as [B1 E1].
  destruct (guarded_ratio_bounds _ _ Hr Hs) as [B2 E2].
  split; [exact B1|]. split; [exact B2|].
  intros Hz. split.
  - apply E1. unfold compute_mae.
    apply np_mean_zero;
      [by rewrite np_abs_nil_iff | apply Forall_abs_nonneg |].
    unfold np_abs. rewrite Forall_map.
    eapply Forall_impl; [exact Hz|]. intros x ->. apply Rabs_R0.
  - apply E2. unfold compute_rmse.
    assert (np_mean (np_square t) = 0) as ->; [|apply sqrt_0].
    apply np_mean_zero;
      [by rewrite np_square_nil_iff | apply Forall_square_nonneg |].
    unfold np_square. rewrite Forall_map.
    eapply Forall_impl; [exact Hz|]. intros x ->. simpl. ring.
Qed.

Lemma compute_rel_guard_witness :
  0 <= compute_rel_mae [1; -3] [0; 2] <= compute_mae [1; -3] * 10 ^ 11.
Proof.
  apply (compute_rel_guard [1; -3] [0; 2]); discriminate.
Defined.

Lemma compute_c_count d (eta : R) :
  compute_c d eta = INR (count_below eta d) / INR (length d).
Proof.
  unfold compute_c. by rewrite np_mean_R, Rsum_indicator, length_map.
Qed.

Lemma count_below_le d (eta : R) : (count_below eta d <= length d)%nat.
Proof. unfold count_below. apply length_filter. Qed.

Lemma count_below_mono d (eta1 eta2 : R) :
  eta1 <= eta2 -> (count_below eta1 d <= count_below eta2 d)%nat.
Proof.
  intros He. unfold count_below. induction d as [|x d IH]; [done|].
  rewrite !filter_cons. repeat case_decide; cbn [length]; try lia. lra.
Qed.

Lemma count_below_all d (eta : R) :
  count_below eta d = length d <-> Forall (fun x => Rabs x < eta) d.
Proof.
  unfold count_below. induction d as [|x d IH]; [done|].
  rewrite filter_cons, Forall_cons. pose proof (count_below_le d eta) as Hle.
  unfold count_below in Hle.
  case_decide; cbn [length].
  - split; [intros [= Hl]; split; [done | by apply IH] |
            intros [_ Hall]; f_equal; by apply IH].
  - split; [lia | intros [? _]; done].
Qed.

Lemma count_below_nonpos d (eta : R) : eta <= 0 -> count_below eta d = 0%nat.
Proof.
  intros He. unfold count_below. induction d as [|x d IH]; [done|].
  rewrite filter_cons. case_decide; [|done].
  pose proof (Rabs_pos x). lra.
Qed.

(** X18: [compute_c] grows with the threshold, is zero for a threshold
    that is not positive, and is one exactly when every entry is strictly
    below the threshold in absolute value. *)
Theorem compute_c_threshold d (eta1 eta2 : R) :
  d <> [] ->
  (eta1 <= eta2 -> compute_c d eta1 <= compute_c d eta2) /\
  (eta1 <= 0 -> compute_c d eta1 = 0) /\
  (compute_c d eta1 = 1 <-> Forall (fun x => Rabs x < eta1) d).
Proof.
  intros Hd. pose proof (INR_length_pos d Hd) as Hn.
  pose proof (Rinv_0_lt_compat _ Hn) as Hi.
  rewrite !compute_c_count. split; [|split].
  - intros He. apply Rmult_le_compat_r; [lra|].
    by apply le_INR, count_below_mono.
  - intros He. rewrite count_below_nonpos by done. simpl. unfold Rdiv. ring.
  - rewrite <- count_below_all. split.
    + intros Hone. apply INR_eq.
      apply (f_equal (fun r => r * INR (length d))) in Hone.
      unfold Rdiv in Hone. rewrite Rmult_assoc, Rinv_l in Hone by lra. lra.
    + intros ->. unfold Rdiv. apply Rinv_r. lra.
Qed.

Lemma compute_c_threshold_witness :
  compute_c [1; -3] 4 = 1 <-> Forall (fun x => Rabs x < 4) [1; -3].
Proof.
  apply (compute_c_threshold [1; -3] 4 4). discriminate.
Defined.

Lemma Rsum_Permutation (a b : list R) : a ≡ₚ b -> Rsum a = Rsum b.
Proof. induction 1; simpl; lra. Qed.

Lemma np_mean_Permutation (a b : list R) : a ≡ₚ b -> np_mean a = np_mean b.
Proof.
  intros Hp. rewrite !np_mean_R.
  by rewrite (Rsum_Permutation _ _ Hp), (Permutation_length Hp).
Qed.

(** X19: in exact arithmetic the measures do not depend on the order of
    the entries. *)
Theorem compute_permutation d d' t t' (eta : R) :
  d ≡ₚ d' -> t ≡ₚ t' ->
  compute_mae d = compute_mae d' /\
  compute_rmse d = compute_rmse d' /\
  compute_c d eta = compute_c d' eta /\
  compute_rel_mae d t = compute_rel_mae d' t' /\
  compute_rel_rmse d t = compute_rel_rmse d' t'.
Proof.
  intros Hd Ht.
  assert (forall a b : list R, a ≡ₚ b ->
            np_mean (np_abs a) = np_mean (np_abs b)) as Habs.
  { intros a b Hp. apply np_mean_Permutation. unfold np_abs. by rewrite Hp. }
  assert (forall a b : list R, a ≡ₚ b ->
            np_mean (np_square a) = np_mean (np_square b)) as Hsq.
  { intros a b Hp. apply np_mean_Permutation. unfold np_square.
    by rewrite Hp. }
  unfold compute_mae, compute_rmse, compute_c, compute_rel_mae,
    compute_rel_rmse. cbv zeta.
  rewrite (Habs _ _ Hd), (Habs _ _ Ht), (Hsq _ _ Hd), (Hsq _ _ Ht).
  repeat split. apply np_mean_Permutation. by rewrite Hd.
Qed.

Lemma compute_permutation_witness :
  compute_mae [1; -3] = compute_mae [-3; 1].
Proof.
  apply (compute_permutation [1; -3] [-3; 1] [2] [2] 0).
  - apply perm_swap.
  - reflexivity.
Defined.
End StatisticsExtra.

(** ** Error measures, in binary64 *)

Section StatisticsFloatExtra.
(** X20: on an array with no entry the mean is [0 / 0]: the absolute
    measures and [compute_c], at any threshold, are not a number. *)
Theorem compute_empty_nan (eta : float) :
  PrimFloat.is_nan (compute_mae ([] : list float)) = true /\
  PrimFloat.is_nan (compute_rmse ([] : list float)) = true /\
  PrimFloat.is_nan (compute_c ([] : list float) eta) = true.
Proof. vm_compute. repeat split. Qed.
End StatisticsFloatExtra.

(** ** load_foundations, whatever its outcome *)

(** As [stable_structure], keeping for every loop the range of its
    index. *)
Ltac stable_structure_bounded :=
  repeat match goal with
    | |- PreOrder _ => apply _
    | |- stable _ (mret _) => apply stable_ret
    | |- stable _ (raise _) => apply stable_raise
    | |- stable _ (lift _) => apply stable_lift
    | |- stable _ (read _) => apply stable_read
    | |- stable _ (mbind _ _) => apply stable_bind; [.. | intros ?]
    | |- stable _ (for_range _ _) =>
        unfold for_range at 1;
        apply stable_for_each_in; [.. | intros ? ?%elem_of_seq]
    | |- stable _ (if ?b then _ else _) => destruct b
    | |- stable _ (match ?x with _ => _ end) => destruct x
    end.

Section LoadExtra.
Context {num : Type} `{Arith num}.
Variables model model_foundations : loc.

Lemma stable_bind_at (R : relation (store num)) `{!PreOrder R} {X Y}
    (c : M num X) (k : X -> M num Y) (s : store num) :
  R s (c s).2 -> (forall x, stable R (k x)) -> R s ((c ≫= k) s).2.
Proof.
  intros Hc Hk. unfold mbind, M_bind.
  destruct (c s) as [[x|e] s1]; simpl in *; [|done].
  etransitivity; [exact Hc | apply Hk].
Qed.

Lemma stable_meet (R1 R2 R : relation (store num)) {X} (c : M num X) :
  (forall s s', R1 s s' -> R2 s s' -> R s s') ->
  stable R1 c -> stable R2 c -> stable R c.
Proof. intros HR H1 H2 s. apply HR; [apply H1 | apply H2]. Qed.

(** *** A relation kept by every block is kept by the function *)

Section Blockwise.
Context (R : relation (store num)) `{!PreOrder R}.
Variables (load_readout use_shift use_scale : bool) (max_L : Z).
Hypothesis Hbessel :
  stable R (transfer_bessel_weights model model_foundations).
Hypothesis Hinteractions : forall nsf ncf idx nr ns ell s,
  R s (for_range (Z.to_nat (num_interactions (s model)))
         (transfer_interaction model model_foundations nsf ncf idx nr ns
            ell) s).2.
Hypothesis Hproducts : forall idx,
  stable R (for_range 2 (transfer_product model model_foundations idx
                           max_L)).
Hypothesis Hreadouts :
  load_readout = true ->
  stable R (transfer_readouts model model_foundations).
Hypothesis Hscale :
  stable R (transfer_scale_shift model model_foundations use_shift
              use_scale).

(** The statements after the assignment of the node embedding. *)
Lemma load_foundations_tail_stable nsf ncf idx nr ns ell :
  stable R
    (_ ← transfer_bessel_weights model model_foundations;
     m ← read model;
     _ ← for_range (Z.to_nat (num_interactions m))
           (transfer_interaction model model_foundations nsf ncf idx nr ns
              ell);
     _ ← for_range 2 (transfer_product model model_foundations idx max_L);
     _ ← (if load_readout then transfer_readouts model model_foundations
          else mret tt);
     _ ← transfer_scale_shift model model_foundations use_shift use_scale;
     mret model).
Proof.
  apply stable_bind; [done | exact Hbessel | intros _].
  intros s. rewrite run_read.
  apply stable_bind_at; [done | apply Hinteractions | intros _].
  apply stable_bind; [done | apply Hproducts | intros _].
  apply stable_bind; [done | | intros _].
  { destruct load_readout; [by apply Hreadouts | by apply stable_ret]. }
  apply stable_bind; [done | exact Hscale | intros _].
  by apply stable_ret.
Qed.

Lemma load_foundations_stable table :
  (forall nsf idx ns,
     stable R (transfer_node_embedding model model_foundations nsf idx
                 ns)) ->
  stable R (load_foundations model model_foundations table load_readout
              use_shift use_scale max_L).
Proof.
  intros Hembedding. unfold load_foundations. cbv zeta.
  apply stable_bind; [done | by apply stable_read | intros f].
  apply stable_bind; [done | by apply stable_read | intros m].
  apply stable_bind; [done | | intros _].
  { destruct (a_eqb _ _); [by apply stable_ret | by apply stable_raise]. }
  apply stable_bind; [done | by apply stable_lift | intros ncf].
  apply stable_bind; [done | by apply stable_lift | intros idx].
  apply stable_bind; [done | apply Hembedding | intros _].
  apply load_foundations_tail_stable.
Qed.

(** Once the node embedding is assigned: the store the call leaves,
    against the store right after that assignment. *)
Lemma load_foundations_after_embedding table (s : store num) ncf idx :
  a_eqb (r_max (s model_foundations)) (r_max (s model)) = true ->
  floordiv (length (node_embedding_weight (s model_foundations)))
           (length (atomic_numbers (s model_foundations))) = Ret ncf ->
  comprehension
    (z_to_index (AtomicNumberTable_init
                   (atomic_numbers (s model_foundations))))
    (zs table) = Ret idx ->
  R (transfer_node_embedding model model_foundations
       (length (atomic_numbers (s model_foundations))) idx (length idx)
       s).2
    (load_foundations model model_foundations table load_readout
       use_shift use_scale max_L s).2.
Proof.
  intros Heq Hncf Hidx. unfold load_foundations. rewrite !run_read.
  cbv zeta. rewrite Heq, run_ret. cbn [zs].
  rewrite Hncf, run_lift_Ret, Hidx, run_lift_Ret.
  unfold mbind at 1, M_bind at 1.
  destruct (transfer_node_embedding _ _ _ _ _ s) as [[[]|e] s1];
    simpl; [|reflexivity].
  apply load_foundations_tail_stable.
Qed.
End Blockwise.

(** *** Observations of the target that no assignment changes *)

(** The assignments of the function, by what they keep of the object they
    assign to: an interaction block keeps its class, the number of its
    layers and the layers after the fourth; a product block keeps, in each
    contraction, the number of weights and the weights after the second,
    and its contractions after those of the loop. *)
Section Shape.
Context {Y : Type} (obs : Model num -> Y) (touched : nat -> Prop)
  (max_L : Z).
Hypothesis Hembedding : forall w m,
  obs (set_node_embedding_weight w m) = obs m.
Hypothesis Hbessel : forall w m, obs (set_bessel_weights w m) = obs m.
Hypothesis Hinteraction : forall i b b' m,
  touched i ->
  interactions m !! i = Some b ->
  interaction_class b' = interaction_class b ->
  length (conv_tp_weights b') = length (conv_tp_weights b) ->
  drop 4 (conv_tp_weights b') = drop 4 (conv_tp_weights b) ->
  obs (set_interactions (<[i := b']> (interactions m)) m) = obs m.
Hypothesis Hproduct : forall i p p' m,
  i < 2 ->
  products m !! i = Some p ->
  Forall2 (fun c c' => length (weights c') = length (weights c) /\
                       drop 2 (weights c') = drop 2 (weights c))
    (contractions p) (contractions p') ->
  drop (Z.to_nat (if decide (i = 0) then (max_L + 1)%Z else 1%Z))
    (contractions p')
  = drop (Z.to_nat (if decide (i = 0) then (max_L + 1)%Z else 1%Z))
      (contractions p) ->
  obs (set_products (<[i := p']> (products m)) m) = obs m.
Hypothesis Hreadout : forall i r r' m,
  readouts m !! i = Some r ->
  (match r, r' with
   | LinearReadoutBlock _, LinearReadoutBlock _
   | NonLinearReadoutBlock _ _, NonLinearReadoutBlock _ _ => True
   | _, _ => False
   end) ->
  obs (set_readouts (<[i := r']> (readouts m)) m) = obs m.
Hypothesis Hscale : forall ss ss' m,
  scale_shift m = Some ss ->
  obs (set_scale_shift (Some ss') m) = obs m.

Lemma stable_shape_interaction nsf ncf idx nr ns ell i :
  touched i ->
  stable (obs_rel model obs)
    (transfer_interaction model model_foundations nsf ncf idx nr ns ell i).
Proof.
  intros Hi.
  unfold transfer_interaction, transfer_skip_tp, foundation_interaction.
  stable_structure_bounded; apply stable_obs_assign;
    intros m m' (b & b' & Hb & Hg & ->)%at_interaction_inv;
    apply (Hinteraction _ _ _ _ Hi Hb);
    first [ by injection Hg as <-
          | apply setattr_layer_inv in Hg as [_ ->]; simpl;
            rewrite ?length_insert, ?drop_insert_lt by lia; done ].
Qed.

Lemma stable_shape_contraction i j g :
  i < 2 ->
  j < Z.to_nat (if decide (i = 0) then (max_L + 1)%Z else 1%Z) ->
  (forall c c', g c = Ret c' ->
     length (weights c') = length (weights c) /\
     drop 2 (weights c') = drop 2 (weights c)) ->
  stable (obs_rel model obs)
    (assign model (at_product i (at_contraction j g))).
Proof.
  intros Hi Hj Hg. apply stable_obs_assign.
  intros m m' (p & p' & Hp & Hc & ->)%at_product_inv.
  apply at_contraction_inv in Hc as (c & c' & Hc & Hgc & ->).
  apply (Hproduct _ _ _ _ Hi Hp); simpl.
  - apply Forall2_same_length_lookup. split.
    { by rewrite length_insert. }
    intros j' c1 c2 H1 H2.
    destruct (decide (j' = j)) as [->|Hne].
    + rewrite list_lookup_insert_eq in H2 by (by eapply lookup_lt_Some).
      simplify_eq. by apply Hg.
    + rewrite list_lookup_insert_ne in H2 by done. by simplify_eq.
  - by rewrite drop_insert_lt.
Qed.

Lemma stable_shape_product idx i :
  i < 2 ->
  stable (obs_rel model obs)
    (transfer_product model model_foundations idx max_L i).
Proof.
  intros Hi.
  unfold transfer_product, transfer_contraction, foundation_contraction.
  cbv zeta. stable_structure_bounded.
  - apply stable_shape_contraction; [done | lia |].
    by intros c c' [= <-].
  - apply stable_shape_contraction; [done | lia |].
    intros c c' [_ ->]%setitem_weight_inv. simpl.
    rewrite length_insert, drop_insert_lt by lia. done.
  - apply stable_obs_assign.
    intros m m' (p & p' & Hp & [= <-] & ->)%at_product_inv.
    apply (Hproduct _ _ _ _ Hi Hp); simpl; [|done].
    by apply Forall_Forall2_diag, Forall_true.
Qed.

Lemma stable_shape_products idx :
  stable (obs_rel model obs)
    (for_range 2 (transfer_product model model_foundations idx max_L)).
Proof.
  apply stable_for_each_in; [apply _|].
  intros i Hi%elem_of_seq. apply stable_shape_product. lia.
Qed.

Lemma stable_shape_readouts :
  stable (obs_rel model obs) (transfer_readouts model model_foundations).
Proof.
  unfold transfer_readouts, foundation_readout.
  stable_structure; apply stable_obs_assign;
    intros m m' (r & r' & Hr & Hg & ->)%at_readout_inv;
    apply (Hreadout _ _ _ _ Hr); destruct r; by simplify_eq/=.
Qed.

Lemma stable_shape_scale_shift use_shift use_scale :
  stable (obs_rel model obs)
    (transfer_scale_shift model model_foundations use_shift use_scale).
Proof.
  unfold transfer_scale_shift.
  stable_structure; apply stable_obs_assign;
    intros m m' (ss & Hss & ->)%at_scale_shift_inv;
    by apply (Hscale ss).
Qed.

Lemma stable_shape_load_foundations table load_readout use_shift
    use_scale :
  (forall i, touched i) ->
  stable (obs_rel model obs)
    (load_foundations model model_foundations table load_readout
       use_shift use_scale max_L).
Proof.
  intros Hall. apply load_foundations_stable.
  - apply _.
  - by apply stable_transfer_bessel_weights.
  - intros nsf ncf idx nr ns ell s.
    apply (stable_for_range (obs_rel model obs)).
    intros i. by apply stable_shape_interaction.
  - apply stable_shape_products.
  - intros _. apply stable_shape_readouts.
  - apply stable_shape_scale_shift.
  - intros nsf idx ns. by apply stable_transfer_node_embedding.
Qed.
End Shape.

(** X21: the call never changes the architecture of the target, whether
    it returns or raises: the cutoff, the atomic numbers, the degree of the
    spherical harmonics, the number of interactions, the radial dimension
    and the class of the basis, the classes and the numbers of layers of
    the interaction blocks, the numbers of contractions of the product
    blocks and of weights of each contraction, the kinds of the readouts,
    and whether there is a scale and shift block. *)
Theorem load_foundations_architecture (table : AtomicNumberTable)
    (load_readout use_shift use_scale : bool) (max_L : Z) (s : store num) :
  let m := s model in
  let m' := (load_foundations model model_foundations table load_readout
               use_shift use_scale max_L s).2 model in
  r_max m' = r_max m /\
  atomic_numbers m' = atomic_numbers m /\
  spherical_harmonics_lmax m' = spherical_harmonics_lmax m /\
  num_interactions m' = num_interactions m /\
  out_dim (radial_embedding m') = out_dim (radial_embedding m) /\
  bessel_class (bessel_fn (radial_embedding m'))
  = bessel_class (bessel_fn (radial_embedding m)) /\
  interaction_class <$> interactions m'
  = interaction_class <$> interactions m /\
  (fun b => length (conv_tp_weights b)) <$> interactions m'
  = (fun b => length (conv_tp_weights b)) <$> interactions m /\
  (fun p => (fun c => length (weights c)) <$> contractions p) <$> products m'
  = (fun p => (fun c => length (weights c)) <$> contractions p)
    <$> products m /\
  (fun r => match r with
            | LinearReadoutBlock _ => true
            | NonLinearReadoutBlock _ _ => false
            end) <$> readouts m'
  = (fun r => match r with
              | LinearReadoutBlock _ => true
              | NonLinearReadoutBlock _ _ => false
              end) <$> readouts m /\
  (is_Some (scale_shift m') <-> is_Some (scale_shift m)).
Proof.
  intros m m'.
  pose (obs := fun m : Model num =>
    (r_max m, atomic_numbers m, spherical_harmonics_lmax m,
     num_interactions m, out_dim (radial_embedding m),
     bessel_class (bessel_fn (radial_embedding m)),
     interaction_class <$> interactions m,
     (fun b => length (conv_tp_weights b)) <$> interactions m,
     (fun p => (fun c => length (weights c)) <$> contractions p)
       <$> products m,
     (fun r => match r with
               | LinearReadoutBlock _ => true
               | NonLinearReadoutBlock _ _ => false
               end) <$> readouts m,
     (fun _ => tt) <$> scale_shift m)).
  assert (obs m' = obs m) as Hobs.
  { apply (stable_shape_load_foundations obs (fun _ => True));
      unfold obs; clear.
    - done.
    - done.
    - intros i b b' m _ Hb Hcls Hlen _. simpl.
      rewrite !list_fmap_insert, Hcls, Hlen.
      rewrite !list_insert_id; [done| |];
        by rewrite list_lookup_fmap, Hb.
    - intros i p p' m _ Hp Hw _. simpl.
      rewrite list_fmap_insert, list_insert_id; [done|].
      rewrite list_lookup_fmap, Hp. simpl. f_equal.
      clear -Hw. induction Hw as [|c c' l l' [Hc _] _ IH]; [done|].
      rewrite !fmap_cons. by f_equal.
    - intros i r r' m Hr Hkind. simpl.
      rewrite list_fmap_insert, list_insert_id; [done|].
      rewrite list_lookup_fmap, Hr. by destruct r, r'.
    - intros ss ss' m Hss. simpl. by rewrite Hss.
    - done. }
  unfold obs in Hobs. injection Hobs as H1 H2 H3 H4 H5 H6 H7 H8 H9 H10 H11.
  repeat (split; [done|]).
  destruct (scale_shift m'), (scale_shift m); try done.
Qed.

(** *** The switches *)

Lemma stable_frame_transfer_node_embedding nsf idx ns :
  stable (frame_rel (num := num) model)
    (transfer_node_embedding model model_foundations nsf idx ns).
Proof.
  unfold transfer_node_embedding. stable_structure.
  apply stable_frame_assign.
Qed.

Lemma stable_frame_transfer_bessel_weights :
  stable (frame_rel (num := num) model)
    (transfer_bessel_weights model model_foundations).
Proof.
  unfold transfer_bessel_weights. stable_structure.
  apply stable_frame_assign.
Qed.

Lemma stable_frame_transfer_readouts :
  stable (frame_rel (num := num) model)
    (transfer_readouts model model_foundations).
Proof.
  unfold transfer_readouts, foundation_readout.
  stable_structure; apply stable_frame_assign.
Qed.

(** A relation that holds between two stores as soon as they agree
    outside the target and on an observation of the target that only the
    readouts, when they are loaded, and the scale and shift enter. *)
Lemma load_foundations_stable_upto {Y} (obs : Model num -> Y)
    (R : relation (store num)) `{!PreOrder R} table load_readout use_shift
    use_scale max_L :
  (forall s s', frame_rel model s s' -> obs_rel model obs s s' -> R s s') ->
  (forall w m, obs (set_node_embedding_weight w m) = obs m) ->
  (forall w m, obs (set_bessel_weights w m) = obs m) ->
  (forall l m, obs (set_interactions l m) = obs m) ->
  (forall l m, obs (set_products l m) = obs m) ->
  (load_readout = true -> forall l m, obs (set_readouts l m) = obs m) ->
  stable R (transfer_scale_shift model model_foundations use_shift
              use_scale) ->
  stable R (load_foundations model model_foundations table load_readout
              use_shift use_scale max_L).
Proof.
  intros HR H1 H2 H3 H4 H5 H6. apply load_foundations_stable.
  - done.
  - apply (stable_meet _ _ _ _ HR).
    + apply stable_frame_transfer_bessel_weights.
    + by apply stable_transfer_bessel_weights.
  - intros nsf ncf idx nr ns ell s. apply HR.
    + apply (stable_for_range (frame_rel model)). intros i.
      apply stable_frame_transfer_interaction.
    + apply (stable_for_range (obs_rel model obs)). intros i.
      by apply stable_transfer_interaction.
  - intros idx. apply (stable_meet _ _ _ _ HR).
    + apply stable_for_range; [apply _|]. intros i.
      apply stable_frame_transfer_product.
    + apply stable_for_range; [apply _|]. intros i.
      by apply stable_transfer_product.
  - intros Hlr. apply (stable_meet _ _ _ _ HR).
    + apply stable_frame_transfer_readouts.
    + apply stable_transfer_readouts. by apply H5.
  - done.
  - intros nsf idx ns. apply (stable_meet _ _ _ _ HR).
    + apply stable_frame_transfer_node_embedding.
    + by apply stable_transfer_node_embedding.
Qed.

(** X22: without [load_readout] the readouts of the target are as they
    were, whether the call returns or raises. *)
Theorem load_foundations_readouts_off (table : AtomicNumberTable)
    (use_shift use_scale : bool) (max_L : Z) (s : store num) :
  readouts
    ((load_foundations model model_foundations table false use_shift
        use_scale max_L s).2 model)
  = readouts (s model).
Proof.
  apply (load_foundations_stable_upto readouts (obs_rel model readouts));
    try done.
  by apply stable_transfer_scale_shift.
Qed.

Lemma stable_scale_shift_one {Y} (field : ScaleShift num -> Y) use_shift
    use_scale :
  (use_scale = true -> forall x ss, field (set_scale x ss) = field ss) ->
  (use_shift = true -> forall x ss, field (set_shift x ss) = field ss) ->
  stable (obs_rel model (fun m => field <$> scale_shift m))
    (transfer_scale_shift model model_foundations use_shift use_scale).
Proof.
  intros Hsc Hsh. unfold transfer_scale_shift.
  apply stable_bind; [apply _ | apply stable_read; apply _ | intros f].
  destruct (scale_shift f) as [ssf|]; [|apply stable_ret; apply _].
  apply stable_bind; [apply _ | | intros _].
  - destruct use_scale; [|apply stable_ret; apply _].
    stable_structure. apply stable_obs_assign.
    intros m m' (ss & Hss & ->)%at_scale_shift_inv. simpl.
    rewrite Hss. simpl. f_equal. by apply Hsc.
  - destruct use_shift; [|apply stable_ret; apply _].
    stable_structure. apply stable_obs_assign.
    intros m m' (ss & Hss & ->)%at_scale_shift_inv. simpl.
    rewrite Hss. simpl. f_equal. by apply Hsh.
Qed.

(** X23: whether the call returns or raises, the scale of the target is
    as it was without [use_scale], its shift is as it was without
    [use_shift], and both are as they were when the foundation model has
    no scale and shift block. *)
Theorem load_foundations_scale_shift_off (table : AtomicNumberTable)
    (load_readout use_shift use_scale : bool) (max_L : Z) (s : store num) :
  (use_scale = false ->
   scale <$> scale_shift
     ((load_foundations model model_foundations table load_readout
         use_shift use_scale max_L s).2 model)
   = scale <$> scale_shift (s model)) /\
  (use_shift = false ->
   shift <$> scale_shift
     ((load_foundations model model_foundations table load_readout
         use_shift use_scale max_L s).2 model)
   = shift <$> scale_shift (s model)) /\
  (scale_shift (s model_foundations) = None ->
   scale_shift
     ((load_foundations model model_foundations table load_readout
         use_shift use_scale max_L s).2 model)
   = scale_shift (s model)).
Proof.
  split; [|split].
  - intros ->.
    apply (load_foundations_stable_upto
             (fun m => scale <$> scale_shift m)
             (obs_rel model (fun m => scale <$> scale_shift m)));
      try done.
    by apply stable_scale_shift_one.
  - intros ->.
    apply (load_foundations_stable_upto
             (fun m => shift <$> scale_shift m)
             (obs_rel model (fun m => shift <$> scale_shift m)));
      try done.
    by apply stable_scale_shift_one.
  - pose (R := fun s s' : store num =>
      scale_shift (s model_foundations) = None ->
      scale_shift (s' model_foundations) = None /\
      scale_shift (s' model) = scale_shift (s model)).
    assert (PreOrder R) as HR.
    { split.
      - by intros s0 Hn.
      - intros s1 s2 s3 H12 H23 Hn.
        destruct (H12 Hn) as [Hn2 E12]. destruct (H23 Hn2) as [Hn3 E23].
        split; [done | congruence]. }
    intros Hn.
    apply (load_foundations_stable_upto scale_shift R table load_readout
             use_shift use_scale max_L); try done.
    + intros s0 s1 Hf Ho Hn0. split; [|exact Ho].
      destruct (decide (model_foundations = model)) as [Heq|Hne].
      * rewrite Heq in *. unfold obs_rel in Ho. congruence.
      * by rewrite Hf.
    + intros s0 Hn0. unfold transfer_scale_shift.
      rewrite run_read, Hn0. done.
Qed.

(** *** Beyond the ranges of the loops *)

(** X24: whether the call returns or raises, it leaves alone what lies
    beyond the ranges of its loops: the interaction blocks from index
    [num_interactions] on, the product blocks from index 2 on, in every
    interaction block the layers from the fifth on, in product block [i]
    the contractions from index [max_L + 1] (for [i = 0]) or 1 on, and in
    every contraction the weights from the third on. *)
Theorem load_foundations_beyond_loops (table : AtomicNumberTable)
    (load_readout use_shift use_scale : bool) (max_L : Z) (s : store num) :
  let m := s model in
  let m' := (load_foundations model model_foundations table load_readout
               use_shift use_scale max_L s).2 model in
  (forall k, Z.to_nat (num_interactions m) <= k ->
     interactions m' !! k = interactions m !! k) /\
  (forall k, 2 <= k -> products m' !! k = products m !! k) /\
  (forall i b b',
     interactions m !! i = Some b -> interactions m' !! i = Some b' ->
     drop 4 (conv_tp_weights b') = drop 4 (conv_tp_weights b)) /\
  (forall i p p',
     products m !! i = Some p -> products m' !! i = Some p' ->
     drop (Z.to_nat (if decide (i = 0) then (max_L + 1)%Z else 1%Z))
       (contractions p')
     = drop (Z.to_nat (if decide (i = 0) then (max_L + 1)%Z else 1%Z))
         (contractions p) /\
     (fun c => drop 2 (weights c)) <$> contractions p'
     = (fun c => drop 2 (weights c)) <$> contractions p).
Proof.
  intros m m'.
  pose (obs := fun (n : nat) (m : Model num) =>
    (num_interactions m, drop n (interactions m),
     (fun b => drop 4 (conv_tp_weights b)) <$> interactions m,
     drop 2 (products m),
     (fun p => drop (Z.to_nat (max_L + 1)) (contractions p))
       <$> products m !! 0,
     (fun p => drop 1 (contractions p)) <$> products m !! 1,
     (fun p => (fun c => drop 2 (weights c)) <$> contractions p)
       <$> products m)).
  pose (N := fun s : store num => Z.to_nat (num_interactions (s model))).
  pose (R := fun s s' : store num =>
               obs (N s) (s' model) = obs (N s) (s model)).
  assert (PreOrder R) as HR.
  { split.
    - by intros s0.
    - intros s1 s2 s3 H12 H23. unfold R in *.
      assert (N s2 = N s1) as HN.
      { unfold N. unfold obs in H12. by injection H12 as ->. }
      rewrite HN in H23. congruence. }
  assert (R s (load_foundations model model_foundations table load_readout
                 use_shift use_scale max_L s).2) as Hobs.
  { apply (load_foundations_stable R).
    - intros s0.
      by apply (stable_transfer_bessel_weights model model_foundations
                  (obs (N s0))).
    - intros nsf ncf idx nr ns ell s0.
      apply (stable_for_each_in (obs_rel model (obs (N s0)))).
      intros i Hi%elem_of_seq.
      apply (stable_shape_interaction (obs (N s0)) (fun i => i < N s0));
        [|unfold N; lia].
      clear. intros i b b' m Hi Hb Hcls Hlen Hdrop. unfold obs. simpl.
      rewrite drop_insert_lt by done.
      rewrite list_fmap_insert, Hdrop, list_insert_id; [done|].
      by rewrite list_lookup_fmap, Hb.
    - intros idx s0.
      apply (stable_shape_products (obs (N s0)) max_L).
      clear. intros i p p' m Hi Hp Hw Hd. unfold obs. simpl.
      rewrite drop_insert_lt by done.
      assert ((fun p => (fun c => drop 2 (weights c)) <$> contractions p)
                <$> <[i := p']> (products m)
              = (fun p => (fun c => drop 2 (weights c)) <$> contractions p)
                <$> products m) as ->.
      { rewrite list_fmap_insert, list_insert_id; [done|].
        rewrite list_lookup_fmap, Hp. simpl. f_equal.
        clear -Hw. induction Hw as [|c c' l l' [_ Hc] _ IH]; [done|].
        rewrite !fmap_cons. by f_equal. }
      pose proof (lookup_lt_Some _ _ _ Hp) as Hlt.
      destruct i as [|[|i]]; [| |lia].
      + rewrite decide_True in Hd by done.
        rewrite list_lookup_insert_eq by done.
        rewrite list_lookup_insert_ne by done.
        rewrite Hp. simpl. by rewrite Hd.
      + rewrite decide_False in Hd by done.
        change (Z.to_nat 1) with 1 in Hd.
        rewrite list_lookup_insert_eq by done.
        rewrite list_lookup_insert_ne by done.
        rewrite Hp. simpl. by rewrite Hd.
    - intros _ s0.
      by apply (stable_transfer_readouts model model_foundations
                  (obs (N s0))).
    - intros s0.
      by apply (stable_transfer_scale_shift model model_foundations
                  (obs (N s0))).
    - intros nsf idx ns s0.
      by apply (stable_transfer_node_embedding model model_foundations
                  (obs (N s0))). }
  unfold R, obs, N in Hobs. fold m m' in Hobs.
  injection Hobs as E1 E2 E3 E4 E5 E6 E7.
  assert (forall k, 2 <= k -> products m' !! k = products m !! k) as Hk2.
  { intros k Hk. replace k with (2 + (k - 2)) by lia.
    rewrite <- !lookup_drop. by rewrite E4. }
  split; [|split; [exact Hk2|split]].
  - intros k Hk.
    replace k with (Z.to_nat (num_interactions m)
                    + (k - Z.to_nat (num_interactions m))) by lia.
    rewrite <- !lookup_drop. by rewrite E2.
  - intros i b b' Hb Hb'.
    apply (f_equal (fun l => l !! i)) in E3.
    rewrite !list_lookup_fmap, Hb, Hb' in E3. by injection E3.
  - intros i p p' Hp Hp'. split.
    + destruct i as [|[|i]].
      * rewrite Hp, Hp' in E5. simpl in *. by injection E5.
      * rewrite Hp, Hp' in E6. simpl in *. by injection E6.
      * rewrite Hk2, Hp in Hp' by lia. by injection Hp' as <-.
    + apply (f_equal (fun l => l !! i)) in E7.
      rewrite !list_lookup_fmap, Hp, Hp' in E7. by injection E7.
Qed.

(** *** Exits before the first assignment, and after it *)

Lemma run_assign (l : loc) (upd : Model num -> outcome (Model num))
    (s : store num) :
  assign l upd s
  = match upd (s l) with
    | Ret m' => (Ret tt, <[l := m']> s)
    | Raise e => (Raise e, s)
    end.
Proof.
  unfold assign. rewrite run_read.
  destruct (upd (s l)); reflexivity.
Qed.

(** The indices of a table in a list are positions of the list. *)
Lemma index_list_bound (numbers : list Z) (table : list Z) idx :
  comprehension (z_to_index (AtomicNumberTable_init numbers)) table
    = Ret idx ->
  Forall (fun i => i < length numbers) idx /\ length idx = length table.
Proof.
  intros Hidx%comprehension_Ret. split.
  - induction Hidx as [|z i zs' idx' Hz _ IH]; constructor; [|done].
    apply z_to_index_Ret_lookup in Hz. by eapply lookup_lt_Some.
  - by rewrite (Forall2_length _ _ _ Hidx).
Qed.

Lemma transfer_node_embedding_run nsf idx (s : store num) :
  nsf <> 0 ->
  length (node_embedding_weight (s model_foundations)) `mod` nsf = 0 ->
  Forall (fun i => i < nsf) idx ->
  idx <> [] ->
  transfer_node_embedding model model_foundations nsf idx (length idx) s
  = (Ret tt,
     <[model :=
         set_node_embedding_weight
           (tensor_div
              (concat
                 (species_block
                    (length (node_embedding_weight (s model_foundations))
                       `div` nsf)
                    (node_embedding_weight (s model_foundations)) <$> idx))
              (a_sqrt (a_div (a_of_nat nsf) (a_of_nat (length idx)))))
           (s model)]> s).
Proof.
  intros Hn Hmod Hidx Hne. unfold transfer_node_embedding.
  rewrite run_read. unfold view_rows.
  rewrite decide_True by done. rewrite run_lift_Ret.
  assert (index_select idx
            (species_block
               (length (node_embedding_weight (s model_foundations))
                  `div` nsf)
               (node_embedding_weight (s model_foundations)) <$> seq 0 nsf)
          = Ret (species_block
                   (length (node_embedding_weight (s model_foundations))
                      `div` nsf)
                   (node_embedding_weight (s model_foundations)) <$> idx))
    as ->.
  { apply index_select_Ret. clear -Hidx.
    induction Hidx as [|i idx Hi _ IH]; [constructor|].
    rewrite fmap_cons. constructor; [|done].
    rewrite list_lookup_fmap, lookup_seq_lt by done. done. }
  rewrite run_lift_Ret. unfold species_ratio_sqrt.
  rewrite decide_False by (by destruct idx).
  rewrite run_lift_Ret. by rewrite run_assign.
Qed.

(** Once the assertion and the lookups have passed, the node embedding
    the call leaves, in terms of the blocks of the foundation's. *)
Lemma load_foundations_node_embedding_first_blocks
    (table : AtomicNumberTable)
    (load_readout use_shift use_scale : bool) (max_L : Z) (s : store num)
    (idx : list nat) :
  a_eqb (r_max (s model_foundations)) (r_max (s model)) = true ->
  comprehension
    (z_to_index (AtomicNumberTable_init
                   (atomic_numbers (s model_foundations))))
    (zs table) = Ret idx ->
  zs table <> [] ->
  length (node_embedding_weight (s model_foundations))
    `mod` length (atomic_numbers (s model_foundations)) = 0 ->
  node_embedding_weight
    ((load_foundations model model_foundations table load_readout use_shift
        use_scale max_L s).2 model)
  = tensor_div
      (concat
         (species_block
            (length (node_embedding_weight (s model_foundations))
               `div` length (atomic_numbers (s model_foundations)))
            (node_embedding_weight (s model_foundations)) <$> idx))
      (a_sqrt (a_div
                 (a_of_nat (length (atomic_numbers (s model_foundations))))
                 (a_of_nat (length (zs table))))).
Proof.
  intros Heq Hidx Hne Hmod.
  destruct (index_list_bound _ _ _ Hidx) as [Hbound Hlen].
  assert (idx <> []) as Hidx0.
  { intros ->. by destruct (zs table). }
  assert (length (atomic_numbers (s model_foundations)) <> 0) as Hn.
  { destruct idx as [|i idx']; [done|].
    apply Forall_cons in Hbound as [Hi _]. lia. }
  pose proof (load_foundations_after_embedding
    (obs_rel model node_embedding_weight) load_readout use_shift use_scale
    max_L) as Hafter.
  unfold obs_rel in Hafter. erewrite Hafter; clear Hafter.
  - rewrite transfer_node_embedding_run by done. simpl.
    rewrite store_lookup_insert. simpl. by rewrite Hlen.
  - by apply stable_transfer_bessel_weights.
  - intros nsf ncf idx0 nr ns ell s0.
    apply (stable_for_range (obs_rel model node_embedding_weight)).
    intros i. by apply stable_transfer_interaction.
  - intros idx0. apply stable_for_range; [apply _|].
    intros i. by apply stable_transfer_product.
  - intros _. by apply stable_transfer_readouts.
  - by apply stable_transfer_scale_shift.
  - done.
  - unfold floordiv. by rewrite decide_False.
  - done.
Qed.

Lemma index_list_comprehension (l table : list Z) (idx : list nat) :
  Forall2 (fun z i => list_index z l = Some i) table idx ->
  comprehension (z_to_index (AtomicNumberTable_init l)) table = Ret idx.
Proof.
  intros Hf. apply comprehension_Ret. eapply Forall2_impl; [exact Hf|].
  intros z i Hz. unfold z_to_index. simpl. by rewrite Hz.
Qed.

(** X25: the node embedding is assigned first and the later statements
    never touch it. When the cutoffs of the two models are equal, the
    target table is not empty, its numbers are all in the foundation
    model, at the positions [idx], and the foundation embedding divides
    into one block of [c] entries per element, then after the call,
    whether it returns or raises later on, the node embedding of the
    target has one block of [c] entries per target element, and entry
    [r] of block [j] is entry [r] of block [idx[j]] of the foundation's
    divided by [sqrt (foundation species count / target species
    count)]. *)
Theorem load_foundations_node_embedding_first (table : AtomicNumberTable)
    (load_readout use_shift use_scale : bool) (max_L : Z) (s : store num)
    (idx : list nat) :
  a_eqb (r_max (s model_foundations)) (r_max (s model)) = true ->
  Forall2 (fun z i =>
             list_index z (atomic_numbers (s model_foundations)) = Some i)
          (zs table) idx ->
  zs table <> [] ->
  length (node_embedding_weight (s model_foundations))
    `mod` length (atomic_numbers (s model_foundations)) = 0 ->
  length
    (node_embedding_weight
       ((load_foundations model model_foundations table load_readout
           use_shift use_scale max_L s).2 model))
  = length (zs table)
    * (length (node_embedding_weight (s model_foundations))
         `div` length (atomic_numbers (s model_foundations))) /\
  forall j i r,
    idx !! j = Some i ->
    r < length (node_embedding_weight (s model_foundations))
          `div` length (atomic_numbers (s model_foundations)) ->
    node_embedding_weight
      ((load_foundations model model_foundations table load_readout
          use_shift use_scale max_L s).2 model)
      !! (j * (length (node_embedding_weight (s model_foundations))
                 `div` length (atomic_numbers (s model_foundations)))
          + r)
    = (fun x =>
         a_div x
           (a_sqrt (a_div
              (a_of_nat (length (atomic_numbers (s model_foundations))))
              (a_of_nat (length (zs table))))))
        <$> node_embedding_weight (s model_foundations)
              !! (i * (length (node_embedding_weight (s model_foundations))
                         `div` length
                                 (atomic_numbers (s model_foundations)))
                  + r).
Proof.
  intros Heq Hspec Hne Hmod.
  pose proof (index_list_comprehension _ _ _ Hspec) as Hidx.
  rewrite (load_foundations_node_embedding_first_blocks table load_readout
             use_shift use_scale max_L s idx Heq Hidx Hne Hmod).
  pose proof (index_list_lt _ _ _ Hspec) as Hlt.
  assert (length (node_embedding_weight (s model_foundations))
          = length (atomic_numbers (s model_foundations))
            * (length (node_embedding_weight (s model_foundations))
                 `div` length (atomic_numbers (s model_foundations))))
    as Hlen.
  { by apply Nat.Div0.div_exact. }
  destruct (select_blocks _ _ _ idx Hlen Hlt) as [Hsel_len Hsel].
  split.
  - rewrite tensor_div_length, Hsel_len.
    by rewrite (Forall2_length _ _ _ Hspec).
  - intros j i r Hj Hr. rewrite tensor_div_lookup.
    by rewrite (Hsel j i r Hj Hr).
Qed.


End LoadExtra.

(** ** load_foundations, after a call that returns *)

Section LoadReturn.
Context {num : Type} `{Arith num}.
Variables model model_foundations : loc.

(** X27: for any target table, a call that returns leaves in every
    interaction block of the loop the class it had, and copies from the
    foundation block, unchanged, the weights of [linear_up] and [linear],
    [avg_num_neighbors] and the layers 1 to 3 of the radial network; of
    layer 0 it copies the first [out_dim] rows. The number of layers of
    the block is as it was. *)
Theorem load_foundations_interaction_copies (table : AtomicNumberTable)
    (load_readout use_shift use_scale : bool) (max_L : Z)
    (s s' : store num) (l : loc) (i : nat) :
  model_foundations <> model ->
  load_foundations model model_foundations table load_readout use_shift
    use_scale max_L s = (Ret l, s') ->
  i < Z.to_nat (num_interactions (s model)) ->
  exists b bf b',
    interactions (s model) !! i = Some b /\
    interactions (s model_foundations) !! i = Some bf /\
    interactions (s' model) !! i = Some b' /\
    interaction_class b' = interaction_class b /\
    linear_up_weight b' = linear_up_weight bf /\
    avg_num_neighbors b' = avg_num_neighbors bf /\
    linear_weight b' = linear_weight bf /\
    conv_tp_weights b' !! 0
    = take (out_dim (radial_embedding (s model)))
        <$> conv_tp_weights bf !! 0 /\
    (forall j, 1 <= j < 4 ->
       conv_tp_weights b' !! j = conv_tp_weights bf !! j) /\
    length (conv_tp_weights b') = length (conv_tp_weights b).
Proof.
  intros Hdistinct Hrun Hi.
  destruct (load_foundations_interactions _ _ _ _ _ _ _ _ _ _ i Hdistinct
              Hrun Hi)
    as (ncf & idx & b & bf & w0 & w1 & w2 & w3 & sel & factor & _ & _ & Hb
        & Hbf & Hw0 & Hw1 & Hw2 & Hw3 & Hl3 & _ & _ & Hb').
  eexists b, bf, _. split; [done|]. split; [done|]. split; [exact Hb'|].
  simpl. do 4 (split; [done|]). split; [|split].
  - rewrite !list_lookup_insert_ne by done.
    rewrite list_lookup_insert_eq by lia. by rewrite Hw0.
  - intros j Hj.
    destruct (decide (j = 1)) as [->|];
      [|destruct (decide (j = 2)) as [->|];
        [|assert (j = 3) as -> by lia]].
    + rewrite !list_lookup_insert_ne by done.
      rewrite list_lookup_insert_eq by (rewrite length_insert; lia). done.
    + rewrite !list_lookup_insert_ne by done.
      rewrite list_lookup_insert_eq by (rewrite !length_insert; lia). done.
    + rewrite list_lookup_insert_eq by (rewrite !length_insert; lia). done.
  - by rewrite !length_insert.
Qed.

(** The [if] branch on the weight of [skip_tp], for a block of the class
    [RealAgnosticResidualInteractionBlock]. *)
Lemma load_foundations_if_skip_tp (table : AtomicNumberTable)
    (load_readout use_shift use_scale : bool) (max_L : Z)
    (s s' : store num) (l : loc) (i : nat) (b : InteractionBlock num) :
  model_foundations <> model ->
  load_foundations model model_foundations table load_readout use_shift
    use_scale max_L s = (Ret l, s') ->
  i < Z.to_nat (num_interactions (s model)) ->
  interactions (s model) !! i = Some b ->
  interaction_class b = "RealAgnosticResidualInteractionBlock" ->
  exists bf b' idx sel,
    interactions (s model_foundations) !! i = Some bf /\
    interactions (s' model) !! i = Some b' /\
    Forall2 (fun z k =>
               list_index z (atomic_numbers (s model_foundations)) = Some k)
            (zs table) idx /\
    reshape_select
      (length (node_embedding_weight (s model_foundations))
         `div` length (atomic_numbers (s model_foundations)))
      (length (atomic_numbers (s model_foundations)))
      (length (node_embedding_weight (s model_foundations))
         `div` length (atomic_numbers (s model_foundations)))
      idx (skip_tp_weight bf) = Ret sel /\
    skip_tp_weight b'
    = tensor_div sel
        (a_sqrt (a_div
           (a_of_nat (length (atomic_numbers (s model_foundations))))
           (a_of_nat (length (zs table))))).
Proof.
  intros Hdistinct Hrun Hi Hb Hcls.
  destruct (load_foundations_interactions _ _ _ _ _ _ _ _ _ _ i Hdistinct
              Hrun Hi)
    as (ncf & idx & b0 & bf & w0 & w1 & w2 & w3 & sel & factor & Hncf
        & Hidx & Hb0 & Hbf & _ & _ & _ & _ & _ & Hsel & Hfac & Hb').
  rewrite Hb in Hb0. injection Hb0 as <-.
  apply species_ratio_sqrt_Ret in Hfac as [_ ->].
  pose proof (index_list_spec _ _ _ Hidx) as Hspec.
  unfold floordiv in Hncf. case_decide; [done|]. injection Hncf as <-.
  unfold skip_tp_outer in Hsel.
  apply String.eqb_eq in Hcls. rewrite Hcls in Hsel.
  eexists bf, _, idx, sel. split; [done|]. split; [exact Hb'|].
  split; [done|]. split; [done|]. simpl.
  by rewrite (Forall2_length _ _ _ Hspec).
Qed.

(** X28: in a target block of the class
    [RealAgnosticResidualInteractionBlock], whatever the degree of the
    spherical harmonics: with [c] the number of channels and [n], [n'] the
    numbers of foundation and target elements, a call that returns found
    [c x n x c] entries in the foundation's [skip_tp] weight and left [c x
    n' x c] in the target's, and the entry [(a, j, r)] of the target's is
    the entry [(a, idx[j], r)] of the foundation's, both in row-major
    order, divided by [sqrt (n / n')], where [idx[j]] is the position of
    the [j]-th target element among the foundation's. *)
Theorem load_foundations_residual_skip_tp (table : AtomicNumberTable)
    (load_readout use_shift use_scale : bool) (max_L : Z)
    (s s' : store num) (l : loc) (i : nat) (b : InteractionBlock num) :
  model_foundations <> model ->
  load_foundations model model_foundations table load_readout use_shift
    use_scale max_L s = (Ret l, s') ->
  i < Z.to_nat (num_interactions (s model)) ->
  interactions (s model) !! i = Some b ->
  interaction_class b = "RealAgnosticResidualInteractionBlock" ->
  exists bf b' idx,
    interactions (s model_foundations) !! i = Some bf /\
    interactions (s' model) !! i = Some b' /\
    Forall2 (fun z k =>
               list_index z (atomic_numbers (s model_foundations)) = Some k)
            (zs table) idx /\
    length (skip_tp_weight bf)
    = length (node_embedding_weight (s model_foundations))
        `div` length (atomic_numbers (s model_foundations))
      * length (atomic_numbers (s model_foundations))
      * (length (node_embedding_weight (s model_foundations))
           `div` length (atomic_numbers (s model_foundations))) /\
    length (skip_tp_weight b')
    = length (node_embedding_weight (s model_foundations))
        `div` length (atomic_numbers (s model_foundations))
      * length (zs table)
      * (length (node_embedding_weight (s model_foundations))
           `div` length (atomic_numbers (s model_foundations))) /\
    forall a j k r,
      a < length (node_embedding_weight (s model_foundations))
            `div` length (atomic_numbers (s model_foundations)) ->
      idx !! j = Some k ->
      r < length (node_embedding_weight (s model_foundations))
            `div` length (atomic_numbers (s model_foundations)) ->
      skip_tp_weight b'
        !! ((a * length (zs table) + j)
            * (length (node_embedding_weight (s model_foundations))
                 `div` length (atomic_numbers (s model_foundations)))
            + r)
      = (fun x =>
           a_div x
             (a_sqrt (a_div
                (a_of_nat (length (atomic_numbers (s model_foundations))))
                (a_of_nat (length (zs table))))))
          <$> skip_tp_weight bf
                !! ((a * length (atomic_numbers (s model_foundations)) + k)
                    * (length (node_embedding_weight (s model_foundations))
                         `div` length
                                 (atomic_numbers (s model_foundations)))
                    + r).
Proof.
  intros Hdistinct Hrun Hi Hb Hcls.
  destruct (load_foundations_if_skip_tp _ _ _ _ _ _ _ _ _ _ Hdistinct Hrun
              Hi Hb Hcls)
    as (bf & b' & idx & sel & Hbf & Hb' & Hspec & Hsel & Hw).
  apply reshape_select_lookup in Hsel as (Hlen & Hlt & Hlen' & Hat).
  pose proof (Forall2_length _ _ _ Hspec) as Hn.
  exists bf, b', idx. split; [done|]. split; [done|]. split; [done|].
  split; [done|]. split.
  - by rewrite Hw, tensor_div_length, Hlen', Hn.
  - intros a j k r Ha Hj Hr.
    rewrite Hw, tensor_div_lookup, Hn. by rewrite (Hat a j k r).
Qed.

(** X29: a call that returns copies the weight of [linear] of either
    product block unchanged, and gives every contraction of the loops the
    per-element weights of the foundation's contraction at the indices of
    the target's elements, in the order of the target table: [weights_max]
    and the first two of [weights]. *)
Theorem load_foundations_contractions (table : AtomicNumberTable)
    (load_readout use_shift use_scale : bool) (max_L : Z)
    (s s' : store num) (l : loc) (i : nat) :
  model_foundations <> model ->
  load_foundations model model_foundations table load_readout use_shift
    use_scale max_L s = (Ret l, s') ->
  i < 2 ->
  (exists pf p',
     products (s model_foundations) !! i = Some pf /\
     products (s' model) !! i = Some p' /\
     product_linear_weight p' = product_linear_weight pf) /\
  exists idx,
    Forall2 (fun z k =>
               list_index z (atomic_numbers (s model_foundations)) = Some k)
            (zs table) idx /\
    forall j,
      j < Z.to_nat (if decide (i = 0) then (max_L + 1)%Z else 1%Z) ->
      exists cf c',
        contraction_at (s model_foundations) i j = Some cf /\
        contraction_at (s' model) i j = Some c' /\
        Forall2 (fun k blk => weights_max cf !! k = Some blk) idx
          (weights_max c') /\
        forall k, k < 2 ->
          exists wk wk',
            weights cf !! k = Some wk /\ weights c' !! k = Some wk' /\
            Forall2 (fun n blk => wk !! n = Some blk) idx wk'.
Proof.
  intros Hdistinct Hrun Hi.
  pose proof (load_foundations_chain _ _ _ _ _ _ _ _ _ _ Hrun)
    as (ncf & idx & s1 & s2 & s3 & s4 & s5 & Hncf & Hidx & Hne & Hbw & Hint
        & Hprod & Hread & Hss & Hframe & K1 & K2 & K3 & K4 & K5 & K6).
  destruct (Hframe model_foundations Hdistinct) as (F1 & F2 & F3 & F4 & F5).
  destruct (products_loop_ok _ _ Hdistinct _ _ i _ _ Hi Hprod)
    as ((pf & p' & Hpf & Hp' & Hlin) & Hcon).
  split.
  { exists pf, p'. rewrite F3 in Hpf.
    rewrite (K6 _ products), (K5 _ products) by done. done. }
  exists idx. split; [by apply index_list_spec|].
  intros j Hj.
  destruct (Hcon j Hj)
    as (c & cf & wm & wk0 & wk1 & w0 & w1 & Hc & Hcf & Hwm & Hwk0 & Hw0
        & Hwk1 & Hw1 & Hl1 & Hc').
  rewrite F3 in Hcf.
  eexists cf, _. split; [done|]. split.
  { unfold contraction_at.
    rewrite (K6 _ products), (K5 _ products) by done. exact Hc'. }
  simpl. split; [by apply index_select_Ret|].
  intros k Hk. destruct k as [|[|k]]; [| |lia].
  - exists wk0, w0. split; [done|]. split; [|by apply index_select_Ret].
    rewrite list_lookup_insert_ne by done.
    rewrite list_lookup_insert_eq by lia. done.
  - exists wk1, w1. split; [done|]. split; [|by apply index_select_Ret].
    rewrite list_lookup_insert_eq by (rewrite length_insert; lia). done.
Qed.

(** X30: for any target table, a call that returns has copied, with
    [load_readout], the weights of the two readouts; with [use_scale] the
    scale and with [use_shift] the shift of a foundation model that has
    them; and into a target basis of the class [BesselBasis] the Bessel
    frequencies. *)
Theorem load_foundations_switches_on (table : AtomicNumberTable)
    (load_readout use_shift use_scale : bool) (max_L : Z)
    (s s' : store num) (l : loc) :
  model_foundations <> model ->
  load_foundations model model_foundations table load_readout use_shift
    use_scale max_L s = (Ret l, s') ->
  (load_readout = true ->
   exists w w1 w2,
     readouts (s model_foundations) !! 0 = Some (LinearReadoutBlock w) /\
     readouts (s model_foundations) !! 1
     = Some (NonLinearReadoutBlock w1 w2) /\
     readouts (s' model) !! 0 = Some (LinearReadoutBlock w) /\
     readouts (s' model) !! 1 = Some (NonLinearReadoutBlock w1 w2)) /\
  (forall ssf, scale_shift (s model_foundations) = Some ssf ->
     (use_scale = true ->
      scale <$> scale_shift (s' model) = Some (scale ssf)) /\
     (use_shift = true ->
      shift <$> scale_shift (s' model) = Some (shift ssf))) /\
  (bessel_class (bessel_fn (radial_embedding (s model))) = "BesselBasis" ->
   bessel_weights (bessel_fn (radial_embedding (s' model)))
   = bessel_weights (bessel_fn (radial_embedding (s model_foundations)))).
Proof.
  intros Hdistinct Hrun.
  pose proof (load_foundations_chain _ _ _ _ _ _ _ _ _ _ Hrun)
    as (ncf & idx & s1 & s2 & s3 & s4 & s5 & Hncf & Hidx & Hne & Hbw & Hint
        & Hprod & Hread & Hss & Hframe & K1 & K2 & K3 & K4 & K5 & K6).
  destruct (Hframe model_foundations Hdistinct) as (F1 & F2 & F3 & F4 & F5).
  split; [|split].
  - intros ->.
    apply transfer_readouts_ok in Hread
      as (w & w1 & w2 & Hr0 & Hr1 & Hr0' & Hr1'); [|done].
    rewrite F4 in Hr0, Hr1.
    exists w, w1, w2. by rewrite (K6 _ readouts).
  - intros ssf Hssf. rewrite <- F5 in Hssf.
    destruct (transfer_scale_shift_ok _ _ Hdistinct _ _ _ _ _ Hss Hssf)
      as [Hsc Hsh].
    split; intros Hu.
    + destruct (Hsc Hu) as (ss' & -> & <-). done.
    + destruct (Hsh Hu) as (ss' & -> & <-). done.
  - intros Hcls.
    rewrite (K6 _ radial_embedding), (K5 _ radial_embedding),
      (K4 _ radial_embedding), (K3 _ radial_embedding) by done.
    rewrite <- F1. apply transfer_bessel_weights_ok; [done..|].
    by rewrite (K1 _ radial_embedding).
Qed.
End LoadReturn.

(** ** The further properties on the example *)

Section ExampleExtra.
(** X25 applies to a call that raises. The target for the table [O, H]
    has an interaction block of the class
    [RealAgnosticAttResidualInteractionBlock] and [max_ell = 1]: the call
    raises on the [skip_tp] weight, and the node embedding of the target
    holds the blocks of oxygen and hydrogen, every entry divided by
    [sqrt (3 / 2)], all the same. *)
Lemma load_foundations_node_embedding_first_witness :
  (example_call (num := float) [8; 1]%Z 3 1 "BesselBasis"
     "RealAgnosticAttResidualInteractionBlock").1 = Raise RuntimeError /\
  (length
     (node_embedding_weight
        ((example_call (num := float) [8; 1]%Z 3 1 "BesselBasis"
            "RealAgnosticAttResidualInteractionBlock").2 1%positive))
   = 2 * (6 `div` 3) /\
   forall j i r,
     [2; 0] !! j = Some i ->
     r < 6 `div` 3 ->
     node_embedding_weight
       ((example_call (num := float) [8; 1]%Z 3 1 "BesselBasis"
           "RealAgnosticAttResidualInteractionBlock").2 1%positive)
       !! (j * (6 `div` 3) + r)
     = (fun x => (x / PrimFloat.sqrt (3 / 2))%float)
         <$> numbers [1; 2; 3; 4; 5; 6] !! (i * (6 `div` 3) + r)) /\
  node_embedding_weight
    ((example_call (num := float) [8; 1]%Z 3 1 "BesselBasis"
        "RealAgnosticAttResidualInteractionBlock").2 1%positive)
  = [5 / PrimFloat.sqrt (3 / 2); 6 / PrimFloat.sqrt (3 / 2);
     1 / PrimFloat.sqrt (3 / 2); 2 / PrimFloat.sqrt (3 / 2)]%float.
Proof.
  split; [vm_compute; reflexivity|]. split; [|vm_compute; reflexivity].
  refine (load_foundations_node_embedding_first (num := float)
            1%positive 2%positive
            (AtomicNumberTable_init [8; 1]%Z) true true true 0
            (example_store
               (example_target [8; 1]%Z 3 1 "BesselBasis"
                  "RealAgnosticAttResidualInteractionBlock")
               (example_foundation "RealAgnosticResidualInteractionBlock"))
            [2; 0] _ _ _ _).
  - vm_compute. reflexivity.
  - apply List.Forall2_cons; [reflexivity|].
    apply List.Forall2_cons; [reflexivity|]. apply List.Forall2_nil.
  - discriminate.
  - reflexivity.
Defined.

(** The call on the example for the table [O, H] returns. *)
Lemma example_call_OH_returns :
  load_foundations 1%positive 2%positive
    (AtomicNumberTable_init [8; 1]%Z) true true true 0
    (example_store (num := float)
       (example_target [8; 1]%Z 3 0 "BesselBasis"
          "RealAgnosticResidualInteractionBlock")
       (example_foundation "RealAgnosticResidualInteractionBlock"))
  = (Ret 1%positive,
     ((load_foundations 1%positive 2%positive
         (AtomicNumberTable_init [8; 1]%Z) true true true 0
         (example_store (num := float)
            (example_target [8; 1]%Z 3 0 "BesselBasis"
               "RealAgnosticResidualInteractionBlock")
            (example_foundation
               "RealAgnosticResidualInteractionBlock"))).2)).
Proof. apply pair_eta. vm_compute. reflexivity. Qed.

(** X27 on the example call for the table [O, H]. *)
Lemma load_foundations_interaction_copies_witness :
  exists b bf b',
    interactions
      ((example_store (num := float)
          (example_target [8; 1]%Z 3 0 "BesselBasis"
             "RealAgnosticResidualInteractionBlock")
          (example_foundation "RealAgnosticResidualInteractionBlock"))
       1%positive) !! 0 = Some b /\
    interactions
      ((example_store (num := float)
          (example_target [8; 1]%Z 3 0 "BesselBasis"
             "RealAgnosticResidualInteractionBlock")
          (example_foundation "RealAgnosticResidualInteractionBlock"))
       2%positive) !! 0 = Some bf /\
    interactions
      (((load_foundations 1%positive 2%positive
           (AtomicNumberTable_init [8; 1]%Z) true true true 0
           (example_store (num := float)
              (example_target [8; 1]%Z 3 0 "BesselBasis"
                 "RealAgnosticResidualInteractionBlock")
              (example_foundation
                 "RealAgnosticResidualInteractionBlock"))).2)
       1%positive) !! 0 = Some b' /\
    interaction_class b' = interaction_class b /\
    linear_up_weight b' = linear_up_weight bf /\
    avg_num_neighbors b' = avg_num_neighbors bf /\
    linear_weight b' = linear_weight bf /\
    conv_tp_weights b' !! 0
    = take
        (out_dim
           (radial_embedding
              ((example_store (num := float)
                  (example_target [8; 1]%Z 3 0 "BesselBasis"
                     "RealAgnosticResidualInteractionBlock")
                  (example_foundation "RealAgnosticResidualInteractionBlock"))
               1%positive)))
        <$> conv_tp_weights bf !! 0 /\
    (forall j, 1 <= j < 4 ->
       conv_tp_weights b' !! j = conv_tp_weights bf !! j) /\
    length (conv_tp_weights b') = length (conv_tp_weights b).
Proof.
  refine (load_foundations_interaction_copies 1%positive 2%positive
            (AtomicNumberTable_init [8; 1]%Z) true true true 0 _ _
            1%positive 0 _ example_call_OH_returns _).
  - discriminate.
  - vm_compute. lia.
Defined.

(** X28 on the example call for the table [O, H]: the foundation's
    twelve entries are [2 x 3 x 2], the target's eight are the blocks of
    oxygen and hydrogen of either row, every entry divided by
    [sqrt (3 / 2)]. *)
Lemma load_foundations_residual_skip_tp_witness :
  (exists bf b' idx,
     interactions
       ((example_store (num := float)
           (example_target [8; 1]%Z 3 0 "BesselBasis"
              "RealAgnosticResidualInteractionBlock")
           (example_foundation "RealAgnosticResidualInteractionBlock"))
        2%positive) !! 0 = Some bf /\
     interactions
       (((load_foundations 1%positive 2%positive
            (AtomicNumberTable_init [8; 1]%Z) true true true 0
            (example_store (num := float)
               (example_target [8; 1]%Z 3 0 "BesselBasis"
                  "RealAgnosticResidualInteractionBlock")
               (example_foundation
                  "RealAgnosticResidualInteractionBlock"))).2)
        1%positive) !! 0 = Some b' /\
     Forall2 (fun z k => list_index z [1; 6; 8]%Z = Some k) [8; 1]%Z idx /\
     length (skip_tp_weight bf) = 6 `div` 3 * 3 * (6 `div` 3) /\
     length (skip_tp_weight b') = 6 `div` 3 * 2 * (6 `div` 3) /\
     forall a j k r,
       a < 6 `div` 3 ->
       idx !! j = Some k ->
       r < 6 `div` 3 ->
       skip_tp_weight b' !! ((a * 2 + j) * (6 `div` 3) + r)
       = (fun x => (x / PrimFloat.sqrt (3 / 2))%float)
           <$> skip_tp_weight bf !! ((a * 3 + k) * (6 `div` 3) + r)) /\
  skip_tp_weight <$>
    interactions
      (((load_foundations 1%positive 2%positive
           (AtomicNumberTable_init [8; 1]%Z) true true true 0
           (example_store (num := float)
              (example_target [8; 1]%Z 3 0 "BesselBasis"
                 "RealAgnosticResidualInteractionBlock")
              (example_foundation
                 "RealAgnosticResidualInteractionBlock"))).2)
       1%positive) !! 0
  = Some [5 / PrimFloat.sqrt (3 / 2); 6 / PrimFloat.sqrt (3 / 2);
          1 / PrimFloat.sqrt (3 / 2); 2 / PrimFloat.sqrt (3 / 2);
          11 / PrimFloat.sqrt (3 / 2); 12 / PrimFloat.sqrt (3 / 2);
          7 / PrimFloat.sqrt (3 / 2); 8 / PrimFloat.sqrt (3 / 2)]%float.
Proof.
  split; [|vm_compute; reflexivity].
  refine (load_foundations_residual_skip_tp 1%positive 2%positive
            (AtomicNumberTable_init [8; 1]%Z) true true true 0 _ _
            1%positive 0
            {| interaction_class := "RealAgnosticResidualInteractionBlock";
               linear_up_weight := [];
               avg_num_neighbors := a_zero;
               conv_tp_weights := [ []; []; []; [] ];
               linear_weight := [];
               skip_tp_weight := [] |}
            _ example_call_OH_returns _ eq_refl eq_refl).
  - discriminate.
  - vm_compute. lia.
Defined.

(** X29 on the example call for the table [O, H], first product block. *)
Lemma load_foundations_contractions_witness :
  (exists pf p',
     products
       ((example_store (num := float)
           (example_target [8; 1]%Z 3 0 "BesselBasis"
              "RealAgnosticResidualInteractionBlock")
           (example_foundation "RealAgnosticResidualInteractionBlock"))
        2%positive) !! 0 = Some pf /\
     products
       (((load_foundations 1%positive 2%positive
            (AtomicNumberTable_init [8; 1]%Z) true true true 0
            (example_store (num := float)
               (example_target [8; 1]%Z 3 0 "BesselBasis"
                  "RealAgnosticResidualInteractionBlock")
               (example_foundation
                  "RealAgnosticResidualInteractionBlock"))).2)
        1%positive) !! 0 = Some p' /\
     product_linear_weight p' = product_linear_weight pf) /\
  exists idx,
    Forall2
      (fun z k =>
         list_index z
           (atomic_numbers
              ((example_store (num := float)
                  (example_target [8; 1]%Z 3 0 "BesselBasis"
                     "RealAgnosticResidualInteractionBlock")
                  (example_foundation "RealAgnosticResidualInteractionBlock"))
               2%positive)) = Some k)
      (zs (AtomicNumberTable_init [8; 1]%Z)) idx /\
    forall j,
      j < Z.to_nat (if decide (0 = 0) then (0 + 1)%Z else 1%Z) ->
      exists cf c',
        contraction_at
          ((example_store (num := float)
              (example_target [8; 1]%Z 3 0 "BesselBasis"
                 "RealAgnosticResidualInteractionBlock")
              (example_foundation "RealAgnosticResidualInteractionBlock"))
           2%positive) 0 j = Some cf /\
        contraction_at
          (((load_foundations 1%positive 2%positive
               (AtomicNumberTable_init [8; 1]%Z) true true true 0
               (example_store (num := float)
                  (example_target [8; 1]%Z 3 0 "BesselBasis"
                     "RealAgnosticResidualInteractionBlock")
                  (example_foundation
                     "RealAgnosticResidualInteractionBlock"))).2)
           1%positive) 0 j = Some c' /\
        Forall2 (fun k blk => weights_max cf !! k = Some blk) idx
          (weights_max c') /\
        forall k, k < 2 ->
          exists wk wk',
            weights cf !! k = Some wk /\ weights c' !! k = Some wk' /\
            Forall2 (fun n blk => wk !! n = Some blk) idx wk'.
Proof.
  refine (load_foundations_contractions 1%positive 2%positive
            (AtomicNumberTable_init [8; 1]%Z) true true true 0 _ _
            1%positive 0 _ example_call_OH_returns _).
  - discriminate.
  - lia.
Defined.

(** X30 on the example call for the table [O, H]. *)
Lemma load_foundations_switches_on_witness :
  (true = true ->
   exists w w1 w2,
     readouts
       ((example_store (num := float)
           (example_target [8; 1]%Z 3 0 "BesselBasis"
              "RealAgnosticResidualInteractionBlock")
           (example_foundation "RealAgnosticResidualInteractionBlock"))
        2%positive) !! 0 = Some (LinearReadoutBlock w) /\
     readouts
       ((example_store (num := float)
           (example_target [8; 1]%Z 3 0 "BesselBasis"
              "RealAgnosticResidualInteractionBlock")
           (example_foundation "RealAgnosticResidualInteractionBlock"))
        2%positive) !! 1 = Some (NonLinearReadoutBlock w1 w2) /\
     readouts
       (((load_foundations 1%positive 2%positive
            (AtomicNumberTable_init [8; 1]%Z) true true true 0
            (example_store (num := float)
               (example_target [8; 1]%Z 3 0 "BesselBasis"
                  "RealAgnosticResidualInteractionBlock")
               (example_foundation
                  "RealAgnosticResidualInteractionBlock"))).2)
        1%positive) !! 0 = Some (LinearReadoutBlock w) /\
     readouts
       (((load_foundations 1%positive 2%positive
            (AtomicNumberTable_init [8; 1]%Z) true true true 0
            (example_store (num := float)
               (example_target [8; 1]%Z 3 0 "BesselBasis"
                  "RealAgnosticResidualInteractionBlock")
               (example_foundation
                  "RealAgnosticResidualInteractionBlock"))).2)
        1%positive) !! 1 = Some (NonLinearReadoutBlock w1 w2)) /\
  (forall ssf,
     scale_shift
       ((example_store (num := float)
           (example_target [8; 1]%Z 3 0 "BesselBasis"
              "RealAgnosticResidualInteractionBlock")
           (example_foundation "RealAgnosticResidualInteractionBlock"))
        2%positive) = Some ssf ->
     (true = true ->
      scale <$>
        scale_shift
          (((load_foundations 1%positive 2%positive
               (AtomicNumberTable_init [8; 1]%Z) true true true 0
               (example_store (num := float)
                  (example_target [8; 1]%Z 3 0 "BesselBasis"
                     "RealAgnosticResidualInteractionBlock")
                  (example_foundation
                     "RealAgnosticResidualInteractionBlock"))).2)
           1%positive) = Some (scale ssf)) /\
     (true = true ->
      shift <$>
        scale_shift
          (((load_foundations 1%positive 2%positive
               (AtomicNumberTable_init [8; 1]%Z) true true true 0
               (example_store (num := float)
                  (example_target [8; 1]%Z 3 0 "BesselBasis"
                     "RealAgnosticResidualInteractionBlock")
                  (example_foundation
                     "RealAgnosticResidualInteractionBlock"))).2)
           1%positive) = Some (shift ssf))) /\
  (bessel_class
     (bessel_fn
        (radial_embedding
           ((example_store (num := float)
               (example_target [8; 1]%Z 3 0 "BesselBasis"
                  "RealAgnosticResidualInteractionBlock")
               (example_foundation "RealAgnosticResidualInteractionBlock"))
            1%positive)))
   = "BesselBasis" ->
   bessel_weights
     (bessel_fn
        (radial_embedding
           (((load_foundations 1%positive 2%positive
                (AtomicNumberTable_init [8; 1]%Z) true true true 0
                (example_store (num := float)
                   (example_target [8; 1]%Z 3 0 "BesselBasis"
                      "RealAgnosticResidualInteractionBlock")
                   (example_foundation
                      "RealAgnosticResidualInteractionBlock"))).2)
            1%positive)))
   = bessel_weights
       (bessel_fn
          (radial_embedding
             ((example_store (num := float)
                 (example_target [8; 1]%Z 3 0 "BesselBasis"
                    "RealAgnosticResidualInteractionBlock")
                 (example_foundation "RealAgnosticResidualInteractionBlock"))
              2%positive)))).
Proof.
  refine (load_foundations_switches_on 1%positive 2%positive
            (AtomicNumberTable_init [8; 1]%Z) true true true 0 _ _
            1%positive _ example_call_OH_returns).
  discriminate.
Defined.
End ExampleExtra.
